(** * Parallel maximum and parallel prefix sum (OpenMP): a shallow embedding

    The development follows [parallel_maximum.cpp] and [prefix_sum_scan.cpp].

    - A [vector<int>] is a [list Z]; [v[i]] is [nth i v 0] and the assignment
      [v[i] = x] is stdpp's [<[i:=x]> v] (an index outside the vector is
      undefined behaviour in C++; the model leaves the vector unchanged).
    - The elements are 32-bit [int]s: [+] and [+=] on elements are written
      with their two's complement wrap-around ([add32]).
    - Indices and loop counters are [nat]s.  This is exact as long as no index
      expression leaves the [int] range, which is the case for arrays of at
      most [2^30] elements.  The two scalar computations on the size of the
      array, the halving loop that counts the levels and the shift
      [1 << log_n], are modelled on [Z] with their wrap-around.
    - [#pragma omp parallel for] over [i = 0, step, 2*step, ...] is the loop
      [omp_for], which runs the iterations in index order.  The index sets of
      two iterations are disjoint, so that running the iterations in any
      other order computes the same (section [ParallelFor]).
    - [#pragma omp parallel] with a body that asks for its thread number is
      run by the threads [0 .. team - 1] of the team that the runtime forms
      for the region.  The code sizes its chunks with
      [num_threads = omp_get_max_threads()], an upper bound of the size of the
      team, and never asks for the size itself: [num_threads] and [team] are
      two parameters of the model.  The threads of a region write disjoint
      elements; the model runs them in the order of their numbers.
    - What a function prints is part of what it returns, where a property
      is about it. *)

From stdpp Require Import base numbers list.

Local Open Scope nat_scope.

(** ** 32-bit integers *)

Definition INT_MIN : Z := (-2147483648)%Z.
Definition INT_MAX : Z := 2147483647%Z.

(** The values of type [int]. *)
Definition int_range (x : Z) : Prop := (INT_MIN <= x <= INT_MAX)%Z.

(** Reduction of an integer to its 32-bit two's complement representative. *)
Definition wrap32 (x : Z) : Z := ((x + 2147483648) mod 4294967296 - 2147483648)%Z.

(** [a + b] on [int]. *)
Definition add32 (a b : Z) : Z := wrap32 (a + b).

(** [a << k] on [int]: the bits shifted past bit 31 are dropped. *)
Definition shl32 (a : Z) (k : Z) : Z := wrap32 (Z.shiftl a k).

(** ** Vectors *)

(** [v[i]] *)
Definition vget (v : list Z) (i : nat) : Z := nth i v 0%Z.

(** [v[i] = x] *)
Definition vset (v : list Z) (i : nat) (x : Z) : list Z := <[i:=x]> v.

(** ** Loops *)

(** [for (int i = i0; i < n; i += step) body(i)], also under
    [#pragma omp parallel for].  [fuel] bounds the number of iterations. *)
Fixpoint for_loop {St : Type} (fuel : nat) (i n step : nat)
    (body : nat -> St -> St) (s : St) : St :=
  match fuel with
  | O => s
  | S fuel' =>
      if i <? n then for_loop fuel' (i + step) n step body (body i s) else s
  end.

(** The loop from [0]; [n] iterations are never exceeded when [step >= 1]. *)
Definition omp_for {St : Type} (n step : nat) (body : nat -> St -> St) (s : St) : St :=
  for_loop n 0 n step body s.

(** [for (int d = 0; d < k; d++) body(d)] *)
Definition for_up {St : Type} (k : nat) (body : nat -> St -> St) (s : St) : St :=
  fold_left (fun s d => body d s) (seq 0 k) s.

(** [for (int d = k - 1; d >= 0; d--) body(d)] *)
Definition for_down {St : Type} (k : nat) (body : nat -> St -> St) (s : St) : St :=
  fold_left (fun s d => body d s) (rev (seq 0 k)) s.

(** [for (int i = lo; i < hi; i++) body(i)] *)
Definition for_range {St : Type} (lo hi : nat) (body : nat -> St -> St) (s : St) : St :=
  fold_left (fun s i => body i s) (seq lo (hi - lo)) s.

(** The iteration indices of [for (i = 0; i < n; i += step)], in the order
    of the sequential loop. *)
Definition iterations (n step : nat) : list nat :=
  omp_for n step (fun i done => done ++ [i]) [].

(** The bodies of the iterations [order], run one after the other in that
    order: one of the executions of a parallel loop whose iterations are
    [order]. *)
Definition run_iterations {St : Type} (order : list nat) (body : nat -> St -> St) (s : St) : St :=
  fold_left (fun s i => body i s) order s.

(** ** [parallel_maximum.cpp] *)

(** The body shared by the linear scans:
    [if (arr[i] > max_val) max_val = arr[i];] *)
Definition max_update (arr : list Z) (i : nat) (max_val : Z) : Z :=
  if (vget arr i >? max_val)%Z then vget arr i else max_val.

(** [sequential_max] *)
Definition sequential_max (arr : list Z) (n : nat) : Z :=
  let max_val := INT_MIN in
  for_up n (max_update arr) max_val.

(** [parallel_max_reduction].  Under [reduction(max:max_val)] every thread
    of the team works on a private copy of [max_val] initialised to the least
    [int]; when the loop ends the private copies are combined with [max] into
    the original variable.  [sched] gives, thread by thread, the iterations
    each thread runs, in the order in which it runs them. *)
Definition parallel_max_reduction (sched : list (list nat)) (arr : list Z) (n : nat) : Z :=
  let max_val := INT_MIN in
  let privates :=
    map (fun its => fold_left (fun m i => max_update arr i m) its INT_MIN) sched in
  fold_left Z.max privates max_val.

(** A schedule distributes the iterations [0 .. n-1], each to one thread. *)
Definition schedule_of (n : nat) (sched : list (list nat)) : Prop :=
  Permutation (concat sched) (seq 0 n).

(** The two vectors a tree reduction has in scope: the caller's [arr], which
    it holds by non-const reference, and its own working copy [temp]. *)
Record mem : Type := { m_arr : list Z; m_temp : list Z }.

(** [temp[i]] *)
Definition temp_get (m : mem) (i : nat) : Z := vget (m_temp m) i.

(** [temp[i] = x] *)
Definition temp_set (m : mem) (i : nat) (x : Z) : mem :=
  {| m_arr := m_arr m; m_temp := vset (m_temp m) i x |}.

(** [vector<int> temp(arr)]: the copy constructor. *)
Definition copy_arr (arr : list Z) : mem := {| m_arr := arr; m_temp := arr |}.

(** The body of the parallel loop of one level:
    [if (i + stride < n) temp[i] = max(temp[i], temp[i + stride]);] *)
Definition tree_body (n stride i : nat) (m : mem) : mem :=
  if i + stride <? n
  then temp_set m i (Z.max (temp_get m i) (temp_get m (i + stride)))
  else m.

(** One level: [for (int i = 0; i < n; i += 2 * stride)]. *)
Definition tree_level (n stride : nat) (m : mem) : mem :=
  omp_for n (2 * stride) (tree_body n stride) m.

(** [while (stride < n) { level; stride *= 2; }] *)
Fixpoint tree_while (fuel : nat) (stride n : nat) (m : mem) : mem :=
  match fuel with
  | O => m
  | S fuel' =>
      if stride <? n
      then tree_while fuel' (stride * 2) n (tree_level n stride m)
      else m
  end.

(** [parallel_max_tree_reduction]: the value returned, and the caller's
    vector when the call returns. *)
Definition parallel_max_tree_reduction (arr : list Z) (n : nat) : Z * list Z :=
  let m := copy_arr arr in
  let stride := 1 in
  let m := tree_while n stride n m in
  (temp_get m 0, m_arr m).

(** [while (temp_n > 1) { temp_n = (temp_n + 1) / 2; levels++; }] on [int]. *)
Fixpoint count_levels (fuel : nat) (temp_n levels : Z) : Z :=
  match fuel with
  | O => levels
  | S fuel' =>
      if (temp_n >? 1)%Z
      then count_levels fuel' (Z.quot (add32 temp_n 1) 2) (add32 levels 1)
      else levels
  end.

(** The number of synchronization steps that
    [parallel_max_explicit_barriers] computes and prints for an array of [n]
    elements.  An [int] above 1 is halved at most 31 times. *)
Definition barrier_levels (n : Z) : Z := count_levels 32 n 0.

(** A line printed after a level: the level, its stride, and the first
    [min(n, 16)] elements of [temp]. *)
Record level_line : Type := { ll_level : nat; ll_stride : nat; ll_temp : list Z }.

(** One iteration of the loop over the levels of
    [parallel_max_explicit_barriers]. *)
Definition barrier_level (n level : nat) (st : mem * list level_line) : mem * list level_line :=
  let stride := Nat.shiftl 1 level in
  let step := stride * 2 in
  let m := omp_for n step (tree_body n stride) (fst st) in
  (m, snd st ++ [ {| ll_level := level; ll_stride := stride;
                     ll_temp := firstn (Nat.min n 16) (m_temp m) |} ]).

(** What a call of [parallel_max_explicit_barriers] produces. *)
Record barriers_result : Type := {
  br_max : Z;                     (* the value returned *)
  br_steps : Z;                   (* "Number of synchronization steps: " *)
  br_lines : list level_line;     (* "After level ..." *)
  br_arr : list Z                 (* the caller's vector when the call returns *)
}.

(** [parallel_max_explicit_barriers] *)
Definition parallel_max_explicit_barriers (arr : list Z) (n : nat) : barriers_result :=
  let m := copy_arr arr in
  let levels := barrier_levels (Z.of_nat n) in
  let st := for_up (Z.to_nat levels) (barrier_level n) (m, []) in
  {| br_max := temp_get (fst st) 0; br_steps := levels;
     br_lines := snd st; br_arr := m_arr (fst st) |}.

(** The chunk of thread [tid], for [num_threads = omp_get_max_threads()]:
    [chunk_size = (n + num_threads - 1) / num_threads],
    [start = tid * chunk_size], [end = min(start + chunk_size, n)]. *)
Definition chunk_start (num_threads n tid : nat) : nat :=
  tid * ((n + num_threads - 1) / num_threads).

Definition chunk_end (num_threads n tid : nat) : nat :=
  Nat.min (chunk_start num_threads n tid + (n + num_threads - 1) / num_threads) n.

(** The parallel region of [parallel_max_sections], as run by thread [tid]. *)
Definition sections_thread (num_threads : nat) (arr : list Z) (n tid : nat)
    (partial_max : list Z) : list Z :=
  for_range (chunk_start num_threads n tid) (chunk_end num_threads n tid)
    (fun i partial_max =>
       if (vget arr i >? vget partial_max tid)%Z
       then vset partial_max tid (vget arr i)
       else partial_max)
    partial_max.

(** [parallel_max_sections], with [num_threads = omp_get_max_threads()] and
    a team of [team] threads in its parallel region.  The sequential loop that
    follows the region runs over all the [num_threads] partial maxima. *)
Definition parallel_max_sections (num_threads team : nat) (arr : list Z) (n : nat) : Z :=
  let partial_max := replicate num_threads INT_MIN in
  let partial_max := for_up team (sections_thread num_threads arr n) partial_max in
  let max_val := INT_MIN in
  for_up num_threads (fun i max_val => Z.max max_val (vget partial_max i)) max_val.

(** ** [prefix_sum_scan.cpp] *)

(** [sequential_prefix_sum] *)
Definition sequential_prefix_sum (arr : list Z) : list Z :=
  let n := length arr in
  let result := replicate n 0%Z in
  if n =? 0 then result
  else
    let result := vset result 0 (vget arr 0) in
    for_range 1 n
      (fun i result => vset result i (add32 (vget result (i - 1)) (vget arr i)))
      result.

(** [(int)ceil(log2(n))].  For [1 <= n <= INT_MAX] the conversion of [n] to
    [double] is exact and the rounded logarithm is an integer only at the
    powers of two, so that the value is the least [k] with [n <= 2^k]. *)
Definition ceil_log2 (n : Z) : Z := Z.log2_up n.

(** What the Blelloch scan prints before it starts: the padded number of
    elements, the number of levels and the synchronization steps. *)
Record scan_report : Type := { sr_padded : Z; sr_levels : Z; sr_steps : Z }.

(** The exception a scan can throw.  [LengthError count]: the constructor
    [vector<int> temp(n, 0)] is called with the count [count] and throws
    [std::length_error]; it does so when the count, converted to [size_t], is
    above [max_size()], that is when the [int] is negative.  The constructor
    compares the count with [max_size()] before it asks for memory. *)
Inductive failure : Type :=
  | LengthError (count : Z).



(** Lines 34 to 38: the size of the padded buffer, and its construction. *)
Definition build_padded (original_n : Z) : failure + Z :=
  let log_n := ceil_log2 original_n in
  let n := shl32 1 log_n in
  if (n <? 0)%Z then inl (LengthError n) else inr n.


(** [vector<int> temp(n, 0); for (i < original_n) temp[i] = arr[i];] *)
Definition padded_buffer (arr : list Z) (n : nat) : list Z :=
  for_up (length arr) (fun i temp => vset temp i (vget arr i)) (replicate n 0%Z).

(** The body of the upsweep loop: [temp[i + stride - 1] += temp[i + offset];] *)
Definition upsweep_body (stride offset i : nat) (temp : list Z) : list Z :=
  vset temp (i + stride - 1) (add32 (vget temp (i + stride - 1)) (vget temp (i + offset))).

(** Level [d] of the upsweep. *)
Definition upsweep_level (n d : nat) (temp : list Z) : list Z :=
  let stride := Nat.shiftl 1 (d + 1) in
  let offset := Nat.shiftl 1 d - 1 in
  omp_for n stride (upsweep_body stride offset) temp.

(** The upsweep: [for (int d = 0; d < log_n; d++)]. *)
Definition upsweep (n log_n : nat) (temp : list Z) : list Z :=
  for_up log_n (upsweep_level n) temp.

(** The body of the downsweep loop:
    [t = temp[i + offset]; temp[i + offset] = temp[i + stride - 1];
     temp[i + stride - 1] += t;] *)
Definition downsweep_body (stride offset i : nat) (temp : list Z) : list Z :=
  let t := vget temp (i + offset) in
  let temp := vset temp (i + offset) (vget temp (i + stride - 1)) in
  vset temp (i + stride - 1) (add32 (vget temp (i + stride - 1)) t).

(** Level [d] of the downsweep. *)
Definition downsweep_level (n d : nat) (temp : list Z) : list Z :=
  let stride := Nat.shiftl 1 (d + 1) in
  let offset := Nat.shiftl 1 d - 1 in
  omp_for n stride (downsweep_body stride offset) temp.

(** The downsweep: [for (int d = log_n - 1; d >= 0; d--)]. *)
Definition downsweep (n log_n : nat) (temp : list Z) : list Z :=
  for_down log_n (downsweep_level n) temp.

(** [parallel_prefix_sum_blelloch] *)
Definition parallel_prefix_sum_blelloch (arr : list Z) : failure + scan_report * list Z :=
  let original_n := length arr in
  let log_n := ceil_log2 (Z.of_nat original_n) in
  match build_padded (Z.of_nat original_n) with
  | inl thrown => inl thrown
  | inr n =>
      let report := {| sr_padded := n; sr_levels := log_n; sr_steps := 2 * log_n |} in
      let n := Z.to_nat n in
      let log_n := Z.to_nat log_n in
      let temp := padded_buffer arr n in
      let temp := upsweep n log_n temp in
      let total_sum := vget temp (n - 1) in
      let temp := vset temp (n - 1) 0%Z in
      let temp := downsweep n log_n temp in
      let result := replicate original_n 0%Z in
      let result :=
        for_up original_n
          (fun i result => vset result i (add32 (vget temp i) (vget arr i))) result in
      inr (report, result)
  end.

(** Phase 1 of [parallel_prefix_sum_recursive], as run by thread [tid], on
    the pair of [result] and [block_sums]. *)
Definition block_scan_thread (num_threads : nat) (arr : list Z) (tid : nat)
    (st : list Z * list Z) : list Z * list Z :=
  let n := length arr in
  let start := chunk_start num_threads n tid in
  let end_ := chunk_end num_threads n tid in
  if start <? end_ then
    let result := vset (fst st) start (vget arr start) in
    let local_sum := vget arr start in
    let '(result, local_sum) :=
      for_range (start + 1) end_
        (fun i '(result, local_sum) =>
           let local_sum := add32 local_sum (vget arr i) in
           (vset result i local_sum, local_sum))
        (result, local_sum) in
    (result, vset (snd st) tid local_sum)
  else st.

(** Phase 2: the prefix sums of the block sums. *)
Definition block_prefix_sums (num_threads : nat) (block_sums : list Z) : list Z :=
  let block_prefix := replicate num_threads 0%Z in
  let block_prefix := vset block_prefix 0 0%Z in
  for_range 1 num_threads
    (fun i block_prefix =>
       vset block_prefix i (add32 (vget block_prefix (i - 1)) (vget block_sums (i - 1))))
    block_prefix.

(** Phase 3, as run by thread [tid]: [result[i] += block_prefix[tid];] *)
Definition block_add_thread (num_threads n : nat) (block_prefix : list Z) (tid : nat)
    (result : list Z) : list Z :=
  for_range (chunk_start num_threads n tid) (chunk_end num_threads n tid)
    (fun i result => vset result i (add32 (vget result i) (vget block_prefix tid)))
    result.

(** [parallel_prefix_sum_recursive], with
    [num_threads = omp_get_max_threads()], a team of [team1] threads in the
    parallel region of phase 1 and a team of [team3] threads in the one of
    phase 3. *)
Definition parallel_prefix_sum_recursive (num_threads team1 team3 : nat) (arr : list Z) :
    list Z :=
  let n := length arr in
  let result := replicate n 0%Z in
  if n =? 0 then result
  else
    let block_sums := replicate num_threads 0%Z in
    let '(result, block_sums) :=
      for_up team1 (block_scan_thread num_threads arr) (result, block_sums) in
    let block_prefix := block_prefix_sums num_threads block_sums in
    for_up team3 (block_add_thread num_threads n block_prefix) result.

(** What a call of [verify_arrays] does: it returns [true]; it returns
    [false] because the sizes differ; or it prints the index and the two values
    of a mismatch and returns [false].  [OutOfBounds] stands for an access
    outside one of the vectors, which no call performs. *)
Inductive verdict : Type :=
  | Pass
  | SizeDiffers
  | MismatchAt (i : nat) (x y : Z)
  | OutOfBounds (i : nat).

(** [for (size_t i = 0; i < a.size(); i++) if (a[i] != b[i]) { ... return false; }] *)
Fixpoint verify_loop (fuel i : nat) (a b : list Z) : verdict :=
  match fuel with
  | O => Pass
  | S fuel' =>
      if i <? length a then
        match a !! i, b !! i with
        | Some x, Some y =>
            if (x =? y)%Z then verify_loop fuel' (S i) a b else MismatchAt i x y
        | _, _ => OutOfBounds i
        end
      else Pass
  end.

(** [verify_arrays] *)
Definition verify_arrays (a b : list Z) : verdict :=
  if negb (length a =? length b) then SizeDiffers
  else verify_loop (length a) 0 a b.

(** The value [verify_arrays] returns. *)
Definition verdict_value (v : verdict) : bool :=
  match v with Pass => true | _ => false end.

(** ** Specification functions *)

(** The maximum of [a[lo .. lo + len - 1]] and the least [int]. *)
Fixpoint seg_max (a : list Z) (lo len : nat) : Z :=
  match len with
  | O => INT_MIN
  | S len' => Z.max (vget a lo) (seg_max a (S lo) len')
  end.

(** The sum, in the integers, of [a[lo .. lo + len - 1]]. *)
Fixpoint seg_sum (a : list Z) (lo len : nat) : Z :=
  match len with
  | O => 0%Z
  | S len' => (vget a lo + seg_sum a (S lo) len')%Z
  end.

(** The sum of [a[lo .. lo + len - 1]] in [int] arithmetic, taken from left
    to right. *)
Fixpoint int_sum (a : list Z) (lo len : nat) : Z :=
  match len with
  | O => 0%Z
  | S len' => add32 (int_sum a lo len') (vget a (lo + len'))
  end.

(** [m] is the maximum element of [S]. *)
Definition is_max_of (m : Z) (S : list Z) : Prop :=
  In m S /\ forall x, In x S -> (x <= m)%Z.

(** [R] is the inclusive prefix sum of [S] in [int] arithmetic. *)
Definition is_inclusive_scan (R S : list Z) : Prop :=
  length R = length S /\
  vget R 0 = vget S 0 /\
  forall i, 1 <= i < length S -> vget R i = add32 (vget R (i - 1)) (vget S i).

(** What [tree_body] does to [temp]. *)
Definition tree_step (n stride i : nat) (temp : list Z) : list Z :=
  if i + stride <? n
  then vset temp i (Z.max (vget temp i) (vget temp (i + stride)))
  else temp.

(** The invariant of the levels of the tree reduction of [arr]: with the
    levels of strides below [s] done, every element [k * s] of [temp] holds
    the maximum of the [s] elements of [arr] from [k * s] on, as far as the
    vector goes. *)
Definition tree_inv (arr : list Z) (s : nat) (t : list Z) : Prop :=
  length t = length arr /\
  forall k, k * s < length arr ->
    vget t (k * s) = seg_max arr (k * s) (Nat.min s (length arr - k * s)).

(** The indices of [temp] that iteration [i] of a tree reduction level with
    stride [stride] reads, and the one it writes. *)
Definition tree_reads (stride i : nat) : list nat := [i; i + stride].
Definition tree_writes (stride i : nat) : list nat := [i].

(** The indices of [temp] that iteration [i] of level [d] of the upsweep
    and of the downsweep reads: [i + offset] and [i + stride - 1].  The upsweep
    writes the second one, the downsweep both. *)
Definition sweep_reads (d i : nat) : list nat :=
  [i + (Nat.shiftl 1 d - 1); i + Nat.shiftl 1 (d + 1) - 1].
Definition upsweep_writes (d i : nat) : list nat := [i + Nat.shiftl 1 (d + 1) - 1].
Definition downsweep_writes (d i : nat) : list nat :=
  [i + (Nat.shiftl 1 d - 1); i + Nat.shiftl 1 (d + 1) - 1].

(** Two sets of indices have no index in common. *)
Definition disjoint_indices (xs ys : list nat) : Prop :=
  forall x, In x xs -> In x ys -> False.

(** The invariant of the upsweep over the padded buffer [a], of [n]
    elements, with the levels below [d] done: the last element of every block
    of [2^d] elements holds the sum of the block, and for [e < d] the last
    element of every block of [2^e] elements that is the left half of a block
    of [2^(e+1)] elements holds the sum of that block.  Sums are reduced to
    [int]. *)
Definition up_inv (a : list Z) (n d : nat) (t : list Z) : Prop :=
  length t = n /\
  forall e k, e <= d -> (k + 1) * 2 ^ e <= n -> e = d \/ Nat.even k = true ->
    vget t (k * 2 ^ e + 2 ^ e - 1) = wrap32 (seg_sum a (k * 2 ^ e) (2 ^ e)).

(** The invariant of the downsweep, with the levels [d] and above done: the
    last element of every block of [2^d] elements holds the sum of the
    elements before the block, and the left halves of the smaller blocks are as
    the upsweep left them. *)
Definition down_inv (a : list Z) (n d : nat) (t : list Z) : Prop :=
  length t = n /\
  (forall k, (k + 1) * 2 ^ d <= n ->
     vget t (k * 2 ^ d + 2 ^ d - 1) = wrap32 (seg_sum a 0 (k * 2 ^ d))) /\
  (forall e k, e < d -> (k + 1) * 2 ^ e <= n -> Nat.even k = true ->
     vget t (k * 2 ^ e + 2 ^ e - 1) = wrap32 (seg_sum a (k * 2 ^ e) (2 ^ e))).

(** ** The remaining functions *)

(** [parallel_prefix_sum_omp_scan]: inside the parallel region a
    work-shared loop copies [arr] into [result], and then one thread runs the
    sequential recurrence. *)
Definition parallel_prefix_sum_omp_scan (arr : list Z) : list Z :=
  let n := length arr in
  let result := replicate n 0%Z in
  let result := omp_for n 1 (fun i result => vset result i (vget arr i)) result in
  let result := vset result 0 (vget arr 0) in
  for_range 1 n
    (fun i result => vset result i (add32 (vget result (i - 1)) (vget arr i)))
    result.

(** [vector<int> arr(n); for (i < n) arr[i] = value(rand());] where
    [rand i] is the value the [i]-th call of [rand()] returns and [value] is
    [rand() % 1000] in one program and [rand() % 100 + 1] in the other.  [%]
    on [int] truncates. *)
Definition random_array (n : nat) (value : Z -> Z) (rand : nat -> Z) : list Z :=
  for_up n (fun i arr => vset arr i (value (rand i))) (replicate n 0%Z).

(** What [main] of [parallel_maximum.cpp] prints: the five maxima and the
    verification status. *)
Record maximum_report : Type := {
  mx_reduction : Z;
  mx_tree : Z;
  mx_sections : Z;
  mx_barriers : Z;
  mx_sequential : Z;
  mx_all_correct : bool
}.

(** What [main] of [prefix_sum_scan.cpp] prints about the scans: the two
    verifications, the total sum and the final status. *)
Record scan_summary : Type := {
  ss_blelloch_verified : bool;
  ss_block_verified : bool;
  ss_total : Z;
  ss_all_methods : bool
}.

Module ParallelMaximum.

(** [main] of [parallel_maximum.cpp]: [n] is the size read from the input,
    [rand] the values of [rand()], [sched] the schedule of the reduction
    clause, [team] the size of the team of the parallel region of
    [parallel_max_sections].  It returns the exit code and, when the methods
    ran, what they reported.  [arr2] and [arr4] are the copies handed to the
    functions that take the array by reference.  After
    [omp_set_num_threads(num_threads)] the value of [omp_get_max_threads()] is
    [num_threads]. *)
Definition main (n : Z) (rand : nat -> Z) (sched : list (list nat)) (team : nat) :
    Z * option maximum_report :=
  if (n <=? 0)%Z then (1%Z, None)
  else
    let size := Z.to_nat n in
    let arr := random_array size (fun r => Z.rem r 1000) rand in
    let num_threads := 4 in
    let max1 := parallel_max_reduction sched arr size in
    let arr2 := arr in
    let max2 := fst (parallel_max_tree_reduction arr2 size) in
    let max3 := parallel_max_sections num_threads team arr size in
    let arr4 := arr in
    let max4 := br_max (parallel_max_explicit_barriers arr4 size) in
    let max_seq := sequential_max arr size in
    let all_correct :=
      (max1 =? max2)%Z && (max2 =? max3)%Z && (max3 =? max4)%Z && (max4 =? max_seq)%Z in
    (0%Z, Some {| mx_reduction := max1; mx_tree := max2; mx_sections := max3;
                  mx_barriers := max4; mx_sequential := max_seq;
                  mx_all_correct := all_correct |}).

End ParallelMaximum.

Module PrefixSumScan.

(** [main] of [prefix_sum_scan.cpp]; [team1] and [team3] are the sizes of
    the teams of the two parallel regions of [parallel_prefix_sum_recursive].
    An exception that the Blelloch scan throws is not caught. *)
Definition main (n : Z) (rand : nat -> Z) (team1 team3 : nat) :
    failure + Z * option scan_summary :=
  if (n <=? 0)%Z then inr (1%Z, None)
  else
    let size := Z.to_nat n in
    let arr := random_array size (fun r => add32 (Z.rem r 100) 1) rand in
    let num_threads := 4 in
    let result_seq := sequential_prefix_sum arr in
    match parallel_prefix_sum_blelloch arr with
    | inl thrown => inl thrown
    | inr (_, result1) =>
        let verified1 := verdict_value (verify_arrays result1 result_seq) in
        let result3 := parallel_prefix_sum_recursive num_threads team1 team3 arr in
        let verified3 := verdict_value (verify_arrays result3 result_seq) in
        inr (0%Z, Some {| ss_blelloch_verified := verified1;
                          ss_block_verified := verified3;
                          ss_total := vget result_seq (size - 1);
                          ss_all_methods :=
                            verdict_value (verify_arrays result1 result_seq) &&
                            verdict_value (verify_arrays result3 result_seq) |})
    end.

End PrefixSumScan.

(** The loop of [parallel_max_tree_reduction] as a counted loop: the levels
    of strides [2^l], [l = first, first + 1, ...], [count] of them. *)
Definition tree_levels (n first count : nat) (m : mem) : mem :=
  fold_left (fun m l => tree_level n (2 ^ l) m) (seq first count) m.

(** * Properties *)

(** ** 32-bit arithmetic *)

Lemma wrap32_range (x : Z) : int_range (wrap32 x).
Proof.
  unfold int_range, wrap32, INT_MIN, INT_MAX.
  pose proof (Z.mod_pos_bound (x + 2147483648) 4294967296). lia.
Qed.

Lemma wrap32_id (x : Z) : int_range x -> wrap32 x = x.
Proof.
  unfold int_range, wrap32, INT_MIN, INT_MAX. intros Hx.
  rewrite Z.mod_small; lia.
Qed.

Lemma wrap32_add_l (a b : Z) : wrap32 (wrap32 a + b) = wrap32 (a + b).
Proof.
  unfold wrap32. f_equal.
  replace ((a + 2147483648) mod 4294967296 - 2147483648 + b + 2147483648)%Z
    with ((a + 2147483648) mod 4294967296 + b)%Z by lia.
  rewrite Zplus_mod_idemp_l. f_equal. lia.
Qed.

Lemma wrap32_add_r (a b : Z) : wrap32 (a + wrap32 b) = wrap32 (a + b).
Proof. rewrite (Z.add_comm a), wrap32_add_l. f_equal. lia. Qed.

Lemma wrap32_idem (a : Z) : wrap32 (wrap32 a) = wrap32 a.
Proof. apply wrap32_id, wrap32_range. Qed.

Lemma wrap32_add_cong (a a' b b' : Z) :
  wrap32 a = wrap32 a' -> wrap32 b = wrap32 b' -> wrap32 (a + b) = wrap32 (a' + b').
Proof.
  intros Ha Hb.
  rewrite <- (wrap32_add_l a b), <- (wrap32_add_r (wrap32 a) b), Ha, Hb.
  now rewrite wrap32_add_l, wrap32_add_r.
Qed.

Lemma add32_wrap (a b : Z) : add32 (wrap32 a) (wrap32 b) = wrap32 (a + b).
Proof. unfold add32. now rewrite wrap32_add_l, wrap32_add_r. Qed.

Lemma add32_wrap_l (a b : Z) : add32 (wrap32 a) b = wrap32 (a + b).
Proof. unfold add32. now rewrite wrap32_add_l. Qed.

Lemma add32_wrap_r (a b : Z) : add32 a (wrap32 b) = wrap32 (a + b).
Proof. unfold add32. now rewrite wrap32_add_r. Qed.

(** ** Vectors *)

Lemma vset_length (v : list Z) i x : length (vset v i x) = length v.
Proof. apply length_insert. Qed.

Lemma vget_vset_eq (v : list Z) i x : i < length v -> vget (vset v i x) i = x.
Proof.
  intros Hi. unfold vget, vset. rewrite nth_lookup, list_lookup_insert_eq; auto.
Qed.

Lemma vget_vset_ne (v : list Z) i j x : i <> j -> vget (vset v i x) j = vget v j.
Proof.
  intros Hne. unfold vget, vset. rewrite !nth_lookup, list_lookup_insert_ne; auto.
Qed.

Lemma vget_vset (v : list Z) i j x :
  vget (vset v i x) j = if decide (i = j /\ i < length v) then x else vget v j.
Proof.
  case_decide as H.
  - destruct H as [-> H]. now apply vget_vset_eq.
  - destruct (decide (i = j)) as [->|Hne].
    + unfold vset. rewrite list_insert_ge; auto. lia.
    + now apply vget_vset_ne.
Qed.

Lemma vget_replicate n (x : Z) i : i < n -> vget (replicate n x) i = x.
Proof.
  intros Hi. unfold vget. rewrite nth_lookup, lookup_replicate_2; auto.
Qed.

Lemma vget_lookup (v : list Z) i x : v !! i = Some x -> vget v i = x.
Proof. intros H. unfold vget. now rewrite nth_lookup, H. Qed.

Lemma lookup_vget (v : list Z) i : i < length v -> v !! i = Some (vget v i).
Proof.
  intros Hi. destruct (lookup_lt_is_Some_2 v i Hi) as [x Hx].
  now rewrite (vget_lookup _ _ _ Hx).
Qed.

(** Two vectors of one length with the same elements are equal. *)
Lemma vec_ext (u v : list Z) :
  length u = length v -> (forall i, i < length u -> vget u i = vget v i) -> u = v.
Proof.
  intros Hlen Hget. apply list_eq_same_length with (length u); auto.
  intros i x y Hi Hx Hy.
  specialize (Hget i Hi). rewrite (vget_lookup _ _ _ Hx), (vget_lookup _ _ _ Hy) in Hget.
  assumption.
Qed.

Lemma Forall_vget (P : Z -> Prop) (a : list Z) i :
  Forall P a -> i < length a -> P (vget a i).
Proof.
  intros HP Hi. rewrite Forall_forall in HP. apply HP.
  apply list_elem_of_lookup. exists i. now apply lookup_vget.
Qed.

Lemma mem_eq (m1 m2 : mem) : m_arr m1 = m_arr m2 -> m_temp m1 = m_temp m2 -> m1 = m2.
Proof. destruct m1, m2. simpl. now intros -> ->. Qed.

(** ** Loops *)

Lemma for_up_S {St : Type} k (body : nat -> St -> St) s :
  for_up (S k) body s = body k (for_up k body s).
Proof. unfold for_up. now rewrite seq_S, fold_left_app. Qed.

Lemma for_down_S {St : Type} k (body : nat -> St -> St) s :
  for_down (S k) body s = for_down k body (body k s).
Proof. unfold for_down. now rewrite seq_S, rev_app_distr. Qed.

Lemma for_up_split {St : Type} (k1 k2 : nat) (body : nat -> St -> St) (s : St) :
  for_up (k1 + k2) body s = fold_left (fun s d => body d s) (seq k1 k2) (for_up k1 body s).
Proof. unfold for_up. now rewrite seq_app, fold_left_app. Qed.

Lemma for_range_empty {St : Type} lo hi (body : nat -> St -> St) s :
  hi <= lo -> for_range lo hi body s = s.
Proof. intros H. unfold for_range. now replace (hi - lo) with 0 by lia. Qed.

Lemma for_range_S {St : Type} lo hi (body : nat -> St -> St) s :
  lo <= hi -> for_range lo (S hi) body s = body hi (for_range lo hi body s).
Proof.
  intros H. unfold for_range. replace (S hi - lo) with (S (hi - lo)) by lia.
  rewrite seq_S, fold_left_app. simpl. now replace (lo + (hi - lo)) with hi by lia.
Qed.

(** A loop that has fuel left when it stops does the same with more fuel. *)
Lemma for_loop_fuel {St : Type} (body : nat -> St -> St) n step fuel extra :
  0 < step -> forall i s, n <= i + fuel ->
  for_loop (fuel + extra) i n step body s = for_loop fuel i n step body s.
Proof.
  intros Hstep. induction fuel as [|fuel IH]; intros i s Hle; simpl.
  - destruct extra; simpl; auto.
    destruct (Nat.ltb_spec i n); auto. lia.
  - destruct (Nat.ltb_spec i n); auto. apply IH. lia.
Qed.

Lemma omp_for_fuel {St : Type} (body : nat -> St -> St) n step extra s :
  0 < step -> for_loop (n + extra) 0 n step body s = omp_for n step body s.
Proof. intros Hstep. apply for_loop_fuel; auto. Qed.

(** A loop that stores [f i] at every index [i < k]. *)
Lemma for_up_fill (f : nat -> Z) (r0 : list Z) (k : nat) :
  k <= length r0 ->
  let r := for_up k (fun i r => vset r i (f i)) r0 in
  length r = length r0 /\
  (forall i, i < k -> vget r i = f i) /\
  (forall i, k <= i -> vget r i = vget r0 i).
Proof.
  induction k as [|k IH]; intros Hk; cbv zeta.
  - unfold for_up. simpl. repeat split; auto. intros; lia.
  - destruct (IH ltac:(lia)) as (Hl & Hdone & Htodo). cbv zeta in *.
    rewrite for_up_S, vset_length. repeat split; auto.
    + intros i Hi. destruct (decide (i = k)) as [->|Hne].
      * apply vget_vset_eq. lia.
      * rewrite vget_vset_ne by lia. apply Hdone. lia.
    + intros i Hi. rewrite vget_vset_ne by lia. apply Htodo. lia.
Qed.

(** Two loops whose bodies preserve a relation between their states end in
    related states. *)
Lemma for_loop_rel {S T : Type} (R : S -> T -> Prop)
    (body1 : nat -> S -> S) (body2 : nat -> T -> T) n step :
  (forall i s t, R s t -> R (body1 i s) (body2 i t)) ->
  forall fuel i s t, R s t ->
    R (for_loop fuel i n step body1 s) (for_loop fuel i n step body2 t).
Proof.
  intros Hbody. induction fuel as [|fuel IH]; intros i s t HR; simpl; auto.
  destruct (i <? n); auto.
Qed.

(** ** Powers of two and multiples *)

Lemma pow2_pos (d : nat) : 0 < 2 ^ d.
Proof. pose proof (Nat.pow_nonzero 2 d). lia. Qed.

Lemma pow2_S (d : nat) : 2 ^ (d + 1) = 2 * 2 ^ d.
Proof. rewrite Nat.add_1_r. reflexivity. Qed.

Lemma multiples_apart (m k1 k2 : nat) : k1 < k2 -> k1 * m + m <= k2 * m.
Proof.
  intros H. replace (k1 * m + m) with (S k1 * m) by (simpl; lia).
  apply Nat.mul_le_mono_r. lia.
Qed.

Lemma levels_divide (L d : nat) : d < L -> 2 ^ L = 2 ^ (L - d - 1) * 2 ^ (d + 1).
Proof.
  intros Hd. rewrite <- Nat.pow_add_r. f_equal. lia.
Qed.

Lemma block_of_index (s j : nat) : 0 < s -> exists q, q * s <= j < q * s + s.
Proof.
  intros Hs. exists (j / s).
  pose proof (Nat.div_mod_eq j s). pose proof (Nat.mod_upper_bound j s ltac:(lia)). lia.
Qed.

(** The last element of a left half at level [e] is not the last element of
    a block of a higher level. *)
Lemma left_half_not_last (e D k k' : nat) :
  e < D -> Nat.even k = true -> k * 2 ^ e + 2 ^ e - 1 <> k' * 2 ^ D + 2 ^ D - 1.
Proof.
  intros HeD Hev Heq.
  apply Nat.even_spec in Hev. destruct Hev as [m ->].
  pose proof (pow2_pos e) as He. pose proof (pow2_pos D) as HD.
  assert (Hsplit : 2 ^ D = 2 * 2 ^ (D - e - 1) * 2 ^ e).
  { replace D with (S (D - e - 1) + e) at 1 by lia.
    rewrite Nat.pow_add_r. simpl. lia. }
  set (x := 2 ^ (D - e - 1)) in *.
  assert (Hmul : (2 * m + 1) * 2 ^ e = ((k' + 1) * (2 * x)) * 2 ^ e) by lia.
  apply Nat.mul_cancel_r in Hmul; lia.
Qed.

(** ** Parallel loops

    [omp_for] runs the iterations of a parallel loop in index order.  The
    iteration [i] of a loop [for (i = 0; i < n; i += step)] owns the block of
    indices [i .. i + step - 1].  When the body of every iteration writes
    inside its block only, and what it writes depends on its block only, the
    loop computes on each block what the body of that block computes on the
    vector the loop started from, and the iterations can be run in any order:
    no iteration sees a write of another one. *)

Lemma for_loop_collect (n step fuel : nat) : forall i (done : list nat),
  for_loop fuel i n step (fun i done => done ++ [i]) done =
    done ++ for_loop fuel i n step (fun i done => done ++ [i]) [].
Proof.
  induction fuel as [|fuel IH]; intros i done; simpl.
  - now rewrite app_nil_r.
  - destruct (i <? n); [|now rewrite app_nil_r].
    rewrite (IH _ (done ++ [i])), (IH _ ([] ++ [i])). simpl. now rewrite <- app_assoc.
Qed.

(** The loop runs the bodies of its iterations in the order of
    [iterations]. *)
Lemma for_loop_run {St : Type} (n step : nat) (body : nat -> St -> St) (fuel : nat) :
  forall i s,
  for_loop fuel i n step body s =
    run_iterations (for_loop fuel i n step (fun i done => done ++ [i]) []) body s.
Proof.
  induction fuel as [|fuel IH]; intros i s; simpl; auto.
  destruct (i <? n); auto.
  rewrite for_loop_collect. simpl. apply IH.
Qed.

Lemma omp_for_run {St : Type} (n step : nat) (body : nat -> St -> St) (s : St) :
  omp_for n step body s = run_iterations (iterations n step) body s.
Proof. apply for_loop_run. Qed.

Lemma for_loop_multiples (n step fuel : nat) : forall k0,
  Forall (fun i => exists k, i = k * step)
    (for_loop fuel (k0 * step) n step (fun i done => done ++ [i]) []).
Proof.
  induction fuel as [|fuel IH]; intros k0; simpl; [constructor|].
  destruct (k0 * step <? n); [|constructor].
  rewrite for_loop_collect. simpl. constructor; [now exists k0|].
  replace (k0 * step + step) with (S k0 * step) by (simpl; lia). apply IH.
Qed.

Lemma iterations_multiples (n step : nat) :
  Forall (fun i => exists k, i = k * step) (iterations n step).
Proof. apply (for_loop_multiples n step n 0). Qed.

(** Bodies that commute can be run in any order. *)
Lemma run_iterations_perm {St : Type} (P : nat -> Prop) (body : nat -> St -> St) :
  (forall i j s, P i -> P j -> body j (body i s) = body i (body j s)) ->
  forall order order', Permutation order order' -> Forall P order ->
  forall s, run_iterations order body s = run_iterations order' body s.
Proof.
  intros Hcomm order order' Hperm.
  induction Hperm as [|x l l' Hp IH|x y l|l l' l'' Hp1 IH1 Hp2 IH2]; intros HP s.
  - reflexivity.
  - apply Forall_cons in HP as [_ HP]. apply (IH HP).
  - apply Forall_cons in HP as [Hy HP]. apply Forall_cons in HP as [Hx _].
    unfold run_iterations. simpl. now rewrite (Hcomm y x s Hy Hx).
  - rewrite (IH1 HP). apply IH2. eapply Permutation_Forall; eauto.
Qed.

Lemma run_iterations_rel {S T : Type} (R : S -> T -> Prop)
    (body1 : nat -> S -> S) (body2 : nat -> T -> T) :
  (forall i s t, R s t -> R (body1 i s) (body2 i t)) ->
  forall order s t, R s t ->
    R (run_iterations order body1 s) (run_iterations order body2 t).
Proof.
  intros Hbody. unfold run_iterations.
  induction order as [|i order IH]; intros s t HR; simpl; auto.
Qed.

Section ParallelFor.
Variables (n step : nat) (body : nat -> list Z -> list Z).
Hypothesis step_pos : 0 < step.
Hypothesis body_length : forall i t, length (body i t) = length t.
Hypothesis body_frame :
  forall i t j, j < i \/ i + step <= j -> vget (body i t) j = vget t j.
Hypothesis body_local :
  forall i t t', length t = length t' ->
    (forall j, i <= j < i + step -> vget t j = vget t' j) ->
    forall j, i <= j < i + step -> vget (body i t) j = vget (body i t') j.

Lemma for_loop_blocks fuel : forall k0 t,
  n <= k0 * step + fuel ->
  let r := for_loop fuel (k0 * step) n step body t in
  length r = length t /\
  (forall j, j < k0 * step -> vget r j = vget t j) /\
  (forall k j, k0 <= k -> k * step < n -> k * step <= j < k * step + step ->
     vget r j = vget (body (k * step) t) j) /\
  (forall k j, k0 <= k -> n <= k * step -> k * step <= j -> vget r j = vget t j).
Proof.
  induction fuel as [|fuel IH]; intros k0 t Hfuel; simpl.
  - repeat split; auto.
    intros k j Hk Hlt _. assert (k0 * step <= k * step) by (apply Nat.mul_le_mono_r; lia). lia.
  - destruct (Nat.ltb_spec (k0 * step) n) as [Hlt|Hge].
    + replace (k0 * step + step) with (S k0 * step) by (simpl; lia).
      destruct (IH (S k0) (body (k0 * step) t)) as (Hlen & Hlow & Hblk & Hhigh).
      { simpl. lia. }
      simpl in Hlow.
      repeat split.
      * rewrite Hlen. apply body_length.
      * intros j Hj. rewrite Hlow by lia. apply body_frame. lia.
      * intros k j Hk Hkn Hj.
        destruct (decide (k = k0)) as [->|Hne].
        -- apply Hlow. lia.
        -- assert (S k0 * step <= k * step) by (apply Nat.mul_le_mono_r; lia).
           simpl in H.
           rewrite (Hblk k) by (auto; lia).
           apply body_local; auto.
           intros j' Hj'. apply body_frame. lia.
      * intros k j Hk Hkn Hj.
        assert (k0 * step <= k * step) by (apply Nat.mul_le_mono_r; lia).
        assert (k <> k0) by (intros ->; lia).
        assert (S k0 * step <= k * step) by (apply Nat.mul_le_mono_r; lia).
        simpl in *.
        rewrite (Hhigh k) by (auto; lia). apply body_frame. lia.
    + repeat split; auto.
      intros k j Hk Hlt _. assert (k0 * step <= k * step) by (apply Nat.mul_le_mono_r; lia). lia.
Qed.

Lemma omp_for_spec t :
  let r := omp_for n step body t in
  length r = length t /\
  (forall k j, k * step < n -> k * step <= j < k * step + step ->
     vget r j = vget (body (k * step) t) j) /\
  (forall k j, n <= k * step -> k * step <= j -> vget r j = vget t j).
Proof.
  assert (Hn : n <= 0 * step + n) by (simpl; lia).
  destruct (for_loop_blocks n 0 t Hn) as (Hlen & _ & Hblk & Hhigh).
  repeat split; auto.
  - intros k j Hk Hj. apply Hblk; auto. lia.
  - intros k j Hk Hj. apply (Hhigh k); auto. lia.
Qed.

Lemma omp_for_length t : length (omp_for n step body t) = length t.
Proof. apply omp_for_spec. Qed.

(** The block of iteration [k * step] after the loop. *)
Lemma omp_for_block t k j :
  k * step < n -> k * step <= j < k * step + step ->
  vget (omp_for n step body t) j = vget (body (k * step) t) j.
Proof. apply omp_for_spec. Qed.

(** The indices past the last block are not written. *)
Lemma omp_for_beyond t k j :
  n <= k * step -> k * step <= j -> vget (omp_for n step body t) j = vget t j.
Proof. apply omp_for_spec. Qed.
(** The bodies of two iterations commute: each one writes in its own
    block and reads nothing that the other one writes. *)
Lemma bodies_commute (k1 k2 : nat) (t : list Z) :
  body (k2 * step) (body (k1 * step) t) = body (k1 * step) (body (k2 * step) t).
Proof.
  destruct (decide (k1 = k2)) as [->|Hne]; [reflexivity|].
  assert (Hapart : k1 * step + step <= k2 * step \/ k2 * step + step <= k1 * step).
  { destruct (Nat.lt_total k1 k2) as [H|[H|H]]; [left|congruence|right];
      now apply multiples_apart. }
  apply vec_ext; [now rewrite !body_length|].
  intros x _.
  destruct (decide (k1 * step <= x < k1 * step + step)) as [H1|H1];
    [|destruct (decide (k2 * step <= x < k2 * step + step)) as [H2|H2]].
  - rewrite body_frame by lia.
    apply body_local; [now rewrite body_length| |exact H1].
    intros j Hj. symmetry. apply body_frame. lia.
  - rewrite (body_frame (k1 * step)) by lia.
    apply body_local; [now rewrite body_length| |exact H2].
    intros j Hj. apply body_frame. lia.
  - rewrite !body_frame by lia. reflexivity.
Qed.

(** Whatever the order in which the iterations of the parallel loop are
    run, the result is that of the loop run in index order. *)
Lemma omp_for_any_order (order : list nat) (t : list Z) :
  Permutation order (iterations n step) ->
  run_iterations order body t = omp_for n step body t.
Proof.
  intros Hperm. rewrite omp_for_run.
  apply (run_iterations_perm (fun i => exists k, i = k * step)); auto.
  - intros i j s [k1 ->] [k2 ->]. apply bodies_commute.
  - eapply Permutation_Forall; [symmetry; exact Hperm|]. apply iterations_multiples.
Qed.

End ParallelFor.

(** ** The range of the index expressions

    For arrays of at most [2^30] elements the index expressions of the
    leveled loops, and the loop counter after its last increment, are values
    of type [int]: the natural numbers of the model are the [int]s of the
    code. *)

Lemma tree_index_range (n stride i l : Z) :
  (n <= 2 ^ 30)%Z -> (0 <= l)%Z -> (stride = 2 ^ l)%Z -> (stride < n)%Z -> (0 <= i < n)%Z ->
  (0 <= i + stride <= INT_MAX)%Z /\ (0 <= i + 2 * stride <= INT_MAX)%Z.
Proof.
  intros Hn Hl -> Hs Hi.
  assert (l < 30)%Z by (apply (Z.pow_lt_mono_r_iff 2); lia).
  pose proof (Z.pow_le_mono_r 2 l 29 ltac:(lia) ltac:(lia)) as Hle.
  pose proof (Z.pow_pos_nonneg 2 l ltac:(lia) Hl).
  unfold INT_MAX. change (2 ^ 29)%Z with 536870912%Z in Hle.
  change (2 ^ 30)%Z with 1073741824%Z in Hn. lia.
Qed.

Lemma sweep_index_range (P stride offset i : Z) :
  (P <= 2 ^ 30)%Z -> (1 <= stride <= P)%Z -> (0 <= offset < stride)%Z -> (0 <= i < P)%Z ->
  (0 <= i + offset <= INT_MAX)%Z /\ (0 <= i + stride - 1 <= INT_MAX)%Z /\
  (0 <= i + stride <= INT_MAX)%Z.
Proof.
  intros HP Hs Ho Hi. unfold INT_MAX. change (2 ^ 30)%Z with 1073741824%Z in HP. lia.
Qed.

(** ** Segment maxima and sums *)

Lemma seg_max_ge_min a lo len : (INT_MIN <= seg_max a lo len)%Z.
Proof. revert lo. induction len; intros lo; simpl; [lia|]. specialize (IHlen (S lo)). lia. Qed.

Lemma seg_max_app a l1 : forall lo l2,
  seg_max a lo (l1 + l2) = Z.max (seg_max a lo l1) (seg_max a (lo + l1) l2).
Proof.
  induction l1 as [|l1 IH]; intros lo l2; simpl.
  - rewrite Nat.add_0_r. pose proof (seg_max_ge_min a lo l2). lia.
  - rewrite IH. replace (S lo + l1) with (lo + S l1) by lia. lia.
Qed.

Lemma seg_max_snoc a lo len :
  seg_max a lo (S len) = Z.max (seg_max a lo len) (vget a (lo + len)).
Proof.
  replace (S len) with (len + 1) by lia. rewrite seg_max_app. simpl.
  pose proof (seg_max_ge_min a lo len). lia.
Qed.

Lemma seg_max_one a lo : int_range (vget a lo) -> seg_max a lo 1 = vget a lo.
Proof. unfold int_range. simpl. lia. Qed.

Lemma seg_max_upper a len : forall lo i,
  lo <= i < lo + len -> (vget a i <= seg_max a lo len)%Z.
Proof.
  induction len as [|len IH]; intros lo i Hi; simpl; [lia|].
  destruct (decide (i = lo)) as [->|Hne]; [lia|].
  specialize (IH (S lo) i). lia.
Qed.

Lemma seg_max_attained a len : forall lo,
  0 < len -> (forall i, lo <= i < lo + len -> int_range (vget a i)) ->
  exists i, lo <= i < lo + len /\ seg_max a lo len = vget a i.
Proof.
  induction len as [|len IH]; intros lo Hlen Hr; [lia|].
  destruct len as [|len].
  - exists lo. split; [lia|]. apply seg_max_one, Hr. lia.
  - destruct (IH (S lo)) as (i & Hi & Heq); [lia| intros; apply Hr; lia |].
    change (seg_max a lo (S (S len))) with (Z.max (vget a lo) (seg_max a (S lo) (S len))).
    destruct (Z.max_spec (vget a lo) (seg_max a (S lo) (S len))) as [[_ ->]|[_ ->]].
    + exists i. split; [lia|auto].
    + exists lo. split; [lia|auto].
Qed.

(** The segment maximum over the whole of a non-empty vector of [int]s is its
    maximum element. *)
Lemma seg_max_is_max (S : list Z) :
  S <> [] -> Forall int_range S -> is_max_of (seg_max S 0 (length S)) S.
Proof.
  intros Hne Hr. split.
  - destruct (seg_max_attained S (length S) 0) as (i & Hi & ->).
    + destruct S; simpl; [congruence|lia].
    + intros i Hi. apply Forall_vget; auto. lia.
    + unfold vget. apply nth_In. lia.
  - intros x Hx. destruct (In_nth S x 0%Z Hx) as (i & Hi & <-).
    apply (seg_max_upper S (length S) 0 i). lia.
Qed.

Lemma seg_sum_app a l1 : forall lo l2,
  seg_sum a lo (l1 + l2) = (seg_sum a lo l1 + seg_sum a (lo + l1) l2)%Z.
Proof.
  induction l1 as [|l1 IH]; intros lo l2; simpl.
  - now rewrite Nat.add_0_r.
  - rewrite IH. replace (S lo + l1) with (lo + S l1) by lia. lia.
Qed.

Lemma seg_sum_snoc a lo len :
  seg_sum a lo (S len) = (seg_sum a lo len + vget a (lo + len))%Z.
Proof.
  replace (S len) with (len + 1) by lia. rewrite seg_sum_app. simpl. lia.
Qed.

Lemma seg_sum_ext (a b : list Z) :
  (forall i, vget a i = vget b i) -> forall len lo, seg_sum a lo len = seg_sum b lo len.
Proof.
  intros Hab. induction len as [|len IH]; intros lo; simpl; auto.
  now rewrite Hab, IH.
Qed.

(** The [int] sum is the sum in the integers, reduced to [int]. *)
Lemma int_sum_wrap (a : list Z) (lo len : nat) :
  int_sum a lo len = wrap32 (seg_sum a lo len).
Proof.
  induction len as [|len IH]; [reflexivity|].
  simpl int_sum. now rewrite IH, add32_wrap_l, seg_sum_snoc.
Qed.

(** ** Level counts and the padded size *)

Lemma ceil_log2_least (N : Z) :
  (1 <= N)%Z ->
  (0 <= ceil_log2 N)%Z /\ (N <= 2 ^ ceil_log2 N)%Z /\
  forall k, (0 <= k)%Z -> (N <= 2 ^ k)%Z -> (ceil_log2 N <= k)%Z.
Proof.
  intros HN. unfold ceil_log2. split; [apply Z.log2_up_nonneg|]. split.
  - apply Z.log2_log2_up_spec. lia.
  - intros k _ Hk. apply Z.log2_up_le_pow2; auto. lia.
Qed.

Lemma ceil_log2_le (N k : Z) : (1 <= N <= 2 ^ k)%Z -> (ceil_log2 N <= k)%Z.
Proof. intros HN. apply Z.log2_up_le_pow2; lia. Qed.

Lemma ceil_log2_halve (n : Z) :
  (2 <= n)%Z -> ceil_log2 n = (1 + ceil_log2 ((n + 1) / 2))%Z.
Proof.
  intros Hn. unfold ceil_log2.
  assert (Hh : (1 <= (n + 1) / 2)%Z) by (apply Z.div_le_lower_bound; lia).
  assert (Hiff : forall b, (n <= 2 ^ b <-> (n + 1) / 2 <= 2 ^ (b - 1))%Z).
  { intros b. destruct (Z_lt_le_dec b 1) as [Hb|Hb].
    - assert (2 ^ b <= 1)%Z.
      { destruct (Z_lt_le_dec b 0); [rewrite Z.pow_neg_r; lia|].
        replace b with 0%Z by lia. simpl. lia. }
      assert (2 ^ (b - 1) = 0)%Z by (apply Z.pow_neg_r; lia). lia.
    - replace (2 ^ b)%Z with (2 * 2 ^ (b - 1))%Z
        by (rewrite <- Z.pow_succ_r by lia; f_equal; lia).
      pose proof (Z.pow_pos_nonneg 2 (b - 1) ltac:(lia) ltac:(lia)) as Hp.
      pose proof (Z.div_mod (n + 1) 2 ltac:(lia)) as Hdm.
      pose proof (Z.mod_pos_bound (n + 1) 2 ltac:(lia)). lia. }
  apply Z.le_antisymm.
  - apply Z.log2_up_le_pow2; [lia|]. apply Hiff.
    replace (1 + Z.log2_up ((n + 1) / 2) - 1)%Z with (Z.log2_up ((n + 1) / 2)) by lia.
    apply Z.log2_log2_up_spec. lia.
  - assert ((n + 1) / 2 <= 2 ^ (Z.log2_up n - 1))%Z as H.
    { apply Hiff. apply Z.log2_log2_up_spec. lia. }
    apply Z.log2_up_le_pow2 in H; lia.
Qed.

Lemma count_levels_spec fuel : forall n l,
  (1 <= n < INT_MAX)%Z -> (ceil_log2 n <= Z.of_nat fuel)%Z ->
  (0 <= l)%Z -> (l + ceil_log2 n <= INT_MAX)%Z ->
  count_levels fuel n l = (l + ceil_log2 n)%Z.
Proof.
  unfold INT_MAX.
  induction fuel as [|fuel IH]; intros n l Hn Hfuel Hl Hsum; simpl.
  - pose proof (Z.log2_up_nonneg n). unfold ceil_log2 in *. lia.
  - destruct (Z.gtb_spec n 1) as [Hgt|Hle].
    + rewrite (ceil_log2_halve n) in * by lia.
      assert (Hh : (1 <= (n + 1) / 2 < n)%Z).
      { split; [apply Z.div_le_lower_bound; lia | apply Z.div_lt_upper_bound; lia]. }
      pose proof (Z.log2_up_nonneg ((n + 1) / 2)) as Hnn. fold (ceil_log2 ((n + 1) / 2)) in Hnn.
      unfold add32. rewrite !wrap32_id by (unfold int_range, INT_MIN, INT_MAX; lia).
      rewrite Z.quot_div_nonneg by lia.
      rewrite IH; lia.
    + replace n with 1%Z by lia. unfold ceil_log2. rewrite Z.log2_up_1. lia.
Qed.

(** The halving loop counts [ceil(log2(n))] levels. *)
Lemma barrier_levels_spec (n : Z) :
  (1 <= n < INT_MAX)%Z -> barrier_levels n = ceil_log2 n.
Proof.
  intros Hn. unfold barrier_levels.
  assert (ceil_log2 n <= 31)%Z by (apply ceil_log2_le; unfold INT_MAX in *; simpl; lia).
  rewrite count_levels_spec; unfold INT_MAX in *; lia.
Qed.

(** Up to [2^30] elements the shift does not wrap. *)
Lemma build_padded_small (N : Z) :
  (1 <= N <= 2 ^ 30)%Z -> build_padded N = inr (2 ^ ceil_log2 N)%Z.
Proof.
  intros HN. unfold build_padded, shl32.
  destruct (ceil_log2_least N) as (H0 & _ & _); [lia|].
  pose proof (ceil_log2_le N 30 HN) as H30.
  rewrite Z.shiftl_1_l.
  assert (0 < 2 ^ ceil_log2 N <= 2 ^ 30)%Z as Hp.
  { split; [apply Z.pow_pos_nonneg; lia | apply Z.pow_le_mono_r; lia]. }
  rewrite wrap32_id by (unfold int_range, INT_MIN, INT_MAX; simpl in Hp; lia).
  destruct (Z.ltb_spec (2 ^ ceil_log2 N) 0); [lia|reflexivity].
Qed.


Lemma padded_capacity_nat (N : Z) :
  (1 <= N)%Z ->
  Z.to_nat (2 ^ ceil_log2 N) = 2 ^ Z.to_nat (ceil_log2 N) /\
  (Z.to_nat N <= 2 ^ Z.to_nat (ceil_log2 N)).
Proof.
  intros HN. destruct (ceil_log2_least N HN) as (H0 & Hup & _).
  assert (Heq : Z.to_nat (2 ^ ceil_log2 N) = 2 ^ Z.to_nat (ceil_log2 N)).
  { rewrite Znat.Z2Nat.inj_pow by lia. reflexivity. }
  split; auto. rewrite <- Heq. lia.
Qed.

(** ** The linear scans for the maximum and the reduction clause *)

Lemma max_update_max arr i m : max_update arr i m = Z.max m (vget arr i).
Proof. unfold max_update. destruct (Z.gtb_spec (vget arr i) m); lia. Qed.

Lemma sequential_max_seg arr n : sequential_max arr n = seg_max arr 0 n.
Proof.
  unfold sequential_max. induction n as [|n IH].
  - reflexivity.
  - rewrite for_up_S, IH, max_update_max, seg_max_snoc. reflexivity.
Qed.

Lemma fold_max_update_ge arr (its : list nat) : forall m,
  (m <= fold_left (fun m i => max_update arr i m) its m)%Z.
Proof.
  induction its as [|i its IH]; intros m; simpl; [lia|].
  specialize (IH (max_update arr i m)). rewrite max_update_max in *. lia.
Qed.

Lemma fold_max_update_init arr (its : list nat) : forall m,
  (INT_MIN <= m)%Z ->
  fold_left (fun m i => max_update arr i m) its m =
    Z.max m (fold_left (fun m i => max_update arr i m) its INT_MIN).
Proof.
  induction its as [|i its IH]; intros m Hm; simpl; [lia|].
  rewrite (IH (max_update arr i m)), (IH (max_update arr i INT_MIN))
    by (rewrite max_update_max; lia).
  rewrite !max_update_max. lia.
Qed.

Lemma fold_max_update_perm arr (l l' : list nat) :
  Permutation l l' -> forall m,
  fold_left (fun m i => max_update arr i m) l m =
    fold_left (fun m i => max_update arr i m) l' m.
Proof.
  induction 1 as [|x l l' _ IH|x y l|l l' l'' _ IH1 _ IH2]; intros m; simpl; auto.
  - f_equal. rewrite !max_update_max. lia.
  - now rewrite IH1.
Qed.

Lemma reduction_privates arr (sched : list (list nat)) : forall m,
  (INT_MIN <= m)%Z ->
  fold_left Z.max
    (map (fun its => fold_left (fun m i => max_update arr i m) its INT_MIN) sched) m =
  fold_left (fun m i => max_update arr i m) (concat sched) m.
Proof.
  induction sched as [|its sched IH]; intros m Hm; simpl; auto.
  rewrite fold_left_app, <- (fold_max_update_init arr its m Hm).
  apply IH. pose proof (fold_max_update_ge arr its m). lia.
Qed.

(** Whatever the schedule, the reduction clause computes the maximum of the
    sequential scan. *)
Lemma parallel_max_reduction_seg sched arr n :
  schedule_of n sched -> parallel_max_reduction sched arr n = seg_max arr 0 n.
Proof.
  intros Hs. unfold parallel_max_reduction.
  rewrite reduction_privates by lia.
  rewrite (fold_max_update_perm arr _ _ Hs).
  apply sequential_max_seg.
Qed.

(** ** The tree reduction *)

Lemma tree_body_mem (n stride i : nat) (m : mem) :
  m_arr (tree_body n stride i m) = m_arr m /\
  m_temp (tree_body n stride i m) = tree_step n stride i (m_temp m).
Proof. unfold tree_body, tree_step. destruct (i + stride <? n); auto. Qed.

Lemma tree_step_length (n s i : nat) (u : list Z) : length (tree_step n s i u) = length u.
Proof. unfold tree_step. destruct (i + s <? n); auto using vset_length. Qed.

Lemma tree_step_frame (n s i : nat) (u : list Z) (j : nat) :
  0 < s -> j < i \/ i + 2 * s <= j -> vget (tree_step n s i u) j = vget u j.
Proof.
  intros Hs Hj. unfold tree_step. destruct (i + s <? n); auto. apply vget_vset_ne. lia.
Qed.

Lemma tree_step_local (n s i : nat) (u u' : list Z) :
  0 < s -> length u = length u' ->
  (forall j, i <= j < i + 2 * s -> vget u j = vget u' j) ->
  forall j, i <= j < i + 2 * s -> vget (tree_step n s i u) j = vget (tree_step n s i u') j.
Proof.
  intros Hs Hl Hag j Hj. unfold tree_step. destruct (i + s <? n); auto.
  rewrite !vget_vset, Hl, (Hag i), (Hag (i + s)), (Hag j) by lia. reflexivity.
Qed.

Lemma tree_body_footprint (n s i : nat) (m : mem) :
  (forall j, ~ In j (tree_writes s i) -> temp_get (tree_body n s i m) j = temp_get m j) /\
  (forall m', length (m_temp m) = length (m_temp m') ->
     (forall x, In x (tree_reads s i) -> temp_get m x = temp_get m' x) ->
     forall x, In x (tree_writes s i) ->
       temp_get (tree_body n s i m) x = temp_get (tree_body n s i m') x).
Proof.
  unfold tree_body, tree_writes, tree_reads, temp_get, temp_set. split.
  - intros j Hj. destruct (i + s <? n); auto. simpl. apply vget_vset_ne.
    intros ->. apply Hj. now left.
  - intros m' Hl Hag x Hx. simpl in Hag.
    pose proof (Hag i ltac:(auto)) as H1. pose proof (Hag (i + s) ltac:(auto)) as H2.
    destruct Hx as [<-|[]]. destruct (i + s <? n); auto. simpl.
    rewrite !vget_vset, Hl, H1, H2. reflexivity.
Qed.

(** A level of the tree reduction writes [temp] only, and what it does to
    [temp] does not depend on [arr]. *)
Lemma tree_loop_mem n stride m :
  let m' := omp_for n (2 * stride) (tree_body n stride) m in
  m_arr m' = m_arr m /\
  m_temp m' = omp_for n (2 * stride) (tree_step n stride) (m_temp m).
Proof.
  unfold omp_for.
  apply (for_loop_rel (fun (s : mem) (t : list Z) => m_arr s = m_arr m /\ m_temp s = t)); auto.
  intros i s t [Harr <-]. destruct (tree_body_mem n stride i s) as [-> ->]. auto.
Qed.

(** After a level with stride [s], the element [k * 2s] is the maximum of
    itself and its partner [k * 2s + s], when it has one. *)
Lemma tree_level_vec n s (t : list Z) :
  0 < s -> n <= length t ->
  let r := omp_for n (2 * s) (tree_step n s) t in
  length r = length t /\
  forall k, k * (2 * s) < n ->
    vget r (k * (2 * s)) =
      if k * (2 * s) + s <? n
      then Z.max (vget t (k * (2 * s))) (vget t (k * (2 * s) + s))
      else vget t (k * (2 * s)).
Proof.
  intros Hs Hn.
  destruct (omp_for_spec n (2 * s) (tree_step n s) ltac:(lia) (tree_step_length n s)
              (fun i u j => tree_step_frame n s i u j Hs)
              (fun i u u' => tree_step_local n s i u u' Hs) t) as (Hl & Hblk & _).
  cbv zeta. split; [exact Hl|].
  intros k Hk. rewrite (Hblk k) by lia.
  unfold tree_step. destruct (k * (2 * s) + s <? n); auto.
  apply vget_vset_eq. lia.
Qed.

(** A level of the tree reduction computes the same whatever the order in
    which its iterations are run. *)
Lemma tree_level_any_order (n s : nat) (order : list nat) (m : mem) :
  0 < s -> Permutation order (iterations n (2 * s)) ->
  run_iterations order (tree_body n s) m = tree_level n s m.
Proof.
  intros Hs Hperm. unfold tree_level. rewrite omp_for_run.
  assert (Hrel : forall i (m' : mem) (t : list Z),
            m_arr m' = m_arr m /\ m_temp m' = t ->
            m_arr (tree_body n s i m') = m_arr m /\
            m_temp (tree_body n s i m') = tree_step n s i t).
  { intros i m' t [Ha <-]. destruct (tree_body_mem n s i m') as [-> ->]. auto. }
  destruct (run_iterations_rel _ _ _ Hrel order m (m_temp m) (conj eq_refl eq_refl)) as [Ha1 Ht1].
  destruct (run_iterations_rel _ _ _ Hrel (iterations n (2 * s)) m (m_temp m)
              (conj eq_refl eq_refl)) as [Ha2 Ht2].
  apply mem_eq; [congruence|].
  rewrite Ht1, Ht2, <- omp_for_run. apply omp_for_any_order; auto.
  - lia.
  - intros. apply tree_step_length.
  - intros. now apply tree_step_frame.
  - intros i t t'. now apply tree_step_local.
Qed.

Section TreeReduction.
Variable arr : list Z.
Hypothesis arr_range : Forall int_range arr.

Lemma tree_inv_init : tree_inv arr 1 arr.
Proof.
  split; auto. intros k Hk. rewrite Nat.mul_1_r in *.
  replace (Nat.min 1 (length arr - k)) with 1 by lia.
  symmetry. apply seg_max_one. apply Forall_vget; auto.
Qed.

Lemma tree_inv_step s m :
  0 < s -> tree_inv arr s (m_temp m) ->
  tree_inv arr (2 * s) (m_temp (omp_for (length arr) (2 * s) (tree_body (length arr) s) m)).
Proof.
  intros Hs [Hlen Hinv].
  destruct (tree_loop_mem (length arr) s m) as [_ ->].
  destruct (tree_level_vec (length arr) s (m_temp m) Hs ltac:(lia)) as [Hl Hv].
  split; [lia|].
  intros k Hk. rewrite (Hv k Hk).
  replace (k * (2 * s)) with (2 * k * s) in * by lia.
  destruct (Nat.ltb_spec (2 * k * s + s) (length arr)) as [Hlt|Hge].
  - replace (2 * k * s + s) with ((2 * k + 1) * s) in * by lia.
    rewrite !Hinv by lia.
    replace (Nat.min (2 * s) (length arr - 2 * k * s))
      with (Nat.min s (length arr - 2 * k * s) + Nat.min s (length arr - (2 * k + 1) * s)) by lia.
    rewrite seg_max_app. do 2 f_equal. lia.
  - rewrite Hinv by lia. f_equal. lia.
Qed.

Lemma tree_inv_done s t :
  0 < length arr -> length arr <= s -> tree_inv arr s t -> vget t 0 = seg_max arr 0 (length arr).
Proof.
  intros Hn Hs [_ Hinv]. specialize (Hinv 0). simpl in Hinv.
  rewrite Hinv by lia. f_equal. lia.
Qed.

Lemma tree_while_spec fuel : forall s m,
  0 < length arr -> 0 < s -> length arr <= s + fuel -> tree_inv arr s (m_temp m) ->
  let m' := tree_while fuel s (length arr) m in
  temp_get m' 0 = seg_max arr 0 (length arr) /\ m_arr m' = m_arr m.
Proof.
  induction fuel as [|fuel IH]; intros s m Hn Hs Hfuel Hinv; simpl.
  - split; auto. apply (tree_inv_done s); auto. lia.
  - destruct (Nat.ltb_spec s (length arr)) as [Hlt|Hge].
    + destruct (IH (s * 2) (tree_level (length arr) s m)) as [H1 H2]; auto; try lia.
      * replace (s * 2) with (2 * s) by lia. now apply tree_inv_step.
      * split; auto. rewrite H2. apply tree_loop_mem.
    + split; auto. now apply (tree_inv_done s).
Qed.
End TreeReduction.

Lemma parallel_max_tree_reduction_seg (arr : list Z) :
  arr <> [] -> Forall int_range arr ->
  fst (parallel_max_tree_reduction arr (length arr)) = seg_max arr 0 (length arr).
Proof.
  intros Hne Hr. unfold parallel_max_tree_reduction. simpl.
  assert (Hn : 0 < length arr) by (destruct arr; simpl; [congruence|lia]).
  apply (tree_while_spec arr (length arr) 1 (copy_arr arr)); auto; try lia.
  simpl. now apply tree_inv_init.
Qed.

Lemma tree_while_arr fuel : forall s n m, m_arr (tree_while fuel s n m) = m_arr m.
Proof.
  induction fuel as [|fuel IH]; intros s n m; simpl; auto.
  destruct (s <? n); auto. rewrite IH. apply tree_loop_mem.
Qed.

(** ** The reduction with explicit barriers *)

Lemma barrier_loop_spec (arr : list Z) (l : nat) :
  Forall int_range arr ->
  let st := for_up l (barrier_level (length arr)) (copy_arr arr, []) in
  tree_inv arr (2 ^ l) (m_temp (fst st)) /\ length (snd st) = l.
Proof.
  intros Hr. induction l as [|l [IH1 IH2]].
  - split; auto. apply tree_inv_init; auto.
  - simpl. rewrite for_up_S. unfold barrier_level at 1. simpl fst. simpl snd.
    rewrite Nat.shiftl_1_l. split.
    + rewrite (Nat.mul_comm (2 ^ l) 2).
      replace (2 ^ l + (2 ^ l + 0)) with (2 * 2 ^ l) by lia.
      apply tree_inv_step; auto.
      pose proof (Nat.pow_nonzero 2 l). lia.
    + rewrite length_app. simpl. lia.
Qed.

Lemma barrier_loop_arr n l (st : mem * list level_line) :
  m_arr (fst (for_up l (barrier_level n) st)) = m_arr (fst st).
Proof.
  induction l as [|l IH]; auto.
  rewrite for_up_S. unfold barrier_level at 1. simpl fst.
  rewrite <- IH. rewrite (Nat.mul_comm _ 2). apply tree_loop_mem.
Qed.

Lemma parallel_max_explicit_barriers_seg (arr : list Z) :
  (1 <= Z.of_nat (length arr) <= 2 ^ 30)%Z -> Forall int_range arr ->
  br_max (parallel_max_explicit_barriers arr (length arr)) = seg_max arr 0 (length arr).
Proof.
  intros HN Hr. unfold parallel_max_explicit_barriers. simpl.
  rewrite barrier_levels_spec by (unfold INT_MAX; simpl in HN; lia).
  destruct (padded_capacity_nat (Z.of_nat (length arr))) as (_ & Hcap); [lia|].
  rewrite Nat2Z.id in Hcap.
  set (L := Z.to_nat (ceil_log2 (Z.of_nat (length arr)))) in *.
  destruct (barrier_loop_spec arr L Hr) as [Hinv _].
  apply (tree_inv_done arr (2 ^ L)); auto. lia.
Qed.

(** ** The chunked reduction *)

Lemma chunks_cover (w n : nat) : 0 < w -> n <= w * ((n + w - 1) / w).
Proof.
  intros Hw. pose proof (Nat.div_mod_eq (n + w - 1) w) as Hdm.
  pose proof (Nat.mod_upper_bound (n + w - 1) w ltac:(lia)). lia.
Qed.

Lemma chunk_bounds (w n tid : nat) :
  chunk_start w n tid = tid * ((n + w - 1) / w) /\
  chunk_end w n tid = Nat.min (tid * ((n + w - 1) / w) + (n + w - 1) / w) n.
Proof. split; reflexivity. Qed.

(** Every index of the array is in the chunk of one thread. *)
Lemma chunk_of_index (w n i : nat) :
  0 < w -> i < n ->
  exists tid, tid < w /\ chunk_start w n tid <= i < chunk_end w n tid.
Proof.
  intros Hw Hi. unfold chunk_end, chunk_start.
  set (c := (n + w - 1) / w).
  assert (Hc : 0 < c).
  { unfold c. apply Nat.div_str_pos. lia. }
  pose proof (chunks_cover w n Hw) as Hcov. fold c in Hcov.
  exists (i / c).
  pose proof (Nat.div_mod_eq i c) as Hdm.
  pose proof (Nat.mod_upper_bound i c ltac:(lia)) as Hm.
  split; [|lia].
  destruct (Nat.lt_ge_cases (i / c) w) as [|Hge]; auto.
  pose proof (Nat.mul_le_mono_r w (i / c) c Hge). lia.
Qed.

Lemma sections_range arr tid d : forall lo (pm : list Z),
  tid < length pm -> vget pm tid = INT_MIN ->
  let r := for_range lo (lo + d)
    (fun i pm => if (vget arr i >? vget pm tid)%Z then vset pm tid (vget arr i) else pm) pm in
  length r = length pm /\
  vget r tid = seg_max arr lo d /\
  forall j, j <> tid -> vget r j = vget pm j.
Proof.
  induction d as [|d IH]; intros lo pm Htid Hinit.
  - simpl. rewrite for_range_empty by lia. auto.
  - destruct (IH lo pm Htid Hinit) as (Hl & Hv & Ho).
    replace (lo + S d) with (S (lo + d)) by lia.
    cbv zeta in *. rewrite for_range_S by lia.
    match goal with
    | |- context [for_range lo (lo + d) ?b pm] => set (r0 := for_range lo (lo + d) b pm) in *
    end.
    rewrite seg_max_snoc, <- Hv.
    destruct (Z.gtb_spec (vget arr (lo + d)) (vget r0 tid)).
    + rewrite vset_length, vget_vset_eq by lia.
      repeat split; auto; [lia|]. intros j Hj. rewrite vget_vset_ne; auto.
    + repeat split; auto. lia.
Qed.

Lemma sections_thread_spec w arr n tid (pm : list Z) :
  tid < length pm -> vget pm tid = INT_MIN ->
  let r := sections_thread w arr n tid pm in
  length r = length pm /\
  vget r tid = seg_max arr (chunk_start w n tid) (chunk_end w n tid - chunk_start w n tid) /\
  forall j, j <> tid -> vget r j = vget pm j.
Proof.
  intros Htid Hinit. unfold sections_thread.
  destruct (Nat.le_gt_cases (chunk_end w n tid) (chunk_start w n tid)) as [Hle|Hgt].
  - rewrite for_range_empty by lia.
    replace (chunk_end w n tid - chunk_start w n tid) with 0 by lia. auto.
  - pose proof (sections_range arr tid (chunk_end w n tid - chunk_start w n tid)
                  (chunk_start w n tid) pm Htid Hinit) as H.
    replace (chunk_start w n tid + (chunk_end w n tid - chunk_start w n tid))
      with (chunk_end w n tid) in H by lia.
    exact H.
Qed.

Lemma sections_threads_spec w arr n k :
  k <= w ->
  let pm := for_up k (sections_thread w arr n) (replicate w INT_MIN) in
  length pm = w /\
  (forall tid, tid < k ->
     vget pm tid = seg_max arr (chunk_start w n tid) (chunk_end w n tid - chunk_start w n tid)) /\
  (forall tid, k <= tid < w -> vget pm tid = INT_MIN).
Proof.
  induction k as [|k IH]; intros Hk.
  - cbv zeta. unfold for_up. simpl. rewrite length_replicate. repeat split; [lia|].
    intros tid Ht. apply vget_replicate. lia.
  - destruct (IH ltac:(lia)) as (Hl & Hdone & Htodo).
    cbv zeta in *. rewrite for_up_S.
    destruct (sections_thread_spec w arr n k (for_up k (sections_thread w arr n) (replicate w INT_MIN)))
      as (Hl' & Hv & Ho); [lia | apply Htodo; lia |].
    repeat split; [lia| |].
    + intros tid Ht. destruct (decide (tid = k)) as [->|Hne]; auto.
      rewrite Ho by auto. apply Hdone. lia.
    + intros tid Ht. rewrite Ho by lia. apply Htodo. lia.
Qed.

(** The chunked reduction returns the maximum of the chunks of the threads
    of its team: the partial maxima of the other chunks keep the least
    [int]. *)
Lemma parallel_max_sections_team w team arr n :
  team <= w ->
  parallel_max_sections w team arr n =
    seg_max arr 0 (Nat.min (team * ((n + w - 1) / w)) n).
Proof.
  intros Ht. unfold parallel_max_sections.
  destruct (sections_threads_spec w arr n team Ht) as (_ & Hpm & Hrest).
  set (pm := for_up team (sections_thread w arr n) (replicate w INT_MIN)) in *.
  assert (H : forall k, k <= w ->
            for_up k (fun i max_val => Z.max max_val (vget pm i)) INT_MIN =
            seg_max arr 0 (Nat.min (Nat.min k team * ((n + w - 1) / w)) n)).
  { induction k as [|k IH]; intros Hk; [reflexivity|].
    rewrite for_up_S, IH by lia.
    destruct (Nat.lt_ge_cases k team) as [Hlt|Hge].
    - rewrite Hpm by lia.
      replace (Nat.min k team) with k by lia.
      replace (Nat.min (S k) team) with (S k) by lia.
      unfold chunk_end, chunk_start.
      set (c := (n + w - 1) / w).
      replace (S k * c) with (k * c + c) by (simpl; lia).
      destruct (Nat.le_gt_cases (k * c) n) as [Hle|Hgt].
      + replace (Nat.min (k * c + c) n) with (k * c + (Nat.min (k * c + c) n - k * c))
          at 2 by lia.
        rewrite seg_max_app. repeat f_equal; lia.
      + replace (Nat.min (k * c + c) n - k * c) with 0 by lia. simpl.
        replace (Nat.min (k * c + c) n) with n by lia.
        replace (Nat.min (k * c) n) with n by lia.
        pose proof (seg_max_ge_min arr 0 n). lia.
    - rewrite Hrest by lia.
      replace (Nat.min k team) with team by lia.
      replace (Nat.min (S k) team) with team by lia.
      pose proof (seg_max_ge_min arr 0 (Nat.min (team * ((n + w - 1) / w)) n)). lia. }
  rewrite H by lia. replace (Nat.min w team) with team by lia. reflexivity.
Qed.

(** With a team of [num_threads] threads the chunked reduction computes the
    maximum of the sequential scan. *)
Lemma parallel_max_sections_seg w arr n :
  0 < w -> parallel_max_sections w w arr n = seg_max arr 0 n.
Proof.
  intros Hw. rewrite parallel_max_sections_team by lia. f_equal.
  pose proof (chunks_cover w n Hw). lia.
Qed.

(** ** The sequential prefix sum *)

Lemma sequential_loop_spec (arr : list Z) (r0 : list Z) k :
  length r0 = length arr -> 1 <= k <= length arr ->
  let r := for_range 1 k
    (fun i result => vset result i (add32 (vget result (i - 1)) (vget arr i))) r0 in
  length r = length arr /\
  vget r 0 = vget r0 0 /\
  (forall i, 1 <= i < k -> vget r i = add32 (vget r (i - 1)) (vget arr i)) /\
  (forall i, k <= i -> vget r i = vget r0 i).
Proof.
  intros Hlen. induction k as [|k IH]; intros Hk; [lia|].
  destruct (decide (k = 0)) as [->|Hk0].
  - cbv zeta. rewrite for_range_empty by lia. repeat split; auto. intros; lia.
  - destruct (IH ltac:(lia)) as (Hl & H0 & Hstep & Hrest). cbv zeta in *.
    rewrite for_range_S by lia.
    match goal with
    | |- context [for_range 1 k ?b r0] => set (r := for_range 1 k b r0) in *
    end.
    rewrite vset_length. repeat split; auto.
    + rewrite vget_vset_ne by lia. auto.
    + intros i Hi. destruct (decide (i = k)) as [->|Hne].
      * rewrite vget_vset_eq by lia. rewrite vget_vset_ne by lia. reflexivity.
      * rewrite !vget_vset_ne by lia. apply Hstep. lia.
    + intros i Hi. rewrite vget_vset_ne by lia. apply Hrest. lia.
Qed.

(** [sequential_prefix_sum] returns the inclusive prefix sum of its
    argument, in [int] arithmetic. *)
Lemma sequential_prefix_sum_scan (S : list Z) :
  S <> [] -> is_inclusive_scan (sequential_prefix_sum S) S.
Proof.
  intros Hne. unfold sequential_prefix_sum.
  assert (Hn : 0 < length S) by (destruct S; simpl; [congruence|lia]).
  destruct (Nat.eqb_spec (length S) 0) as [|_]; [lia|].
  destruct (sequential_loop_spec S (vset (replicate (length S) 0%Z) 0 (vget S 0)) (length S))
    as (Hl & H0 & Hstep & _).
  - now rewrite vset_length, length_replicate.
  - lia.
  - repeat split; auto.
    rewrite H0. apply vget_vset_eq. now rewrite length_replicate.
Qed.

(** The inclusive prefix sum is unique: its elements are the sums of the
    prefixes, reduced to [int]. *)
Lemma inclusive_scan_elements (R xs : list Z) :
  Forall int_range xs -> is_inclusive_scan R xs ->
  forall i, i < length xs -> vget R i = wrap32 (seg_sum xs 0 (i + 1)).
Proof.
  intros Hr (Hl & H0 & Hstep) i. induction i as [|i IH]; intros Hi.
  - rewrite H0. simpl. rewrite Z.add_0_r. symmetry. apply wrap32_id.
    apply Forall_vget; auto.
  - rewrite Hstep by lia. replace (S i - 1) with i by lia.
    rewrite IH by lia. rewrite add32_wrap_l.
    replace (S i + 1) with (S (i + 1)) by lia.
    rewrite seg_sum_snoc. do 2 f_equal. simpl. f_equal. lia.
Qed.

Lemma sequential_prefix_sum_elements (xs : list Z) i :
  Forall int_range xs -> i < length xs ->
  vget (sequential_prefix_sum xs) i = wrap32 (seg_sum xs 0 (i + 1)).
Proof.
  intros Hr Hi. apply inclusive_scan_elements; auto.
  apply sequential_prefix_sum_scan. destruct xs; simpl in *; [lia|congruence].
Qed.

Lemma sequential_prefix_sum_length (S : list Z) :
  length (sequential_prefix_sum S) = length S.
Proof.
  destruct S as [|x S]; [reflexivity|].
  apply (sequential_prefix_sum_scan (x :: S)). congruence.
Qed.

(** ** The block scan *)

(** The loop of phase 1 over the elements after the first one of the block. *)
Lemma block_scan_range (arr : list Z) (start d : nat) : forall (result : list Z) (ls : Z),
  start + 1 + d <= length result ->
  wrap32 ls = wrap32 (seg_sum arr start 1) ->
  wrap32 (vget result start) = wrap32 (seg_sum arr start 1) ->
  let st := for_range (start + 1) (start + 1 + d)
    (fun i '(result, local_sum) =>
       let local_sum := add32 local_sum (vget arr i) in
       (vset result i local_sum, local_sum))
    (result, ls) in
  length (fst st) = length result /\
  wrap32 (snd st) = wrap32 (seg_sum arr start (1 + d)) /\
  (forall i, start <= i < start + 1 + d ->
     wrap32 (vget (fst st) i) = wrap32 (seg_sum arr start (i + 1 - start))) /\
  (forall i, i < start \/ start + 1 + d <= i -> vget (fst st) i = vget result i).
Proof.
  induction d as [|d IH]; intros result ls Hlen Hls Hres; cbv zeta.
  - rewrite for_range_empty by lia. simpl fst. simpl snd. repeat split; auto.
    intros i Hi. replace i with start by lia.
    replace (start + 1 - start) with 1 by lia. exact Hres.
  - replace (start + 1 + S d) with (S (start + 1 + d)) by lia.
    rewrite for_range_S by lia.
    destruct (IH result ls ltac:(lia) Hls Hres) as (Hl & Hsum & Hin & Hout).
    destruct (for_range (start + 1) (start + 1 + d) _ (result, ls)) as [r l].
    simpl in *.
    assert (Hnew : wrap32 (add32 l (vget arr (start + 1 + d))) =
                   wrap32 (seg_sum arr start (S (S d)))).
    { unfold add32. rewrite wrap32_idem.
      rewrite (seg_sum_snoc arr start (S d)).
      apply wrap32_add_cong; auto. do 2 f_equal. lia. }
    rewrite vset_length. repeat split; auto.
    + intros i Hi. destruct (decide (i = start + 1 + d)) as [->|Hne].
      * rewrite vget_vset_eq by lia. rewrite Hnew. do 2 f_equal. lia.
      * rewrite vget_vset_ne by lia. apply Hin. lia.
    + intros i Hi. rewrite vget_vset_ne by lia. apply Hout. lia.
Qed.

(** Phase 1, one thread: the block holds its own prefix sums and
    [block_sums[tid]] the sum of the block. *)
Lemma block_scan_thread_spec (w : nat) (arr : list Z) (tid : nat) (st : list Z * list Z) :
  length (fst st) = length arr -> tid < length (snd st) -> vget (snd st) tid = 0%Z ->
  let n := length arr in
  let st' := block_scan_thread w arr tid st in
  length (fst st') = length arr /\ length (snd st') = length (snd st) /\
  (forall i, chunk_start w n tid <= i < chunk_end w n tid ->
     wrap32 (vget (fst st') i) =
       wrap32 (seg_sum arr (chunk_start w n tid) (i + 1 - chunk_start w n tid))) /\
  (forall i, i < chunk_start w n tid \/ chunk_end w n tid <= i ->
     vget (fst st') i = vget (fst st) i) /\
  wrap32 (vget (snd st') tid) =
    wrap32 (seg_sum arr (chunk_start w n tid) (chunk_end w n tid - chunk_start w n tid)) /\
  (forall j, j <> tid -> vget (snd st') j = vget (snd st) j).
Proof.
  intros Hlen Htid Hzero n st'. subst st'. unfold block_scan_thread. fold n.
  assert (Hend : chunk_end w n tid <= n) by (unfold chunk_end; lia).
  set (start := chunk_start w n tid) in *. set (end_ := chunk_end w n tid) in *.
  destruct (Nat.ltb_spec start end_) as [Hlt|Hge].
  - pose proof (block_scan_range arr start (end_ - (start + 1))
                  (vset (fst st) start (vget arr start)) (vget arr start)) as H.
    replace (start + 1 + (end_ - (start + 1))) with end_ in H by lia.
    rewrite vset_length in H.
    destruct H as (Hl & Hsum & Hin & Hout).
    + lia.
    + simpl. now rewrite Z.add_0_r.
    + rewrite vget_vset_eq by lia. simpl. now rewrite Z.add_0_r.
    + destruct (for_range (start + 1) end_ _ _) as [r l]. cbn [fst snd] in *.
      rewrite vset_length. repeat split; auto; try lia.
      * intros i Hi. rewrite Hout by lia. apply vget_vset_ne. lia.
      * rewrite vget_vset_eq by lia. rewrite Hsum. do 2 f_equal. lia.
      * intros j Hj. apply vget_vset_ne. lia.
  - repeat split; auto; try (intros; lia).
    rewrite Hzero. replace (end_ - start) with 0 by lia. reflexivity.
Qed.

(** Phase 1, the first [k] threads. *)
Lemma block_scan_threads_spec (w : nat) (arr : list Z) (k : nat) :
  k <= w ->
  let n := length arr in
  let st := for_up k (block_scan_thread w arr) (replicate n 0%Z, replicate w 0%Z) in
  length (fst st) = n /\ length (snd st) = w /\
  (forall tid i, tid < k -> chunk_start w n tid <= i < chunk_end w n tid ->
     wrap32 (vget (fst st) i) =
       wrap32 (seg_sum arr (chunk_start w n tid) (i + 1 - chunk_start w n tid))) /\
  (forall tid, tid < k ->
     wrap32 (vget (snd st) tid) =
       wrap32 (seg_sum arr (chunk_start w n tid) (chunk_end w n tid - chunk_start w n tid))) /\
  (forall tid, k <= tid < w -> vget (snd st) tid = 0%Z) /\
  (forall i, k * ((n + w - 1) / w) <= i < n -> vget (fst st) i = 0%Z).
Proof.
  intros Hk n. induction k as [|k IH]; cbv zeta.
  - unfold for_up. simpl. rewrite !length_replicate.
    repeat split; auto; try (intros; lia).
    + intros tid Ht. apply vget_replicate. lia.
    + intros i Hi. apply vget_replicate. lia.
  - destruct (IH ltac:(lia)) as (Hl1 & Hl2 & Hres & Hsums & Hzero & Hrest). clear IH.
    rewrite for_up_S.
    set (st := for_up k (block_scan_thread w arr) (replicate n 0%Z, replicate w 0%Z)) in *.
    destruct (block_scan_thread_spec w arr k st) as (Hl1' & Hl2' & Hin & Hout & Hsum & Hoth);
      [auto | lia | apply Hzero; lia |].
    fold n in Hin, Hout, Hsum.
    repeat split; auto; try lia.
    + intros tid i Ht Hi. destruct (decide (tid = k)) as [->|Hne]; [now apply Hin|].
      rewrite Hout; [apply Hres; auto; lia|].
      left. destruct (chunk_bounds w n tid) as [Hs He].
      destruct (chunk_bounds w n k) as [Hs' _].
      pose proof (multiples_apart ((n + w - 1) / w) tid k ltac:(lia)). lia.
    + intros tid Ht. destruct (decide (tid = k)) as [->|Hne]; [exact Hsum|].
      rewrite Hoth by auto. apply Hsums. lia.
    + intros tid Ht. rewrite Hoth by lia. apply Hzero. lia.
    + intros i Hi. destruct (chunk_bounds w n k) as [Hs' _].
      rewrite Hout by (simpl in Hi; unfold chunk_end; lia).
      apply Hrest. simpl in Hi. lia.
Qed.

(** The sum of the chunks before chunk [k + 1]. *)
Lemma chunk_sum_step (arr : list Z) (n c k : nat) :
  (seg_sum arr 0 (Nat.min (k * c) n) + seg_sum arr (k * c) (Nat.min (k * c + c) n - k * c))%Z =
  seg_sum arr 0 (Nat.min (S k * c) n).
Proof.
  replace (S k * c) with (k * c + c) by (simpl; lia).
  destruct (Nat.le_gt_cases (k * c) n) as [Hle|Hgt].
  - replace (Nat.min (k * c + c) n) with (k * c + (Nat.min (k * c + c) n - k * c)) at 2 by lia.
    rewrite seg_sum_app. repeat f_equal; lia.
  - replace (Nat.min (k * c + c) n - k * c) with 0 by lia. simpl.
    replace (Nat.min (k * c + c) n) with n by lia.
    replace (Nat.min (k * c) n) with n by lia. lia.
Qed.

(** Phase 2: when the sums of the first [t] blocks are in [block_sums],
    [block_prefix[j]] is the sum of the elements before block [j], for
    [j <= t]. *)
Lemma block_prefix_sums_spec (w t : nat) (arr block_sums : list Z) :
  0 < w ->
  let n := length arr in
  (forall tid, tid < t ->
     wrap32 (vget block_sums tid) =
       wrap32 (seg_sum arr (chunk_start w n tid) (chunk_end w n tid - chunk_start w n tid))) ->
  let bp := block_prefix_sums w block_sums in
  length bp = w /\
  forall j, j < w -> j <= t ->
    wrap32 (vget bp j) = wrap32 (seg_sum arr 0 (Nat.min (j * ((n + w - 1) / w)) n)).
Proof.
  intros Hw n Hbs. unfold block_prefix_sums.
  set (bp0 := vset (replicate w 0%Z) 0 0%Z).
  assert (Hbp0 : length bp0 = w) by (unfold bp0; now rewrite vset_length, length_replicate).
  assert (H : forall k, 1 <= k <= w ->
    let bp := for_range 1 k
      (fun i bp => vset bp i (add32 (vget bp (i - 1)) (vget block_sums (i - 1)))) bp0 in
    length bp = w /\
    forall j, j < k -> j <= t ->
      wrap32 (vget bp j) = wrap32 (seg_sum arr 0 (Nat.min (j * ((n + w - 1) / w)) n))).
  { induction k as [|k IH]; intros Hk; [lia|]. cbv zeta.
    destruct (decide (k = 0)) as [->|Hk0].
    - rewrite for_range_empty by lia. split; auto.
      intros j Hj _. replace j with 0 by lia. unfold bp0.
      rewrite vget_vset_eq by (rewrite length_replicate; lia). reflexivity.
    - destruct (IH ltac:(lia)) as (Hl & Hv). cbv zeta in *.
      rewrite for_range_S by lia.
      match goal with
      | |- context [for_range 1 k ?b bp0] => set (bp := for_range 1 k b bp0) in *
      end.
      rewrite vset_length. split; auto.
      intros j Hj Hjt. destruct (decide (j = k)) as [->|Hne].
      + rewrite vget_vset_eq by lia. unfold add32. rewrite wrap32_idem.
        rewrite (wrap32_add_cong _ _ _ _ (Hv (k - 1) ltac:(lia) ltac:(lia))
                   (Hbs (k - 1) ltac:(lia))).
        destruct (chunk_bounds w n (k - 1)) as [-> ->].
        rewrite chunk_sum_step. replace (S (k - 1)) with k by lia. reflexivity.
      + rewrite vget_vset_ne by lia. apply Hv; lia. }
  apply (H w). lia.
Qed.

(** Phase 3, the loop of one thread: it adds [x] to the elements of its
    block. *)
Lemma block_add_range (x : Z) (lo d : nat) : forall (result : list Z),
  lo + d <= length result ->
  let r := for_range lo (lo + d) (fun i result => vset result i (add32 (vget result i) x)) result in
  length r = length result /\
  (forall i, lo <= i < lo + d -> vget r i = add32 (vget result i) x) /\
  (forall i, i < lo \/ lo + d <= i -> vget r i = vget result i).
Proof.
  induction d as [|d IH]; intros result Hlen; cbv zeta.
  - rewrite for_range_empty by lia. repeat split; auto. intros; lia.
  - replace (lo + S d) with (S (lo + d)) by lia. rewrite for_range_S by lia.
    destruct (IH result ltac:(lia)) as (Hl & Hin & Hout).
    match goal with
    | |- context [for_range lo (lo + d) ?b result] => set (r := for_range lo (lo + d) b result) in *
    end.
    rewrite vset_length. repeat split; auto.
    + intros i Hi. destruct (decide (i = lo + d)) as [->|Hne].
      * rewrite vget_vset_eq by lia. rewrite Hout by lia. reflexivity.
      * rewrite vget_vset_ne by lia. apply Hin. lia.
    + intros i Hi. rewrite vget_vset_ne by lia. apply Hout. lia.
Qed.

Lemma block_add_thread_spec (w n : nat) (bp : list Z) (tid : nat) (result : list Z) :
  length result = n ->
  let r := block_add_thread w n bp tid result in
  length r = n /\
  (forall i, chunk_start w n tid <= i < chunk_end w n tid ->
     vget r i = add32 (vget result i) (vget bp tid)) /\
  (forall i, i < chunk_start w n tid \/ chunk_end w n tid <= i -> vget r i = vget result i).
Proof.
  intros Hlen. unfold block_add_thread.
  assert (Hend : chunk_end w n tid <= n) by (unfold chunk_end; lia).
  destruct (Nat.le_gt_cases (chunk_end w n tid) (chunk_start w n tid)) as [Hle|Hgt].
  - cbv zeta. rewrite for_range_empty by lia. repeat split; auto. intros; lia.
  - pose proof (block_add_range (vget bp tid) (chunk_start w n tid)
                  (chunk_end w n tid - chunk_start w n tid) result) as H.
    replace (chunk_start w n tid + (chunk_end w n tid - chunk_start w n tid))
      with (chunk_end w n tid) in H by lia.
    rewrite Hlen in H. apply H. lia.
Qed.

(** Phase 3, the first [k] threads. *)
Lemma block_add_threads_spec (w n : nat) (bp result : list Z) (k : nat) :
  length result = n ->
  let r := for_up k (block_add_thread w n bp) result in
  length r = n /\
  (forall tid i, tid < k -> chunk_start w n tid <= i < chunk_end w n tid ->
     vget r i = add32 (vget result i) (vget bp tid)) /\
  (forall i, k * ((n + w - 1) / w) <= i -> vget r i = vget result i).
Proof.
  intros Hlen. induction k as [|k IH]; cbv zeta.
  - unfold for_up. simpl. repeat split; auto. intros; lia.
  - destruct IH as (Hl & Hdone & Htodo). cbv zeta in *. rewrite for_up_S.
    set (r := for_up k (block_add_thread w n bp) result) in *.
    destruct (block_add_thread_spec w n bp k r Hl) as (Hl' & Hin & Hout).
    destruct (chunk_bounds w n k) as [Hs He].
    repeat split; auto.
    + intros tid i Ht Hi. destruct (decide (tid = k)) as [->|Hne].
      * rewrite Hin by auto. f_equal. apply Htodo. lia.
      * rewrite Hout; [apply Hdone; auto; lia|].
        left. destruct (chunk_bounds w n tid) as [Hs' He'].
        pose proof (multiples_apart ((n + w - 1) / w) tid k ltac:(lia)). lia.
    + intros i Hi. simpl in Hi. rewrite Hout by lia. apply Htodo. lia.
Qed.

(** The block scan computes the sums of the prefixes, reduced to [int], in
    the chunks of the threads that are in both of its teams. *)
Lemma parallel_prefix_sum_recursive_team (w team1 team3 : nat) (arr : list Z) :
  0 < w -> team1 <= w -> team3 <= w ->
  length (parallel_prefix_sum_recursive w team1 team3 arr) = length arr /\
  forall i, i < length arr ->
    i < Nat.min team1 team3 * ((length arr + w - 1) / w) ->
    vget (parallel_prefix_sum_recursive w team1 team3 arr) i = wrap32 (seg_sum arr 0 (i + 1)).
Proof.
  intros Hw Ht1 Ht3. unfold parallel_prefix_sum_recursive.
  destruct (Nat.eqb_spec (length arr) 0) as [H0|Hn].
  - rewrite length_replicate. split; auto. intros; lia.
  - set (n := length arr) in *.
    destruct (block_scan_threads_spec w arr team1 Ht1) as (Hl1 & Hl2 & Hres & Hsums & _).
    fold n in Hl1, Hl2, Hres, Hsums.
    destruct (for_up team1 (block_scan_thread w arr) (replicate n 0%Z, replicate w 0%Z))
      as [result block_sums].
    cbn [fst snd] in *.
    destruct (block_prefix_sums_spec w team1 arr block_sums Hw Hsums) as (Hlbp & Hbp).
    fold n in Hbp.
    destruct (block_add_threads_spec w n (block_prefix_sums w block_sums) result team3 Hl1)
      as (Hl & Hadd & _).
    split; auto.
    intros i Hi Hteam. destruct (chunk_of_index w n i Hw Hi) as (tid & Htid & Hch).
    destruct (chunk_bounds w n tid) as [Hs He].
    assert (Hin : tid < Nat.min team1 team3).
    { destruct (Nat.lt_ge_cases tid (Nat.min team1 team3)) as [|Hge]; auto.
      pose proof (Nat.mul_le_mono_r _ _ ((n + w - 1) / w) Hge). lia. }
    rewrite (Hadd tid i ltac:(lia) Hch). unfold add32.
    rewrite (wrap32_add_cong _ _ _ _ (Hres tid i ltac:(lia) Hch)
               (Hbp tid Htid ltac:(lia))).
    rewrite Hs in *.
    replace (Nat.min (tid * ((n + w - 1) / w)) n) with (tid * ((n + w - 1) / w)) by lia.
    rewrite Z.add_comm, <- seg_sum_app. do 2 f_equal. lia.
Qed.

(** With teams of [num_threads] threads the block scan computes the sums of
    all the prefixes. *)
Lemma parallel_prefix_sum_recursive_elements (w : nat) (arr : list Z) :
  0 < w ->
  length (parallel_prefix_sum_recursive w w w arr) = length arr /\
  forall i, i < length arr ->
    vget (parallel_prefix_sum_recursive w w w arr) i = wrap32 (seg_sum arr 0 (i + 1)).
Proof.
  intros Hw.
  destruct (parallel_prefix_sum_recursive_team w w w arr Hw (Nat.le_refl w) (Nat.le_refl w))
    as [Hl He].
  split; auto. intros i Hi. apply He; auto.
  pose proof (chunks_cover w (length arr) Hw). lia.
Qed.

(** ** The Blelloch scan *)

Lemma upsweep_body_length (s o i : nat) (u : list Z) :
  length (upsweep_body s o i u) = length u.
Proof. apply vset_length. Qed.

Lemma upsweep_body_frame (h i : nat) (u : list Z) (j : nat) :
  0 < h -> j < i \/ i + 2 * h <= j -> vget (upsweep_body (2 * h) (h - 1) i u) j = vget u j.
Proof. intros Hh Hj. unfold upsweep_body. apply vget_vset_ne. lia. Qed.

Lemma upsweep_body_local (h i : nat) (u u' : list Z) :
  0 < h -> length u = length u' ->
  (forall j, i <= j < i + 2 * h -> vget u j = vget u' j) ->
  forall j, i <= j < i + 2 * h ->
    vget (upsweep_body (2 * h) (h - 1) i u) j = vget (upsweep_body (2 * h) (h - 1) i u') j.
Proof.
  intros Hh Hl Hag j Hj. unfold upsweep_body.
  rewrite !vget_vset, Hl, (Hag (i + 2 * h - 1)), (Hag (i + (h - 1))), (Hag j) by lia.
  reflexivity.
Qed.

Lemma upsweep_body_footprint (d i : nat) (t : list Z) :
  let body := upsweep_body (Nat.shiftl 1 (d + 1)) (Nat.shiftl 1 d - 1) in
  (forall j, ~ In j (upsweep_writes d i) -> vget (body i t) j = vget t j) /\
  (forall t', length t = length t' ->
     (forall x, In x (sweep_reads d i) -> vget t x = vget t' x) ->
     forall x, In x (upsweep_writes d i) -> vget (body i t) x = vget (body i t') x).
Proof.
  unfold upsweep_body, upsweep_writes, sweep_reads. cbv zeta. split.
  - intros j Hj. apply vget_vset_ne. intros <-. apply Hj. now left.
  - intros t' Hl Hag x Hx.
    pose proof (Hag _ (or_introl eq_refl)) as H1.
    pose proof (Hag _ (or_intror (or_introl eq_refl))) as H2.
    destruct Hx as [<-|[]].
    rewrite !vget_vset, Hl, H1, H2. reflexivity.
Qed.

Lemma downsweep_body_length (s o i : nat) (u : list Z) :
  length (downsweep_body s o i u) = length u.
Proof. unfold downsweep_body. now rewrite !vset_length. Qed.

Lemma downsweep_body_frame (h i : nat) (u : list Z) (j : nat) :
  0 < h -> j < i \/ i + 2 * h <= j -> vget (downsweep_body (2 * h) (h - 1) i u) j = vget u j.
Proof. intros Hh Hj. unfold downsweep_body. rewrite !vget_vset_ne by lia. reflexivity. Qed.

Lemma downsweep_body_local (h i : nat) (u u' : list Z) :
  0 < h -> length u = length u' ->
  (forall j, i <= j < i + 2 * h -> vget u j = vget u' j) ->
  forall j, i <= j < i + 2 * h ->
    vget (downsweep_body (2 * h) (h - 1) i u) j = vget (downsweep_body (2 * h) (h - 1) i u') j.
Proof.
  intros Hh Hl Hag j Hj. unfold downsweep_body.
  rewrite !vget_vset, !vset_length, Hl, (Hag (i + 2 * h - 1)), (Hag (i + (h - 1))), (Hag j)
    by lia.
  reflexivity.
Qed.

Lemma downsweep_body_footprint (d i : nat) (t : list Z) :
  let body := downsweep_body (Nat.shiftl 1 (d + 1)) (Nat.shiftl 1 d - 1) in
  (forall j, ~ In j (downsweep_writes d i) -> vget (body i t) j = vget t j) /\
  (forall t', length t = length t' ->
     (forall x, In x (sweep_reads d i) -> vget t x = vget t' x) ->
     forall x, In x (downsweep_writes d i) -> vget (body i t) x = vget (body i t') x).
Proof.
  unfold downsweep_body, downsweep_writes, sweep_reads. cbv zeta. split.
  - intros j Hj. rewrite !vget_vset_ne; auto.
    + intros <-. apply Hj. now left.
    + intros <-. apply Hj. right. now left.
  - intros t' Hl Hag x Hx.
    pose proof (Hag _ (or_introl eq_refl)) as H1.
    pose proof (Hag _ (or_intror (or_introl eq_refl))) as H2.
    destruct Hx as [<-|[<-|[]]]; rewrite !vget_vset, !vset_length, Hl, H1, H2; reflexivity.
Qed.


(** A level of the upsweep, block by block. *)
Lemma upsweep_level_spec (n d m : nat) (t : list Z) :
  n = m * 2 ^ (d + 1) -> length t = n ->
  let r := upsweep_level n d t in
  length r = n /\
  forall q, q < m ->
    vget r (q * 2 ^ (d + 1) + 2 ^ (d + 1) - 1) =
      add32 (vget t (q * 2 ^ (d + 1) + 2 ^ (d + 1) - 1)) (vget t (q * 2 ^ (d + 1) + 2 ^ d - 1)) /\
    forall j, q * 2 ^ (d + 1) <= j < q * 2 ^ (d + 1) + 2 ^ (d + 1) - 1 -> vget r j = vget t j.
Proof.
  intros Hn Hlen. unfold upsweep_level. rewrite !Nat.shiftl_1_l.
  pose proof (pow2_pos d) as Hh. pose proof (pow2_S d) as Hs.
  set (h := 2 ^ d) in *. set (s := 2 ^ (d + 1)) in *.
  rewrite Hs in *. clear s Hs.
  destruct (omp_for_spec n (2 * h) (upsweep_body (2 * h) (h - 1)) ltac:(lia)
              (upsweep_body_length (2 * h) (h - 1))
              (fun i u j => upsweep_body_frame h i u j Hh)
              (fun i u u' => upsweep_body_local h i u u' Hh) t)
    as (Hlr & Hblk & _).
  cbv zeta. split; [lia|].
  intros q Hq. pose proof (multiples_apart (2 * h) q m Hq) as Hqm.
  split.
  - rewrite (Hblk q) by lia. unfold upsweep_body.
    rewrite vget_vset_eq by lia. do 2 f_equal. lia.
  - intros j Hj. rewrite (Hblk q) by lia. unfold upsweep_body.
    apply vget_vset_ne. lia.
Qed.

(** A level of the downsweep, block by block. *)
Lemma downsweep_level_spec (n d m : nat) (t : list Z) :
  n = m * 2 ^ (d + 1) -> length t = n ->
  let r := downsweep_level n d t in
  length r = n /\
  forall q, q < m ->
    vget r (q * 2 ^ (d + 1) + 2 ^ d - 1) = vget t (q * 2 ^ (d + 1) + 2 ^ (d + 1) - 1) /\
    vget r (q * 2 ^ (d + 1) + 2 ^ (d + 1) - 1) =
      add32 (vget t (q * 2 ^ (d + 1) + 2 ^ (d + 1) - 1)) (vget t (q * 2 ^ (d + 1) + 2 ^ d - 1)) /\
    forall j, q * 2 ^ (d + 1) <= j < q * 2 ^ (d + 1) + 2 ^ (d + 1) ->
      j <> q * 2 ^ (d + 1) + 2 ^ d - 1 -> j <> q * 2 ^ (d + 1) + 2 ^ (d + 1) - 1 ->
      vget r j = vget t j.
Proof.
  intros Hn Hlen. unfold downsweep_level. rewrite !Nat.shiftl_1_l.
  pose proof (pow2_pos d) as Hh. pose proof (pow2_S d) as Hs.
  set (h := 2 ^ d) in *. set (s := 2 ^ (d + 1)) in *.
  rewrite Hs in *. clear s Hs.
  destruct (omp_for_spec n (2 * h) (downsweep_body (2 * h) (h - 1)) ltac:(lia)
              (downsweep_body_length (2 * h) (h - 1))
              (fun i u j => downsweep_body_frame h i u j Hh)
              (fun i u u' => downsweep_body_local h i u u' Hh) t)
    as (Hlr & Hblk & _).
  cbv zeta. split; [lia|].
  intros q Hq. pose proof (multiples_apart (2 * h) q m Hq) as Hqm.
  repeat split.
  - rewrite (Hblk q) by lia. unfold downsweep_body.
    rewrite vget_vset_ne by lia.
    replace (q * (2 * h) + h - 1) with (q * (2 * h) + (h - 1)) by lia.
    rewrite vget_vset_eq by lia. reflexivity.
  - rewrite (Hblk q) by lia. unfold downsweep_body.
    rewrite vget_vset_eq by (rewrite vset_length; lia).
    rewrite vget_vset_ne by lia. do 2 f_equal. lia.
  - intros j Hj Hj1 Hj2. rewrite (Hblk q) by lia. unfold downsweep_body.
    rewrite !vget_vset_ne by lia. reflexivity.
Qed.

(** So do the levels of the upsweep and of the downsweep. *)
Lemma upsweep_level_any_order (n d : nat) (order : list nat) (t : list Z) :
  Permutation order (iterations n (Nat.shiftl 1 (d + 1))) ->
  run_iterations order (upsweep_body (Nat.shiftl 1 (d + 1)) (Nat.shiftl 1 d - 1)) t =
    upsweep_level n d t.
Proof.
  unfold upsweep_level. rewrite !Nat.shiftl_1_l, pow2_S.
  pose proof (pow2_pos d) as Hh. intros Hperm.
  apply omp_for_any_order; auto.
  - lia.
  - intros. apply upsweep_body_length.
  - intros. now apply upsweep_body_frame.
  - intros i u u'. now apply upsweep_body_local.
Qed.

Lemma downsweep_level_any_order (n d : nat) (order : list nat) (t : list Z) :
  Permutation order (iterations n (Nat.shiftl 1 (d + 1))) ->
  run_iterations order (downsweep_body (Nat.shiftl 1 (d + 1)) (Nat.shiftl 1 d - 1)) t =
    downsweep_level n d t.
Proof.
  unfold downsweep_level. rewrite !Nat.shiftl_1_l, pow2_S.
  pose proof (pow2_pos d) as Hh. intros Hperm.
  apply omp_for_any_order; auto.
  - lia.
  - intros. apply downsweep_body_length.
  - intros. now apply downsweep_body_frame.
  - intros i u u'. now apply downsweep_body_local.
Qed.

(** The padded buffer holds the input, then zeros. *)
Lemma padded_buffer_spec (arr : list Z) (n : nat) :
  length arr <= n ->
  length (padded_buffer arr n) = n /\
  forall i, vget (padded_buffer arr n) i = vget arr i.
Proof.
  intros Hn. unfold padded_buffer.
  destruct (for_up_fill (vget arr) (replicate n 0%Z) (length arr)) as (Hl & Hin & Hout).
  { now rewrite length_replicate. }
  rewrite length_replicate in Hl. split; auto.
  intros i. destruct (Nat.lt_ge_cases i (length arr)) as [Hi|Hi]; auto.
  rewrite Hout by auto. unfold vget at 2. rewrite nth_overflow by auto.
  destruct (Nat.lt_ge_cases i n).
  - now apply vget_replicate.
  - unfold vget. apply nth_overflow. now rewrite length_replicate.
Qed.

Lemma padded_buffer_range (arr : list Z) (n : nat) :
  length arr <= n -> Forall int_range arr -> forall i, int_range (vget (padded_buffer arr n) i).
Proof.
  intros Hn Hr i. rewrite (proj2 (padded_buffer_spec arr n Hn)).
  destruct (Nat.lt_ge_cases i (length arr)).
  - now apply Forall_vget.
  - unfold vget. rewrite nth_overflow by auto. unfold int_range, INT_MIN, INT_MAX. lia.
Qed.

Section BlellochInvariants.
Variables (a : list Z) (L : nat).
Hypothesis a_length : length a = 2 ^ L.
Hypothesis a_range : forall i, int_range (vget a i).

Lemma up_inv_init : up_inv a (2 ^ L) 0 a.
Proof.
  split; auto. intros e k He Hk _. replace e with 0 by lia. simpl.
  rewrite Z.add_0_r, Nat.mul_1_r. replace (k + 1 - 1) with k by lia.
  symmetry. apply wrap32_id, a_range.
Qed.

Lemma up_inv_step (d : nat) (t : list Z) :
  d < L -> up_inv a (2 ^ L) d t -> up_inv a (2 ^ L) (d + 1) (upsweep_level (2 ^ L) d t).
Proof.
  intros Hd [Hlen Hinv].
  destruct (upsweep_level_spec (2 ^ L) d (2 ^ (L - d - 1)) t (levels_divide L d Hd) Hlen)
    as (Hl & Hblk).
  pose proof (levels_divide L d Hd) as Hn.
  set (m := 2 ^ (L - d - 1)) in *. set (n := 2 ^ L) in *.
  split; auto.
  intros e k He Hk Hor.
  pose proof (pow2_pos d) as Hh.
  destruct (decide (e = d + 1)) as [->|Hne].
  - assert (Hkm : k < m).
    { rewrite Hn in Hk. apply Nat.mul_le_mono_pos_r in Hk; [lia|apply pow2_pos]. }
    rewrite (proj1 (Hblk k Hkm)).
    rewrite pow2_S in *.
    replace (k * (2 * 2 ^ d) + 2 * 2 ^ d - 1) with ((2 * k + 1) * 2 ^ d + 2 ^ d - 1) by lia.
    replace (k * (2 * 2 ^ d) + 2 ^ d - 1) with ((2 * k) * 2 ^ d + 2 ^ d - 1) by lia.
    rewrite (Hinv d (2 * k + 1)), (Hinv d (2 * k)) by (auto; lia).
    rewrite add32_wrap. f_equal.
    replace (seg_sum a (k * (2 * 2 ^ d)) (2 * 2 ^ d))
      with (seg_sum a (2 * k * 2 ^ d) (2 ^ d + 2 ^ d)) by (f_equal; lia).
    rewrite seg_sum_app.
    replace (2 * k * 2 ^ d + 2 ^ d) with ((2 * k + 1) * 2 ^ d) by lia. lia.
  - assert (Hev : Nat.even k = true) by (destruct Hor; [lia|auto]).
    pose proof (pow2_pos e) as Hpe. pose proof (pow2_pos (d + 1)) as Hps.
    destruct (block_of_index (2 ^ (d + 1)) (k * 2 ^ e + 2 ^ e - 1) Hps) as (q & Hq).
    assert (Hqm : q < m).
    { destruct (Nat.lt_ge_cases q m) as [|Hge]; auto.
      pose proof (Nat.mul_le_mono_r m q (2 ^ (d + 1)) Hge). lia. }
    pose proof (left_half_not_last e (d + 1) k q ltac:(lia) Hev).
    rewrite (proj2 (Hblk q Hqm)) by lia.
    apply Hinv; auto. lia.
Qed.

Lemma upsweep_inv (d : nat) : d <= L -> up_inv a (2 ^ L) d (upsweep (2 ^ L) d a).
Proof.
  unfold upsweep. induction d as [|d IH]; intros Hd.
  - apply up_inv_init.
  - rewrite for_up_S. replace (S d) with (d + 1) by lia.
    apply up_inv_step; [lia|]. apply IH. lia.
Qed.

Lemma down_inv_init (t : list Z) :
  up_inv a (2 ^ L) L t -> down_inv a (2 ^ L) L (vset t (2 ^ L - 1) 0%Z).
Proof.
  intros [Hlen Hinv]. pose proof (pow2_pos L) as HL.
  split; [now rewrite vset_length|]. split.
  - intros k Hk. assert (k = 0) as -> by nia. simpl.
    rewrite vget_vset_eq by lia. reflexivity.
  - intros e k He Hk Hev.
    pose proof (left_half_not_last e L k 0 He Hev) as Hne. simpl in Hne.
    rewrite vget_vset_ne by lia. apply Hinv; auto. lia.
Qed.

Lemma down_inv_step (d : nat) (t : list Z) :
  d < L -> down_inv a (2 ^ L) (d + 1) t -> down_inv a (2 ^ L) d (downsweep_level (2 ^ L) d t).
Proof.
  intros Hd (Hlen & Hpre & Hleft).
  destruct (downsweep_level_spec (2 ^ L) d (2 ^ (L - d - 1)) t (levels_divide L d Hd) Hlen)
    as (Hl & Hblk).
  pose proof (levels_divide L d Hd) as Hn.
  set (m := 2 ^ (L - d - 1)) in *. set (n := 2 ^ L) in *.
  pose proof (pow2_pos d) as Hh.
  split; auto. split.
  - intros k Hk.
    destruct (Nat.Even_or_Odd k) as [[q ->]|[q ->]].
    + assert (Hqm : q < m).
      { rewrite Hn, pow2_S in Hk.
        assert (H : (2 * q + 1) * 2 ^ d <= (2 * m) * 2 ^ d) by lia.
        apply Nat.mul_le_mono_pos_r in H; lia. }
      destruct (Hblk q Hqm) as (Hlo & _ & _).
      rewrite pow2_S in *.
      replace (2 * q * 2 ^ d + 2 ^ d - 1) with (q * (2 * 2 ^ d) + 2 ^ d - 1) by lia.
      rewrite Hlo.
      pose proof (multiples_apart (2 * 2 ^ d) q m Hqm).
      rewrite Hpre by lia. do 2 f_equal. lia.
    + assert (Hqm : q < m).
      { rewrite Hn, pow2_S in Hk.
        assert (H : (2 * q + 2) * 2 ^ d <= (2 * m) * 2 ^ d) by lia.
        apply Nat.mul_le_mono_pos_r in H; lia. }
      destruct (Hblk q Hqm) as (_ & Hhi & _).
      rewrite pow2_S in *.
      replace ((2 * q + 1) * 2 ^ d + 2 ^ d - 1) with (q * (2 * 2 ^ d) + 2 * 2 ^ d - 1) by lia.
      rewrite Hhi.
      pose proof (multiples_apart (2 * 2 ^ d) q m Hqm).
      rewrite Hpre by lia.
      replace (q * (2 * 2 ^ d) + 2 ^ d - 1) with ((2 * q) * 2 ^ d + 2 ^ d - 1) by lia.
      rewrite (Hleft d (2 * q)); [|lia|lia|].
      * rewrite add32_wrap. f_equal.
        replace ((2 * q + 1) * 2 ^ d) with (q * (2 * 2 ^ d) + 2 ^ d) by lia.
        rewrite seg_sum_app. do 2 f_equal. lia.
      * apply Nat.even_spec. now exists q.
  - intros e k He Hk Hev.
    pose proof (pow2_pos e) as Hpe. pose proof (pow2_pos (d + 1)) as Hps.
    destruct (block_of_index (2 ^ (d + 1)) (k * 2 ^ e + 2 ^ e - 1) Hps) as (q & Hq).
    assert (Hqm : q < m).
    { destruct (Nat.lt_ge_cases q m) as [|Hge]; auto.
      pose proof (Nat.mul_le_mono_r m q (2 ^ (d + 1)) Hge). lia. }
    destruct (Hblk q Hqm) as (_ & _ & Hother).
    pose proof (left_half_not_last e d k (2 * q) He Hev) as H1.
    pose proof (left_half_not_last e d k (2 * q + 1) He Hev) as H2.
    rewrite Hother; [apply Hleft; auto; lia|lia| |]; rewrite pow2_S; lia.
Qed.

Lemma downsweep_inv (d : nat) : forall t,
  d <= L -> down_inv a (2 ^ L) d t -> down_inv a (2 ^ L) 0 (for_down d (downsweep_level (2 ^ L)) t).
Proof.
  induction d as [|d IH]; intros t Hd Hinv.
  - exact Hinv.
  - rewrite for_down_S. apply IH; [lia|]. apply down_inv_step; [lia|].
    now replace (d + 1) with (S d) by lia.
Qed.

(** After the downsweep the buffer holds the exclusive prefix sums. *)
Lemma blelloch_exclusive (i : nat) :
  i < 2 ^ L ->
  vget (downsweep (2 ^ L) L (vset (upsweep (2 ^ L) L a) (2 ^ L - 1) 0%Z)) i =
    wrap32 (seg_sum a 0 i).
Proof.
  intros Hi. unfold downsweep.
  destruct (downsweep_inv L (vset (upsweep (2 ^ L) L a) (2 ^ L - 1) 0%Z) (Nat.le_refl L))
    as (_ & Hpre & _).
  - apply down_inv_init, upsweep_inv. lia.
  - specialize (Hpre i). simpl in Hpre.
    replace (i * 1 + 1 - 1) with i in Hpre by lia.
    replace (i * 1) with i in Hpre by lia. apply Hpre. lia.
Qed.
End BlellochInvariants.

(** The Blelloch scan returns what the sequential scan returns. *)
Lemma parallel_prefix_sum_blelloch_correct (arr : list Z) :
  (1 <= Z.of_nat (length arr) <= 2 ^ 30)%Z -> Forall int_range arr ->
  exists report, parallel_prefix_sum_blelloch arr = inr (report, sequential_prefix_sum arr).
Proof.
  intros HN Hr. unfold parallel_prefix_sum_blelloch.
  rewrite build_padded_small by auto.
  destruct (padded_capacity_nat (Z.of_nat (length arr))) as (-> & Hcap); [lia|].
  rewrite Nat2Z.id in Hcap.
  set (L := Z.to_nat (ceil_log2 (Z.of_nat (length arr)))) in *.
  destruct (padded_buffer_spec arr (2 ^ L) Hcap) as (Hla & Ha).
  pose proof (padded_buffer_range arr (2 ^ L) Hcap Hr) as Hra.
  set (a := padded_buffer arr (2 ^ L)) in *.
  eexists. do 2 f_equal.
  match goal with
  | |- for_up _ (fun i result => vset result i (@?f i)) _ = _ =>
      destruct (for_up_fill f (replicate (length arr) 0%Z) (length arr)) as (Hl & Hin & _)
  end.
  { now rewrite length_replicate. }
  rewrite length_replicate in Hl.
  apply vec_ext.
  - now rewrite sequential_prefix_sum_length.
  - intros i Hi. rewrite Hl in Hi. rewrite Hin by auto.
    rewrite (blelloch_exclusive a L Hla Hra i) by lia.
    rewrite sequential_prefix_sum_elements by auto.
    rewrite add32_wrap_l. f_equal.
    rewrite (seg_sum_ext a arr Ha).
    replace (i + 1) with (S i) by lia. now rewrite seg_sum_snoc.
Qed.

(** ** [verify_arrays] *)

Lemma verify_loop_spec (a b : list Z) (fuel : nat) : forall i,
  length a = length b -> length a <= i + fuel ->
  (forall j, j < i -> a !! j = b !! j) ->
  match verify_loop fuel i a b with
  | Pass => forall j, a !! j = b !! j
  | MismatchAt k x y =>
      a !! k = Some x /\ b !! k = Some y /\ x <> y /\ forall j, j < k -> a !! j = b !! j
  | SizeDiffers | OutOfBounds _ => False
  end.
Proof.
  induction fuel as [|fuel IH]; intros i Hlen Hfuel Hpre; simpl.
  - intros j. destruct (Nat.lt_ge_cases j i); auto.
    rewrite !lookup_ge_None_2; auto; lia.
  - destruct (Nat.ltb_spec i (length a)) as [Hlt|Hge].
    + rewrite (lookup_vget a i), (lookup_vget b i) by lia.
      destruct (Z.eqb_spec (vget a i) (vget b i)) as [Heq|Hne].
      * apply IH; auto; [lia|].
        intros j Hj. destruct (decide (j = i)) as [->|]; [|apply Hpre; lia].
        rewrite (lookup_vget a i), (lookup_vget b i) by lia. congruence.
      * repeat split; auto using lookup_vget. apply lookup_vget; lia.
    + intros j. destruct (Nat.lt_ge_cases j i); auto.
      rewrite !lookup_ge_None_2; auto; lia.
Qed.

(** ** Disjoint blocks *)

Lemma blocks_disjoint (m a1 b1 a2 b2 i1 i2 : nat) :
  (m | i1) -> (m | i2) -> i1 <> i2 ->
  a1 < m -> b1 < m -> a2 < m -> b2 < m ->
  disjoint_indices [i1 + a1; i1 + b1] [i2 + a2; i2 + b2].
Proof.
  intros [k1 ->] [k2 ->] Hne Ha1 Hb1 Ha2 Hb2 x Hx1 Hx2.
  assert (k1 < k2 \/ k2 < k1) as [Hlt|Hlt]
    by (destruct (Nat.lt_total k1 k2) as [|[->|]]; [auto|congruence|auto]).
  all: pose proof (multiples_apart m _ _ Hlt).
  all: simpl in Hx1, Hx2; lia.
Qed.

(** * The claims *)

(** C1.  The block scan does not return the inclusive prefix sum on every
    non-empty sequence.  It sizes its chunks with [omp_get_max_threads()], 4
    here, and the threads of its teams scan them: with teams of 2 threads the
    chunks of the threads 2 and 3 are not scanned and their elements keep the
    0 that the constructor of [result] gave them, where
    [sequential_prefix_sum], and the block scan with teams of 4 threads, have
    the sums 15, 21, 28 and 36. *)
Theorem block_scan_skips_chunks :
  parallel_prefix_sum_recursive 4 2 2 [1; 2; 3; 4; 5; 6; 7; 8]%Z =
    [1; 3; 6; 10; 0; 0; 0; 0]%Z /\
  sequential_prefix_sum [1; 2; 3; 4; 5; 6; 7; 8]%Z = [1; 3; 6; 10; 15; 21; 28; 36]%Z /\
  parallel_prefix_sum_recursive 4 4 4 [1; 2; 3; 4; 5; 6; 7; 8]%Z =
    [1; 3; 6; 10; 15; 21; 28; 36]%Z.
Proof. vm_compute. repeat split; reflexivity. Qed.

(** Scenario B of the specification: the Blelloch scan of
    [12,34,21,45,23,18,36,29] reports capacity 8, 3 levels and 6
    synchronization steps and returns [12,46,67,112,135,153,189,218]. *)
Example scenario_b_blelloch :
  parallel_prefix_sum_blelloch [12; 34; 21; 45; 23; 18; 36; 29]%Z =
    inr ({| sr_padded := 8; sr_levels := 3; sr_steps := 6 |},
         [12; 46; 67; 112; 135; 153; 189; 218]%Z).
Proof. reflexivity. Qed.

(** C2.  The chunked reduction does not return the maximum of every
    non-empty sequence.  With [omp_get_max_threads()] equal to 4 and a team of
    2 threads the chunks of the threads 2 and 3, which hold 5, 6, 7 and 890,
    are not scanned: the function returns 4, where [sequential_max], and the
    chunked reduction with a team of 4 threads, return 890. *)
Theorem sections_skips_chunks :
  parallel_max_sections 4 2 [1; 2; 3; 4; 5; 6; 7; 890]%Z 8 = 4%Z /\
  sequential_max [1; 2; 3; 4; 5; 6; 7; 890]%Z 8 = 890%Z /\
  parallel_max_sections 4 4 [1; 2; 3; 4; 5; 6; 7; 890]%Z 8 = 890%Z.
Proof. vm_compute. repeat split; reflexivity. Qed.

(** C3.  In the upsweep of the Blelloch scan of a non-empty sequence of at
    most [2^30] [int]s, with [P = 2^log_n] the padded capacity: when level [d]
    is done, for [0 <= d < log_n], and for every index [i < P] that is a
    multiple of [2^(d+1)], the element [i + 2^(d+1) - 1] of the buffer holds
    the sum, in [int] arithmetic and from left to right, of the [2^(d+1)]
    elements of the padded buffer from [i] on; when the last level is done the
    element [P - 1] holds the sum of all [P] elements.  The state when level
    [d] is done is the one from which the remaining levels of the upsweep
    run. *)
Theorem upsweep_invariant (arr : list Z) :
  (1 <= Z.of_nat (length arr) <= 2 ^ 30)%Z -> Forall int_range arr ->
  let log_n := Z.to_nat (ceil_log2 (Z.of_nat (length arr))) in
  let P := 2 ^ log_n in
  let buffer := padded_buffer arr P in
  build_padded (Z.of_nat (length arr)) = inr (Z.of_nat P) /\
  length buffer = P /\
  (forall d i, d < log_n -> (2 ^ (d + 1) | i) -> i < P ->
     vget (upsweep P (d + 1) buffer) (i + 2 ^ (d + 1) - 1) =
       int_sum buffer i (2 ^ (d + 1)) /\
     upsweep P log_n buffer =
       fold_left (fun t e => upsweep_level P e t) (seq (d + 1) (log_n - (d + 1)))
         (upsweep P (d + 1) buffer)) /\
  vget (upsweep P log_n buffer) (P - 1) = int_sum buffer 0 P.
Proof.
  intros HN Hr log_n P buffer.
  destruct (padded_capacity_nat (Z.of_nat (length arr))) as (Hcap & Hle); [lia|].
  rewrite Nat2Z.id in Hle. fold log_n in Hcap, Hle. fold P in Hcap, Hle.
  destruct (padded_buffer_spec arr P Hle) as (Hlb & _).
  pose proof (padded_buffer_range arr P Hle Hr) as Hrb. fold buffer in Hlb, Hrb.
  pose proof (pow2_pos log_n) as HP. fold P in HP.
  repeat apply conj.
  - rewrite build_padded_small by auto. f_equal.
    destruct (ceil_log2_least (Z.of_nat (length arr))) as (H0 & _ & _); [lia|].
    rewrite <- Hcap. rewrite Z2Nat.id; auto.
    apply Z.pow_nonneg. lia.
  - exact Hlb.
  - intros d i Hd [k ->] Hi.
    destruct (upsweep_inv buffer log_n Hlb Hrb (d + 1) ltac:(lia)) as [_ Hinv].
    split.
    + rewrite int_sum_wrap. apply (Hinv (d + 1) k); auto.
      pose proof (levels_divide log_n d Hd) as Hdiv. fold P in Hdiv |- *.
      rewrite Hdiv in Hi |- *.
      apply Nat.mul_lt_mono_pos_r in Hi; [|apply pow2_pos].
      apply Nat.mul_le_mono_r. lia.
    + unfold upsweep. rewrite <- for_up_split. f_equal. lia.
  - destruct (upsweep_inv buffer log_n Hlb Hrb log_n (Nat.le_refl _)) as [_ Hinv].
    specialize (Hinv log_n 0 (Nat.le_refl _)). simpl in Hinv.
    rewrite Nat.add_0_r in Hinv. rewrite int_sum_wrap. apply Hinv; auto.
Qed.

Lemma upsweep_invariant_witness :
  vget (upsweep 8 3 (padded_buffer [12; 34; 21; 45; 23; 18; 36; 29]%Z 8)) 7 = 218%Z.
Proof.
  apply (upsweep_invariant [12; 34; 21; 45; 23; 18; 36; 29]%Z).
  - simpl. lia.
  - repeat constructor; unfold INT_MIN, INT_MAX; lia.
Defined.

(** C4.  For an array of [N] elements, [1 <= N <= 2^30] (the sizes whose
    padded capacity is an [int]), the number of synchronization steps that
    [parallel_max_explicit_barriers] reports, computed by halving [N], is
    [ceil(log2(N))], and the Blelloch scan reports the padded capacity
    [2^ceil(log2(N))], [ceil(log2(N))] levels and [2 * ceil(log2(N))]
    synchronization steps; [ceil(log2(N))] is the least [k] with [N <= 2^k].
    For [N = 1000] the counts are 10 and 20, with padded capacity 1024. *)
Theorem level_counts (arr : list Z) (N : Z) :
  N = Z.of_nat (length arr) -> (1 <= N <= 2 ^ 30)%Z ->
  br_steps (parallel_max_explicit_barriers arr (length arr)) = ceil_log2 N /\
  (exists result,
     parallel_prefix_sum_blelloch arr =
       inr ({| sr_padded := 2 ^ ceil_log2 N; sr_levels := ceil_log2 N;
               sr_steps := 2 * ceil_log2 N |}, result)) /\
  ((0 <= ceil_log2 N)%Z /\ (N <= 2 ^ ceil_log2 N)%Z /\
   forall k, (0 <= k)%Z -> (N <= 2 ^ k)%Z -> (ceil_log2 N <= k)%Z) /\
  (N = 1000%Z -> ceil_log2 N = 10%Z /\ (2 ^ ceil_log2 N = 1024)%Z).
Proof.
  intros -> HN. repeat apply conj.
  - unfold parallel_max_explicit_barriers. simpl.
    apply barrier_levels_spec. unfold INT_MAX. simpl in HN. lia.
  - unfold parallel_prefix_sum_blelloch. rewrite build_padded_small by auto.
    eexists. reflexivity.
  - apply ceil_log2_least. lia.
  - apply ceil_log2_least. lia.
  - apply ceil_log2_least. lia.
  - intros ->. split; reflexivity.
Qed.

Lemma level_counts_witness :
  br_steps (parallel_max_explicit_barriers [5; 3; 8]%Z 3) = ceil_log2 3 /\
  ceil_log2 3 = 2%Z.
Proof.
  split; [|reflexivity].
  apply (level_counts [5; 3; 8]%Z 3); [reflexivity | simpl; lia].
Defined.



(** C6.  Within a level the iterations touch disjoint index sets.  In the
    tree reduction at stride [s], two distinct iteration indices [i1], [i2]
    (multiples of [2s]) touch [{i1, i1+s}] and [{i2, i2+s}], which are
    disjoint.  In the upsweep and the downsweep of the Blelloch scan at level
    [d], two distinct iteration indices (multiples of [2^(d+1)]) touch
    [{i + 2^d - 1, i + 2^(d+1) - 1}], which are disjoint.  The indices an
    iteration writes are among those it touches, so that no write of one
    iteration is a read or a write of another iteration of the level.  These
    index sets are those of the loop bodies: a body changes no element outside
    the indices it writes, and what it writes depends on the elements it reads
    only. *)
Theorem level_iterations_disjoint :
  (forall s i1 i2, 0 < s -> (2 * s | i1) -> (2 * s | i2) -> i1 <> i2 ->
     tree_reads s i1 = [i1; i1 + s] /\
     disjoint_indices (tree_reads s i1) (tree_reads s i2) /\
     disjoint_indices (tree_writes s i1) (tree_reads s i2 ++ tree_writes s i2)) /\
  (forall d i1 i2, (2 ^ (d + 1) | i1) -> (2 ^ (d + 1) | i2) -> i1 <> i2 ->
     sweep_reads d i1 = [i1 + 2 ^ d - 1; i1 + 2 ^ (d + 1) - 1] /\
     disjoint_indices (sweep_reads d i1) (sweep_reads d i2) /\
     disjoint_indices (upsweep_writes d i1) (sweep_reads d i2 ++ upsweep_writes d i2) /\
     disjoint_indices (downsweep_writes d i1) (sweep_reads d i2 ++ downsweep_writes d i2)) /\
  (forall n s i m,
     (forall j, ~ In j (tree_writes s i) -> temp_get (tree_body n s i m) j = temp_get m j) /\
     (forall m', length (m_temp m) = length (m_temp m') ->
        (forall x, In x (tree_reads s i) -> temp_get m x = temp_get m' x) ->
        forall x, In x (tree_writes s i) ->
          temp_get (tree_body n s i m) x = temp_get (tree_body n s i m') x)) /\
  (forall d i t,
     let up := upsweep_body (Nat.shiftl 1 (d + 1)) (Nat.shiftl 1 d - 1) in
     let down := downsweep_body (Nat.shiftl 1 (d + 1)) (Nat.shiftl 1 d - 1) in
     (forall j, ~ In j (upsweep_writes d i) -> vget (up i t) j = vget t j) /\
     (forall j, ~ In j (downsweep_writes d i) -> vget (down i t) j = vget t j) /\
     (forall t', length t = length t' ->
        (forall x, In x (sweep_reads d i) -> vget t x = vget t' x) ->
        (forall x, In x (upsweep_writes d i) -> vget (up i t) x = vget (up i t') x) /\
        (forall x, In x (downsweep_writes d i) -> vget (down i t) x = vget (down i t') x))).
Proof.
  split; [|split; [|split]].
  - intros s i1 i2 Hs H1 H2 Hne. split; [reflexivity|].
    assert (Hd : disjoint_indices [i1 + 0; i1 + s] [i2 + 0; i2 + s])
      by (apply (blocks_disjoint (2 * s)); auto; lia).
    rewrite !Nat.add_0_r in Hd. unfold tree_reads, tree_writes. split; [exact Hd|].
    intros x Hx1 Hx2. apply (Hd x); simpl in *; tauto.
  - intros d i1 i2 H1 H2 Hne.
    unfold sweep_reads, upsweep_writes, downsweep_writes. rewrite !Nat.shiftl_1_l.
    pose proof (pow2_pos d) as Hp. pose proof (pow2_S d) as Hpow.
    assert (Hd : disjoint_indices [i1 + (2 ^ d - 1); i1 + (2 ^ (d + 1) - 1)]
                                  [i2 + (2 ^ d - 1); i2 + (2 ^ (d + 1) - 1)])
      by (apply (blocks_disjoint (2 ^ (d + 1))); auto; lia).
    replace (i1 + 2 ^ (d + 1) - 1) with (i1 + (2 ^ (d + 1) - 1)) by lia.
    replace (i2 + 2 ^ (d + 1) - 1) with (i2 + (2 ^ (d + 1) - 1)) by lia.
    replace (i1 + 2 ^ d - 1) with (i1 + (2 ^ d - 1)) by lia.
    repeat split; [exact Hd| |].
    all: intros x Hx1 Hx2; apply (Hd x); simpl in *; tauto.
  - intros n s i m. apply tree_body_footprint.
  - intros d i t up down.
    destruct (upsweep_body_footprint d i t) as [Hu1 Hu2].
    destruct (downsweep_body_footprint d i t) as [Hd1 Hd2].
    split; [exact Hu1|]. split; [exact Hd1|].
    intros t' Hl Hag. split; [now apply Hu2 | now apply Hd2].
Qed.

Lemma level_iterations_disjoint_witness :
  disjoint_indices (tree_reads 2 0) (tree_reads 2 4) /\
  disjoint_indices (sweep_reads 1 0) (sweep_reads 1 4).
Proof.
  pose proof level_iterations_disjoint as (Htree & Hsweep & _).
  split.
  - apply (Htree 2 0 4); try lia.
    + exists 0. reflexivity.
    + exists 1. reflexivity.
  - apply (Hsweep 1 0 4); try lia.
    + exists 0. reflexivity.
    + exists 1. reflexivity.
Defined.

(** C7.  The output of the chunk-partitioned engines depends on the number
    of workers.  With [omp_get_max_threads()] equal to 4, on one and the same
    input, [parallel_max_sections] returns 4 with a team of 2 threads and 890
    with a team of 4, and [parallel_prefix_sum_recursive] returns sequences
    that differ from the fifth element on with teams of 2 and with teams of 4
    threads. *)
Theorem output_depends_on_team :
  parallel_max_sections 4 2 [1; 2; 3; 4; 5; 6; 7; 890]%Z 8 <>
    parallel_max_sections 4 4 [1; 2; 3; 4; 5; 6; 7; 890]%Z 8 /\
  parallel_prefix_sum_recursive 4 2 2 [1; 2; 3; 4; 5; 6; 7; 8]%Z <>
    parallel_prefix_sum_recursive 4 4 4 [1; 2; 3; 4; 5; 6; 7; 8]%Z /\
  vget (parallel_prefix_sum_recursive 4 2 2 [1; 2; 3; 4; 5; 6; 7; 8]%Z) 4 = 0%Z /\
  vget (parallel_prefix_sum_recursive 4 4 4 [1; 2; 3; 4; 5; 6; 7; 8]%Z) 4 = 15%Z.
Proof. vm_compute. repeat split; discriminate. Qed.

(** C8.  On [456,789,123,890,234,567,345,678] with [n = 8],
    [parallel_max_explicit_barriers] returns 890 and reports 3
    synchronization steps; the line it prints after level 0 (stride 1) shows
    the buffer [789,789,890,890,567,567,678,678]. *)
Theorem scenario_a_explicit_barriers :
  let r := parallel_max_explicit_barriers [456; 789; 123; 890; 234; 567; 345; 678]%Z 8 in
  br_max r = 890%Z /\
  br_steps r = 3%Z /\
  length (br_lines r) = 3 /\
  br_lines r !! 0 =
    Some {| ll_level := 0; ll_stride := 1;
            ll_temp := [789; 789; 890; 890; 567; 567; 678; 678]%Z |}.
Proof. vm_compute. repeat split; reflexivity. Qed.

(** C9.  [verify_arrays a b] returns [true] exactly when [a] and [b] have
    the same length and the same elements.  When the lengths are equal and the
    vectors differ it returns [false] and the index it prints is the least
    index at which they differ.  No call reads outside a vector, and every
    call returns. *)
Theorem verify_arrays_spec (a b : list Z) :
  (verdict_value (verify_arrays a b) = true <->
     length a = length b /\ forall i, a !! i = b !! i) /\
  (length a = length b -> a <> b ->
     verdict_value (verify_arrays a b) = false /\
     exists i x y, verify_arrays a b = MismatchAt i x y /\
       a !! i = Some x /\ b !! i = Some y /\ x <> y /\
       forall j, j < i -> a !! j = b !! j) /\
  (forall i, verify_arrays a b <> OutOfBounds i).
Proof.
  unfold verify_arrays.
  destruct (Nat.eqb_spec (length a) (length b)) as [Hlen|Hlen]; simpl.
  - pose proof (verify_loop_spec a b (length a) 0 Hlen ltac:(lia) ltac:(lia)) as H.
    destruct (verify_loop (length a) 0 a b) as [| |k x y|k]; simpl; try tauto.
    + split; [tauto|]. split; [|discriminate].
      intros _ Hne. exfalso. apply Hne. now apply list_eq.
    + destruct H as (Ha & Hb & Hxy & Hpre).
      split; [|split; [|discriminate]].
      * split; [discriminate|].
        intros [_ Hall]. specialize (Hall k). congruence.
      * intros _ _. split; [reflexivity|]. exists k, x, y. auto.
  - split; [|split; [|discriminate]].
    + split; [discriminate|]. intros [? _]. contradiction.
    + intros ?. contradiction.
Qed.

Lemma verify_arrays_spec_witness :
  verdict_value (verify_arrays [1; 2; 3]%Z [1; 5; 4]%Z) = false /\
  exists i x y, verify_arrays [1; 2; 3]%Z [1; 5; 4]%Z = MismatchAt i x y /\
    [1; 2; 3]%Z !! i = Some x /\ [1; 5; 4]%Z !! i = Some y /\ x <> y /\
    forall j, j < i -> [1; 2; 3]%Z !! j = [1; 5; 4]%Z !! j.
Proof.
  apply (verify_arrays_spec [1; 2; 3]%Z [1; 5; 4]%Z); [reflexivity | congruence].
Defined.

(** C10.  [parallel_max_tree_reduction] and [parallel_max_explicit_barriers]
    take the array by non-const reference and leave it as it was: every
    write of their loops goes to the working copy [temp], so that, for every
    array and every [n], the caller's vector after the call is the vector
    before the call. *)
Theorem reductions_leave_arr_unchanged (arr : list Z) (n : nat) :
  snd (parallel_max_tree_reduction arr n) = arr /\
  br_arr (parallel_max_explicit_barriers arr n) = arr.
Proof.
  split.
  - unfold parallel_max_tree_reduction. simpl. now rewrite tree_while_arr.
  - unfold parallel_max_explicit_barriers. simpl. now rewrite barrier_loop_arr.
Qed.

(** * Further properties *)

(** ** The scan with the work-shared copy *)

Lemma scan_recurrence_unique (arr r r' : list Z) :
  length r = length arr -> length r' = length arr ->
  vget r 0 = vget r' 0 ->
  (forall i, 1 <= i < length arr -> vget r i = add32 (vget r (i - 1)) (vget arr i)) ->
  (forall i, 1 <= i < length arr -> vget r' i = add32 (vget r' (i - 1)) (vget arr i)) ->
  r = r'.
Proof.
  intros Hl Hl' H0 Hr Hr'. apply vec_ext; [congruence|].
  intros i. induction i as [|i IH]; intros Hi; auto.
  rewrite Hr, Hr' by lia. replace (S i - 1) with i by lia. rewrite IH by lia. reflexivity.
Qed.

Lemma copy_loop_length (arr r0 : list Z) (n : nat) :
  length (omp_for n 1 (fun i result => vset result i (vget arr i)) r0) = length r0.
Proof.
  unfold omp_for.
  apply (for_loop_rel (fun (s : list Z) (_ : unit) => length s = length r0)
           _ (fun _ u => u) n 1) with (t := tt); auto.
  intros i s _ Hs. now rewrite vset_length.
Qed.

(** X1.  [parallel_prefix_sum_omp_scan] returns what [sequential_prefix_sum]
    returns, on every non-empty input: what the work-shared loop copied is
    overwritten by the recurrence. *)
Theorem omp_scan_is_sequential (arr : list Z) :
  arr <> [] -> parallel_prefix_sum_omp_scan arr = sequential_prefix_sum arr.
Proof.
  intros Hne.
  assert (Hn : 1 <= length arr) by (destruct arr; simpl; [congruence|lia]).
  destruct (sequential_prefix_sum_scan arr Hne) as (Hl & H0 & Hstep).
  unfold parallel_prefix_sum_omp_scan.
  set (copy := omp_for (length arr) 1 (fun i result => vset result i (vget arr i))
                 (replicate (length arr) 0%Z)).
  assert (Hcopy : length copy = length arr).
  { unfold copy. now rewrite copy_loop_length, length_replicate. }
  destruct (sequential_loop_spec arr (vset copy 0 (vget arr 0)) (length arr))
    as (Hl' & H0' & Hstep' & _); [now rewrite vset_length | lia |].
  apply (scan_recurrence_unique arr); [exact Hl' | exact Hl | | | exact Hstep].
  - rewrite H0', H0. apply vget_vset_eq. lia.
  - intros i Hi. apply Hstep'. lia.
Qed.

Lemma omp_scan_is_sequential_witness :
  parallel_prefix_sum_omp_scan [12; 34; 21]%Z = sequential_prefix_sum [12; 34; 21]%Z.
Proof. apply omp_scan_is_sequential. discriminate. Defined.

(** ** The buffer of the Blelloch scan *)

Lemma seg_sum_beyond (a : list Z) (len : nat) : forall lo,
  length a <= lo -> seg_sum a lo len = 0%Z.
Proof.
  induction len as [|len IH]; intros lo Hlo; simpl; auto.
  rewrite IH by lia. unfold vget. rewrite nth_overflow by lia. reflexivity.
Qed.

Lemma padded_capacity_lt_double (N : Z) :
  (1 <= N)%Z -> (N <= 2 ^ ceil_log2 N < 2 * N)%Z.
Proof.
  intros HN. destruct (ceil_log2_least N HN) as (H0 & Hup & _). split; auto.
  unfold ceil_log2 in *.
  destruct (Z.eq_dec N 1%Z) as [->|Hne]; [rewrite Z.log2_up_1; simpl; lia|].
  destruct (Z.log2_up_spec N ltac:(lia)) as [Hlow _].
  pose proof (Z.log2_up_pos N ltac:(lia)) as Hpos.
  replace (Z.log2_up N) with (Z.succ (Z.pred (Z.log2_up N))) at 1 by lia.
  rewrite Z.pow_succ_r by lia. lia.
Qed.

(** X2.  The padded buffer of a non-empty array of at most [2^30] elements: its
    capacity [P] is the power of two [2^log_n] with [N <= P < 2N] (the padding
    never doubles the size), it has at most 30 levels, it starts with the
    elements of the array and the padding is filled with zeros. *)
Theorem padded_buffer_layout (arr : list Z) (N : Z) :
  N = Z.of_nat (length arr) -> (1 <= N <= 2 ^ 30)%Z ->
  let log_n := ceil_log2 N in
  let P := (2 ^ log_n)%Z in
  let buffer := padded_buffer arr (Z.to_nat P) in
  build_padded N = inr P /\
  (0 <= log_n <= 30)%Z /\ (N <= P < 2 * N)%Z /\
  length buffer = Z.to_nat P /\
  (forall i, i < length arr -> vget buffer i = vget arr i) /\
  (forall i, length arr <= i < Z.to_nat P -> vget buffer i = 0%Z).
Proof.
  intros -> HN log_n P buffer.
  destruct (ceil_log2_least (Z.of_nat (length arr))) as (H0 & Hup & _); [lia|].
  pose proof (ceil_log2_le _ 30 HN) as H30.
  pose proof (padded_capacity_lt_double (Z.of_nat (length arr)) ltac:(lia)) as Hdbl.
  fold log_n in H0, Hup, H30, Hdbl. fold P in Hup, Hdbl.
  destruct (padded_buffer_spec arr (Z.to_nat P) ltac:(lia)) as (Hlen & Hget).
  fold buffer in Hlen, Hget.
  split; [now apply build_padded_small|]. split; [lia|]. split; [exact Hdbl|].
  split; [exact Hlen|]. split.
  - intros i _. apply Hget.
  - intros i Hi. rewrite Hget. unfold vget. apply nth_overflow. lia.
Qed.

Lemma padded_buffer_layout_witness :
  build_padded 5 = inr 8%Z /\ (5 <= 8 < 2 * 5)%Z.
Proof.
  pose proof (padded_buffer_layout [12; 34; 21; 45; 23]%Z 5 eq_refl ltac:(simpl; lia))
    as (H1 & _ & H3 & _).
  split; [exact H1 | exact H3].
Defined.

(** X3.  When the downsweep is done the buffer holds the exclusive prefix sums
    (the line "Result (Exclusive)"): element [i] is the [int] sum of the
    elements before [i], of the padded buffer and hence, for [i] below the
    size of the array, of the array; element 0 is 0. *)
Theorem downsweep_exclusive_scan (arr : list Z) :
  (1 <= Z.of_nat (length arr) <= 2 ^ 30)%Z -> Forall int_range arr ->
  let log_n := Z.to_nat (ceil_log2 (Z.of_nat (length arr))) in
  let P := 2 ^ log_n in
  let buffer := padded_buffer arr P in
  let temp := downsweep P log_n (vset (upsweep P log_n buffer) (P - 1) 0%Z) in
  length temp = P /\
  vget temp 0 = 0%Z /\
  (forall i, i < P -> vget temp i = int_sum buffer 0 i) /\
  (forall i, i <= length arr -> i < P -> vget temp i = int_sum arr 0 i).
Proof.
  intros HN Hr log_n P buffer temp.
  destruct (padded_capacity_nat (Z.of_nat (length arr))) as (_ & Hle); [lia|].
  rewrite Nat2Z.id in Hle. fold log_n in Hle. fold P in Hle.
  destruct (padded_buffer_spec arr P Hle) as (Hlb & Hget).
  pose proof (padded_buffer_range arr P Hle Hr) as Hrb. fold buffer in Hlb, Hget, Hrb.
  pose proof (pow2_pos log_n) as HP. fold P in HP.
  assert (Hex : forall i, i < P -> vget temp i = int_sum buffer 0 i).
  { intros i Hi. rewrite int_sum_wrap. now apply blelloch_exclusive. }
  split; [|split; [|split]]; auto.
  - apply (downsweep_inv buffer log_n Hlb log_n); auto.
    apply down_inv_init; auto. apply upsweep_inv; auto.
  - intros i _ Hi. rewrite Hex, !int_sum_wrap by auto.
    now rewrite (seg_sum_ext buffer arr Hget).
Qed.

Lemma downsweep_exclusive_scan_witness :
  vget (downsweep 8 3 (vset (upsweep 8 3 (padded_buffer [12; 34; 21; 45; 23]%Z 8)) 7 0%Z)) 3
    = int_sum [12; 34; 21; 45; 23]%Z 0 3.
Proof.
  apply (downsweep_exclusive_scan [12; 34; 21; 45; 23]%Z).
  - simpl. lia.
  - repeat constructor; unfold INT_MIN, INT_MAX; lia.
  - simpl. lia.
  - simpl. lia.
Defined.

(** X4.  The total that the scan reads off the root of the upsweep ([total_sum])
    is the [int] sum of the array, which is the last element of the inclusive
    prefix sum. *)
Theorem upsweep_root_is_total (arr : list Z) :
  (1 <= Z.of_nat (length arr) <= 2 ^ 30)%Z -> Forall int_range arr ->
  let log_n := Z.to_nat (ceil_log2 (Z.of_nat (length arr))) in
  let P := 2 ^ log_n in
  let total_sum := vget (upsweep P log_n (padded_buffer arr P)) (P - 1) in
  total_sum = int_sum arr 0 (length arr) /\
  total_sum = vget (sequential_prefix_sum arr) (length arr - 1).
Proof.
  intros HN Hr log_n P total_sum.
  destruct (padded_capacity_nat (Z.of_nat (length arr))) as (_ & Hle); [lia|].
  rewrite Nat2Z.id in Hle. fold log_n in Hle. fold P in Hle.
  destruct (padded_buffer_spec arr P Hle) as (Hlb & Hget).
  pose proof (padded_buffer_range arr P Hle Hr) as Hrb.
  assert (Htot : total_sum = int_sum arr 0 (length arr)).
  { unfold total_sum.
    destruct (upsweep_inv (padded_buffer arr P) log_n Hlb Hrb log_n (Nat.le_refl _)) as [_ Hinv].
    specialize (Hinv log_n 0 (Nat.le_refl _)). simpl in Hinv.
    rewrite Nat.add_0_r in Hinv. fold P in Hinv. rewrite Hinv by (auto; lia).
    rewrite int_sum_wrap, (seg_sum_ext _ arr Hget). f_equal.
    replace P with (length arr + (P - length arr)) at 1 by lia.
    rewrite seg_sum_app, (seg_sum_beyond arr (P - length arr) (0 + length arr)) by lia. lia. }
  split; auto.
  rewrite Htot, sequential_prefix_sum_elements, int_sum_wrap by (auto; lia).
  do 2 f_equal. lia.
Qed.

Lemma upsweep_root_is_total_witness :
  vget (upsweep 8 3 (padded_buffer [12; 34; 21; 45; 23]%Z 8)) 7 =
    int_sum [12; 34; 21; 45; 23]%Z 0 5.
Proof.
  apply (upsweep_root_is_total [12; 34; 21; 45; 23]%Z).
  - simpl. lia.
  - repeat constructor; unfold INT_MIN, INT_MAX; lia.
Defined.

(** ** Reductions over the first [n] elements *)

Lemma vget_take (n : nat) (t : list Z) (i : nat) : i < n -> vget (take n t) i = vget t i.
Proof. intros Hi. unfold vget. now rewrite !nth_lookup, lookup_take_lt. Qed.

Lemma take_vset (n : nat) (t : list Z) (i : nat) (x : Z) :
  i < n -> take n (vset t i x) = vset (take n t) i x.
Proof. intros Hi. unfold vset. now apply take_insert_lt. Qed.

Lemma seg_max_shift (a b : list Z) (len : nat) : forall lo lo',
  (forall j, j < len -> vget a (lo + j) = vget b (lo' + j)) ->
  seg_max a lo len = seg_max b lo' len.
Proof.
  induction len as [|len IH]; intros lo lo' Hag; simpl; auto.
  pose proof (Hag 0 ltac:(lia)) as H0. rewrite !Nat.add_0_r in H0. rewrite H0.
  f_equal. apply IH. intros j Hj. specialize (Hag (S j) ltac:(lia)).
  now replace (S lo + j) with (lo + S j) by lia; replace (S lo' + j) with (lo' + S j) by lia.
Qed.

Lemma seg_max_take (arr : list Z) (n : nat) : seg_max (take n arr) 0 n = seg_max arr 0 n.
Proof. apply seg_max_shift. intros j Hj. simpl. now apply vget_take. Qed.

(** X5.  The linear reductions take the number [n] of elements to scan as an
    argument of its own.  For every [n] up to the size of the array the
    reduction clause, under any schedule, returns what [sequential_max]
    returns, and that is the maximum of the first [n] elements: the elements
    from [n] on are not looked at.  The chunked reduction, with
    [num_threads = omp_get_max_threads()] and a team of [team <= num_threads]
    threads, returns what [sequential_max] returns for the elements of the
    chunks of its team, the first [min(n, team * chunk_size)]; that is what
    [sequential_max] returns for [n] when the team has [num_threads] threads,
    and whenever its chunks reach [n]. *)
Theorem linear_reductions_scan_first_n (arr : list Z) (n : nat) :
  n <= length arr ->
  (forall sched, schedule_of n sched ->
     parallel_max_reduction sched arr n = sequential_max arr n) /\
  (forall num_threads team, 1 <= team <= num_threads ->
     parallel_max_sections num_threads team arr n =
       sequential_max arr (Nat.min (team * ((n + num_threads - 1) / num_threads)) n) /\
     (n <= team * ((n + num_threads - 1) / num_threads) ->
      parallel_max_sections num_threads team arr n = sequential_max arr n)) /\
  (forall num_threads, 1 <= num_threads ->
     parallel_max_sections num_threads num_threads arr n = sequential_max arr n) /\
  sequential_max arr n = sequential_max (take n arr) n /\
  (1 <= n -> Forall int_range arr -> is_max_of (sequential_max arr n) (take n arr)).
Proof.
  intros Hn. rewrite !sequential_max_seg. split; [|split; [|split; [|split]]].
  - intros sched Hs. now apply parallel_max_reduction_seg.
  - intros w team Ht. rewrite sequential_max_seg, parallel_max_sections_team by lia.
    split; [reflexivity|]. intros Hcov. f_equal. lia.
  - intros w Hw. apply parallel_max_sections_seg. lia.
  - symmetry. apply seg_max_take.
  - intros H1 Hr. rewrite <- seg_max_take.
    pose proof (length_take_le arr n Hn) as Hlen.
    rewrite <- Hlen at 2. apply seg_max_is_max.
    + intros Heq. rewrite Heq in Hlen. simpl in Hlen. lia.
    + now apply Forall_take.
Qed.

Lemma linear_reductions_scan_first_n_witness :
  sequential_max [456; 789; 123; 890; 234]%Z 3 = sequential_max [456; 789; 123]%Z 3.
Proof.
  assert (H : 3 <= length [456; 789; 123; 890; 234]%Z) by (simpl; lia).
  exact (proj1 (proj2 (proj2 (proj2
    (linear_reductions_scan_first_n [456; 789; 123; 890; 234]%Z 3 H))))).
Defined.

Lemma tree_body_take (n s i : nat) (m m' : mem) :
  take n (m_temp m) = m_temp m' ->
  take n (m_temp (tree_body n s i m)) = m_temp (tree_body n s i m').
Proof.
  intros HR. unfold tree_body, temp_set, temp_get.
  destruct (Nat.ltb_spec (i + s) n) as [Hlt|Hge]; auto. simpl.
  rewrite take_vset, <- HR, !vget_take by lia. reflexivity.
Qed.

Lemma tree_level_take (n step s : nat) (m m' : mem) :
  take n (m_temp m) = m_temp m' ->
  take n (m_temp (omp_for n step (tree_body n s) m)) =
    m_temp (omp_for n step (tree_body n s) m').
Proof.
  intros HR. unfold omp_for.
  apply (for_loop_rel (fun m m' : mem => take n (m_temp m) = m_temp m')); auto.
  intros i u u'. apply tree_body_take.
Qed.

Lemma tree_while_take (n fuel : nat) : forall s m m',
  take n (m_temp m) = m_temp m' ->
  take n (m_temp (tree_while fuel s n m)) = m_temp (tree_while fuel s n m').
Proof.
  induction fuel as [|fuel IH]; intros s m m' HR; simpl; auto.
  destruct (s <? n); auto. apply IH. now apply tree_level_take.
Qed.

Lemma barrier_loop_take (n l : nat) (st st' : mem * list level_line) :
  take n (m_temp (fst st)) = m_temp (fst st') -> snd st = snd st' ->
  take n (m_temp (fst (for_up l (barrier_level n) st))) =
    m_temp (fst (for_up l (barrier_level n) st')) /\
  snd (for_up l (barrier_level n) st) = snd (for_up l (barrier_level n) st').
Proof.
  intros HR Hs.
  apply (run_iterations_rel
           (fun u u' : mem * list level_line =>
              take n (m_temp (fst u)) = m_temp (fst u') /\ snd u = snd u')
           (barrier_level n) (barrier_level n)); auto.
  intros i u u' [HR' Hs']. unfold barrier_level. simpl.
  pose proof (tree_level_take n (Nat.shiftl 1 i * 2) (Nat.shiftl 1 i) _ _ HR') as Ht.
  split; auto. rewrite Hs', <- Ht, take_take.
  now replace (Nat.min (Nat.min n 16) n) with (Nat.min n 16) by lia.
Qed.

(** X6.  The tree reductions too look at the first [n] elements only: called
    with [1 <= n <= arr.size()] they return, and the reduction with explicit
    barriers prints, what they do on the array cut after [n] elements; for
    [n <= 2^30] and [int] elements the value returned is the maximum of the
    first [n] elements, the one [sequential_max] returns. *)
Theorem tree_reductions_scan_first_n (arr : list Z) (n : nat) :
  1 <= n <= length arr ->
  fst (parallel_max_tree_reduction arr n) = fst (parallel_max_tree_reduction (take n arr) n) /\
  br_max (parallel_max_explicit_barriers arr n) =
    br_max (parallel_max_explicit_barriers (take n arr) n) /\
  br_lines (parallel_max_explicit_barriers arr n) =
    br_lines (parallel_max_explicit_barriers (take n arr) n) /\
  br_steps (parallel_max_explicit_barriers arr n) =
    br_steps (parallel_max_explicit_barriers (take n arr) n) /\
  ((Z.of_nat n <= 2 ^ 30)%Z -> Forall int_range arr ->
     fst (parallel_max_tree_reduction arr n) = sequential_max arr n /\
     br_max (parallel_max_explicit_barriers arr n) = sequential_max arr n).
Proof.
  intros Hn.
  assert (Htree : fst (parallel_max_tree_reduction arr n) =
                  fst (parallel_max_tree_reduction (take n arr) n)).
  { unfold parallel_max_tree_reduction. simpl. unfold temp_get.
    rewrite <- (tree_while_take n n 1 (copy_arr arr) (copy_arr (take n arr)) eq_refl).
    symmetry. apply vget_take. lia. }
  destruct (barrier_loop_take n (Z.to_nat (barrier_levels (Z.of_nat n)))
              (copy_arr arr, []) (copy_arr (take n arr), []) eq_refl eq_refl) as [Hb1 Hb2].
  assert (Hbar : br_max (parallel_max_explicit_barriers arr n) =
                 br_max (parallel_max_explicit_barriers (take n arr) n)).
  { unfold parallel_max_explicit_barriers. simpl. unfold temp_get.
    rewrite <- Hb1. symmetry. apply vget_take. lia. }
  split; [exact Htree|]. split; [exact Hbar|]. split; [exact Hb2|]. split; [reflexivity|].
  intros H30 Hr.
  pose proof (length_take_le arr n ltac:(lia)) as Hlen.
  assert (Hr' : Forall int_range (take n arr)) by now apply Forall_take.
  assert (Hne : take n arr <> []).
  { intros Heq. rewrite Heq in Hlen. simpl in Hlen. lia. }
  pose proof (parallel_max_tree_reduction_seg (take n arr) Hne Hr') as H1.
  pose proof (parallel_max_explicit_barriers_seg (take n arr) ltac:(lia) Hr') as H2.
  rewrite Hlen in H1, H2.
  rewrite Htree, Hbar, sequential_max_seg, <- seg_max_take. split; assumption.
Qed.

Lemma tree_reductions_scan_first_n_witness :
  fst (parallel_max_tree_reduction [456; 789; 123; 890; 234]%Z 3) =
    fst (parallel_max_tree_reduction [456; 789; 123]%Z 3).
Proof.
  assert (H : 1 <= 3 <= length [456; 789; 123; 890; 234]%Z) by (simpl; lia).
  exact (proj1 (tree_reductions_scan_first_n [456; 789; 123; 890; 234]%Z 3 H)).
Defined.

(** ** The empty range and the order of the elements *)

Lemma sections_thread_empty (w : nat) (arr : list Z) (tid : nat) (pm : list Z) :
  0 < w -> sections_thread w arr 0 tid pm = pm.
Proof.
  intros Hw. unfold sections_thread. apply for_range_empty.
  unfold chunk_end. lia.
Qed.

Lemma sections_team_empty (w team : nat) (arr : list Z) (pm : list Z) :
  0 < w -> for_up team (sections_thread w arr 0) pm = pm.
Proof.
  intros Hw. induction team as [|team IH]; [reflexivity|].
  now rewrite for_up_S, IH, sections_thread_empty.
Qed.

(** X7.  With [n = 0] the methods do not agree.  The linear reductions return
    the least [int], the value their accumulator starts with, whatever the
    team of the chunked reduction is.  The tree reductions run no level, print
    no line and return [temp[0]], the first element of the array, when it has
    one.  ([main] rejects [n <= 0] before it calls them.) *)
Theorem reductions_on_empty_range (arr : list Z) :
  sequential_max arr 0 = INT_MIN /\
  (forall num_threads team, 1 <= num_threads ->
     parallel_max_sections num_threads team arr 0 = INT_MIN) /\
  (forall sched, schedule_of 0 sched -> parallel_max_reduction sched arr 0 = INT_MIN) /\
  (forall x rest, arr = x :: rest ->
     fst (parallel_max_tree_reduction arr 0) = x /\
     br_max (parallel_max_explicit_barriers arr 0) = x /\
     br_steps (parallel_max_explicit_barriers arr 0) = 0%Z /\
     br_lines (parallel_max_explicit_barriers arr 0) = []).
Proof.
  split; [reflexivity|]. split; [|split].
  - intros w team Hw.
    transitivity (parallel_max_sections w 0 arr 0).
    + unfold parallel_max_sections. now rewrite sections_team_empty by lia.
    + rewrite parallel_max_sections_team by lia. reflexivity.
  - intros sched Hs. rewrite parallel_max_reduction_seg by auto. reflexivity.
  - intros x rest ->. repeat split.
Qed.

Lemma reductions_on_empty_range_witness :
  parallel_max_sections 4 2 [456; 789]%Z 0 = INT_MIN /\
  fst (parallel_max_tree_reduction [456; 789]%Z 0) = 456%Z.
Proof.
  pose proof (reductions_on_empty_range [456; 789]%Z) as (_ & Hs & _ & Ht).
  split.
  - apply Hs. lia.
  - apply (Ht 456%Z [789%Z]). reflexivity.
Defined.

Lemma is_max_of_unique (m m' : Z) (xs : list Z) : is_max_of m xs -> is_max_of m' xs -> m = m'.
Proof.
  intros [Hin Hub] [Hin' Hub']. pose proof (Hub _ Hin'). pose proof (Hub' _ Hin). lia.
Qed.

Lemma is_max_of_perm (m : Z) (xs ys : list Z) :
  Permutation xs ys -> is_max_of m xs -> is_max_of m ys.
Proof.
  intros Hp [Hin Hub]. split.
  - eapply Permutation_in; eauto.
  - intros x Hx. apply Hub. eapply Permutation_in; [symmetry|]; eauto.
Qed.

(** X8.  The maximum does not depend on the order of the elements: on two
    arrangements of the same non-empty sequence of at most [2^30] [int]s each
    method returns the same value, the chunked reduction when its team has
    [omp_get_max_threads()] threads. *)
Theorem reductions_ignore_order (xs ys : list Z) :
  Permutation xs ys ->
  (1 <= Z.of_nat (length xs) <= 2 ^ 30)%Z -> Forall int_range xs ->
  sequential_max xs (length xs) = sequential_max ys (length ys) /\
  fst (parallel_max_tree_reduction xs (length xs)) =
    fst (parallel_max_tree_reduction ys (length ys)) /\
  br_max (parallel_max_explicit_barriers xs (length xs)) =
    br_max (parallel_max_explicit_barriers ys (length ys)) /\
  (forall w, 1 <= w ->
     parallel_max_sections w w xs (length xs) = parallel_max_sections w w ys (length ys)) /\
  (forall sched sched', schedule_of (length xs) sched -> schedule_of (length ys) sched' ->
     parallel_max_reduction sched xs (length xs) = parallel_max_reduction sched' ys (length ys)).
Proof.
  intros Hp HN Hr.
  pose proof (Permutation_length Hp) as Hlen.
  assert (Hr' : Forall int_range ys) by (eapply Permutation_Forall; eauto).
  assert (Hne : xs <> []) by (destruct xs; simpl in *; [lia|congruence]).
  assert (Hne' : ys <> []) by (destruct ys; simpl in *; [lia|congruence]).
  assert (Hseg : seg_max xs 0 (length xs) = seg_max ys 0 (length ys)).
  { apply (is_max_of_unique _ _ ys).
    - apply (is_max_of_perm _ xs); auto. now apply seg_max_is_max.
    - now apply seg_max_is_max. }
  rewrite !sequential_max_seg.
  rewrite !parallel_max_tree_reduction_seg by auto.
  rewrite !parallel_max_explicit_barriers_seg by (auto; lia).
  split; [exact Hseg|]. split; [exact Hseg|]. split; [exact Hseg|]. split.
  - intros w Hw. rewrite !parallel_max_sections_seg by lia. exact Hseg.
  - intros sched sched' Hs Hs'. rewrite !parallel_max_reduction_seg by auto. exact Hseg.
Qed.

Lemma reductions_ignore_order_witness :
  sequential_max [456; 789; 123]%Z 3 = sequential_max [789; 456; 123]%Z 3.
Proof.
  apply (reductions_ignore_order [456; 789; 123]%Z [789; 456; 123]%Z).
  - apply perm_swap.
  - simpl. lia.
  - repeat constructor; unfold INT_MIN, INT_MAX; lia.
Defined.

(** ** The two programs *)

Lemma Forall_from_vget (P : Z -> Prop) (a : list Z) :
  (forall i, i < length a -> P (vget a i)) -> Forall P a.
Proof.
  intros H. apply Forall_lookup. intros i x Hx.
  rewrite <- (vget_lookup _ _ _ Hx). apply H. eapply lookup_lt_Some; eauto.
Qed.

Lemma random_array_spec (n : nat) (value : Z -> Z) (rand : nat -> Z) :
  length (random_array n value rand) = n /\
  forall i, i < n -> vget (random_array n value rand) i = value (rand i).
Proof.
  unfold random_array.
  destruct (for_up_fill (fun i => value (rand i)) (replicate n 0%Z) n) as (Hl & Hin & _).
  { now rewrite length_replicate. }
  rewrite length_replicate in Hl. auto.
Qed.

Lemma random_array_Forall (P : Z -> Prop) (n : nat) (value : Z -> Z) (rand : nat -> Z) :
  (forall i, P (value (rand i))) -> Forall P (random_array n value rand).
Proof.
  intros H. destruct (random_array_spec n value rand) as [Hl Hv].
  apply Forall_from_vget. intros i Hi. rewrite Hv by lia. apply H.
Qed.

Lemma verify_arrays_refl (a : list Z) : verify_arrays a a = Pass.
Proof.
  unfold verify_arrays. rewrite Nat.eqb_refl. simpl.
  pose proof (verify_loop_spec a a (length a) 0 eq_refl ltac:(lia) ltac:(lia)) as H.
  destruct (verify_loop (length a) 0 a a) as [| |k x y|k]; auto; try contradiction.
  destruct H as (Ha & Hb & Hxy & _). congruence.
Qed.

(** X9.  The program [parallel_maximum]: a size [n <= 0] is rejected with exit
    code 1 before any method runs.  For [1 <= n <= 2^30], whatever values
    [rand()] returns, whatever the schedule of the reduction clause and
    whatever the team of the chunked reduction, of 1 to 4 threads, the exit
    code is 0; the reduction clause, the two tree reductions and the
    sequential scan report the same maximum [m], an element of the generated
    array, between 0 and 999; the chunked reduction reports the maximum [m3]
    of the chunks of its team, at most [m]; and the verification prints PASSED
    exactly when [m3 = m], which is the case when the team has the 4 threads
    that [main] asks for. *)
Theorem maximum_program_passes (n : Z) (rand : nat -> Z) (sched : list (list nat))
    (team : nat) :
  ((n <= 0)%Z -> ParallelMaximum.main n rand sched team = (1%Z, None)) /\
  ((1 <= n <= 2 ^ 30)%Z -> (forall i, (0 <= rand i)%Z) -> schedule_of (Z.to_nat n) sched ->
   1 <= team <= 4 ->
   let arr := random_array (Z.to_nat n) (fun r => Z.rem r 1000) rand in
   exists m m3,
     ParallelMaximum.main n rand sched team =
       (0%Z, Some {| mx_reduction := m; mx_tree := m; mx_sections := m3; mx_barriers := m;
                     mx_sequential := m; mx_all_correct := (m3 =? m)%Z |}) /\
     (0 <= m <= 999)%Z /\ is_max_of m arr /\
     m3 = sequential_max arr (Nat.min (team * ((Z.to_nat n + 4 - 1) / 4)) (Z.to_nat n)) /\
     (m3 <= m)%Z /\
     (team = 4 -> m3 = m)).
Proof.
  split.
  - intros Hn. unfold ParallelMaximum.main. destruct (Z.leb_spec n 0); [reflexivity|lia].
  - intros Hn Hrand Hs Hteam. cbv zeta.
    set (arr := random_array (Z.to_nat n) (fun r => Z.rem r 1000) rand).
    unfold ParallelMaximum.main. destruct (Z.leb_spec n 0) as [|_]; [lia|]. fold arr.
    destruct (random_array_spec (Z.to_nat n) (fun r => Z.rem r 1000) rand) as [Hl Hv].
    fold arr in Hl, Hv.
    assert (Hval : Forall (fun x => 0 <= x <= 999)%Z arr).
    { apply random_array_Forall. intros i.
      pose proof (Z.rem_bound_pos (rand i) 1000 (Hrand i) ltac:(lia)). lia. }
    assert (Hr : Forall int_range arr).
    { eapply Forall_impl; [exact Hval|]. unfold int_range, INT_MIN, INT_MAX.
      intros x Hx. simpl in Hx. lia. }
    assert (HN : (1 <= Z.of_nat (length arr) <= 2 ^ 30)%Z) by (rewrite Hl; lia).
    assert (Hne : arr <> []) by (intros Heq; rewrite Heq in Hl; simpl in Hl; lia).
    pose proof (seg_max_is_max arr Hne Hr) as Hmax.
    rewrite <- Hl in Hs |- *.
    rewrite parallel_max_reduction_seg, parallel_max_tree_reduction_seg,
      parallel_max_explicit_barriers_seg, !sequential_max_seg by (auto; lia).
    rewrite parallel_max_sections_team by lia.
    set (m := seg_max arr 0 (length arr)) in *.
    set (k := Nat.min (team * ((length arr + 4 - 1) / 4)) (length arr)).
    exists m, (seg_max arr 0 k).
    assert (Hle : (seg_max arr 0 k <= m)%Z).
    { pose proof (seg_max_app arr k 0 (length arr - k)) as Hsplit.
      replace (k + (length arr - k)) with (length arr) in Hsplit by (unfold k; lia).
      unfold m. lia. }
    split; [|split; [|split; [|split; [|split]]]]; auto.
    + rewrite !Z.eqb_refl, (Z.eqb_sym m (seg_max arr 0 k)).
      simpl. now rewrite andb_true_r, andb_diag.
    + destruct Hmax as [Hin _]. rewrite Forall_forall in Hval.
      apply (Hval _). now apply list_elem_of_In.
    + intros ->. unfold m, k. f_equal.
      pose proof (chunks_cover 4 (length arr) ltac:(lia)). lia.
Qed.

Lemma maximum_program_passes_witness :
  ParallelMaximum.main 0 (fun i => Z.of_nat i) [] 4 = (1%Z, None) /\
  exists m m3,
    ParallelMaximum.main 3 (fun i => 1997 + Z.of_nat i)%Z [[2]; [0; 1]] 2 =
      (0%Z, Some {| mx_reduction := m; mx_tree := m; mx_sections := m3; mx_barriers := m;
                    mx_sequential := m; mx_all_correct := (m3 =? m)%Z |}).
Proof.
  split.
  - apply maximum_program_passes. lia.
  - assert (Hn : (1 <= 3 <= 2 ^ 30)%Z) by lia.
    assert (Hr : forall i, (0 <= 1997 + Z.of_nat i)%Z) by (intros i; lia).
    assert (Hs : schedule_of (Z.to_nat 3) [[2]; [0; 1]]).
    { unfold schedule_of. simpl.
      change [2; 0; 1] with ([2] ++ [0; 1]). now rewrite Permutation_app_comm. }
    assert (Ht : 1 <= 2 <= 4) by lia.
    destruct (proj2 (maximum_program_passes 3 (fun i => 1997 + Z.of_nat i)%Z [[2]; [0; 1]] 2)
                Hn Hr Hs Ht) as (m & m3 & Hmain & _).
    exists m, m3. exact Hmain.
Defined.

(** X10.  The program [prefix_sum_scan]: a size [n <= 0] is rejected with exit
    code 1.  For [1 <= n <= 2^30], whatever values [rand()] returns and
    whatever the teams of the block scan, of 1 to 4 threads each: no exception
    leaves [main], the exit code is 0, the Blelloch scan passes the
    verification against the sequential scan, the total printed is the [int]
    sum of the generated array, whose elements are between 1 and 100, and the
    final status is the verification of the block scan; that one is PASSED
    when both teams have the 4 threads that [main] asks for. *)
Theorem scan_program_passes (n : Z) (rand : nat -> Z) (team1 team3 : nat) :
  ((n <= 0)%Z -> PrefixSumScan.main n rand team1 team3 = inr (1%Z, None)) /\
  ((1 <= n <= 2 ^ 30)%Z -> (forall i, (0 <= rand i)%Z) ->
   1 <= team1 <= 4 -> 1 <= team3 <= 4 ->
   let arr := random_array (Z.to_nat n) (fun r => add32 (Z.rem r 100) 1) rand in
   (exists block_verified,
      PrefixSumScan.main n rand team1 team3 =
        inr (0%Z, Some {| ss_blelloch_verified := true; ss_block_verified := block_verified;
                          ss_total := int_sum arr 0 (length arr);
                          ss_all_methods := block_verified |}) /\
      (team1 = 4 -> team3 = 4 -> block_verified = true)) /\
   length arr = Z.to_nat n /\
   Forall (fun x => 1 <= x <= 100)%Z arr).
Proof.
  split.
  - intros Hn. unfold PrefixSumScan.main. destruct (Z.leb_spec n 0); [reflexivity|lia].
  - intros Hn Hrand Ht1 Ht3. cbv zeta.
    set (arr := random_array (Z.to_nat n) (fun r => add32 (Z.rem r 100) 1) rand).
    unfold PrefixSumScan.main. destruct (Z.leb_spec n 0) as [|_]; [lia|]. fold arr.
    destruct (random_array_spec (Z.to_nat n) (fun r => add32 (Z.rem r 100) 1) rand) as [Hl Hv].
    fold arr in Hl, Hv.
    assert (Hval : Forall (fun x => 1 <= x <= 100)%Z arr).
    { apply random_array_Forall. intros i.
      pose proof (Z.rem_bound_pos (rand i) 100 (Hrand i) ltac:(lia)).
      unfold add32. rewrite wrap32_id; [lia|]. unfold int_range, INT_MIN, INT_MAX. lia. }
    assert (Hr : Forall int_range arr).
    { eapply Forall_impl; [exact Hval|]. unfold int_range, INT_MIN, INT_MAX.
      intros x Hx. simpl in Hx. lia. }
    assert (HN : (1 <= Z.of_nat (length arr) <= 2 ^ 30)%Z) by (rewrite Hl; lia).
    destruct (parallel_prefix_sum_blelloch_correct arr HN Hr) as [report ->].
    assert (Hblock : parallel_prefix_sum_recursive 4 4 4 arr = sequential_prefix_sum arr).
    { destruct (parallel_prefix_sum_recursive_elements 4 arr ltac:(lia)) as (Hl4 & Hel).
      apply vec_ext; [now rewrite sequential_prefix_sum_length|].
      intros i Hi. rewrite Hl4 in Hi. now rewrite Hel, sequential_prefix_sum_elements. }
    rewrite verify_arrays_refl. simpl.
    split; [|split; auto].
    eexists. split.
    + do 4 f_equal. rewrite <- Hl.
      rewrite sequential_prefix_sum_elements, int_sum_wrap by (auto; lia).
      do 2 f_equal. lia.
    + intros -> ->. now rewrite Hblock, verify_arrays_refl.
Qed.

Lemma scan_program_passes_witness :
  PrefixSumScan.main 0 (fun i => Z.of_nat i) 4 4 = inr (1%Z, None) /\
  PrefixSumScan.main 3 (fun i => 250 + Z.of_nat i)%Z 4 4 =
    inr (0%Z, Some {| ss_blelloch_verified := true; ss_block_verified := true;
                      ss_total := 156; ss_all_methods := true |}).
Proof.
  split.
  - apply scan_program_passes. lia.
  - assert (Hn : (1 <= 3 <= 2 ^ 30)%Z) by lia.
    assert (Hr : forall i, (0 <= 250 + Z.of_nat i)%Z) by (intros i; lia).
    assert (Ht : 1 <= 4 <= 4) by lia.
    destruct (proj1 (proj2 (scan_program_passes 3 (fun i => 250 + Z.of_nat i)%Z 4 4)
                       Hn Hr Ht Ht)) as (v & Hmain & Hv).
    rewrite Hmain, (Hv eq_refl eq_refl). reflexivity.
Defined.

(** ** Sums that stay within [int] *)

Lemma seg_sum_bounds (M : Z) (xs : list Z) (len : nat) : forall lo,
  Forall (fun x => 0 <= x <= M)%Z xs -> lo + len <= length xs ->
  (0 <= seg_sum xs lo len <= M * Z.of_nat len)%Z.
Proof.
  induction len as [|len IH]; intros lo Hxs Hlen.
  - simpl. lia.
  - specialize (IH (S lo) Hxs ltac:(lia)).
    pose proof (Forall_vget _ xs lo Hxs ltac:(lia)) as Hlo. simpl in Hlo.
    cbn [seg_sum]. lia.
Qed.

(** X11.  When the elements are between 0 and [M] and [M] times their number
    is at most [INT_MAX], no addition of a scan overflows: the sequential scan,
    and the block scan with [num_threads = omp_get_max_threads() >= 1] and
    teams of [num_threads] threads, return the exact sums of the prefixes,
    which are between 0 and [M * (i + 1)] and do not decrease with the
    index. *)
Theorem prefix_sums_exact (M : Z) (xs : list Z) (num_threads : nat) :
  Forall (fun x => 0 <= x <= M)%Z xs -> (M * Z.of_nat (length xs) <= INT_MAX)%Z ->
  0 < num_threads ->
  forall i, i < length xs ->
    vget (sequential_prefix_sum xs) i = seg_sum xs 0 (i + 1) /\
    vget (parallel_prefix_sum_recursive num_threads num_threads num_threads xs) i =
      seg_sum xs 0 (i + 1) /\
    (0 <= seg_sum xs 0 (i + 1) <= M * Z.of_nat (i + 1))%Z /\
    (i + 1 < length xs ->
     (vget (sequential_prefix_sum xs) i <= vget (sequential_prefix_sum xs) (i + 1))%Z).
Proof.
  intros Hxs HM Hw.
  assert (HM0 : length xs <> 0 -> (0 <= M)%Z).
  { intros Hne. pose proof (Forall_vget _ xs 0 Hxs ltac:(lia)) as H0. simpl in H0. lia. }
  assert (Hr : Forall int_range xs).
  { apply Forall_from_vget. intros j Hj.
    pose proof (Forall_vget _ xs j Hxs Hj) as Hx. simpl in Hx.
    specialize (HM0 ltac:(lia)). unfold int_range, INT_MIN, INT_MAX in *. nia. }
  assert (Hex : forall j, j < length xs -> wrap32 (seg_sum xs 0 (j + 1)) = seg_sum xs 0 (j + 1)).
  { intros j Hj. apply wrap32_id.
    pose proof (seg_sum_bounds M xs (j + 1) 0 Hxs ltac:(lia)).
    specialize (HM0 ltac:(lia)). unfold int_range, INT_MIN, INT_MAX in *. nia. }
  intros i Hi.
  destruct (parallel_prefix_sum_recursive_elements num_threads xs Hw) as [_ Hrec].
  rewrite sequential_prefix_sum_elements, Hrec, Hex by auto.
  split; [reflexivity|]. split; [reflexivity|]. split.
  - apply (seg_sum_bounds M xs (i + 1) 0 Hxs). lia.
  - intros Hi'. rewrite sequential_prefix_sum_elements, Hex by auto.
    replace (i + 1 + 1) with (S (i + 1)) by lia. rewrite seg_sum_snoc.
    pose proof (Forall_vget _ xs (0 + (i + 1)) Hxs ltac:(lia)) as Hx. simpl in Hx.
    simpl. lia.
Qed.

Lemma prefix_sums_exact_witness :
  vget (sequential_prefix_sum [3; 1; 4; 1; 5]%Z) 4 = seg_sum [3; 1; 4; 1; 5]%Z 0 5.
Proof.
  assert (Hxs : Forall (fun x => 0 <= x <= 100)%Z [3; 1; 4; 1; 5]%Z)
    by (repeat constructor; lia).
  assert (HM : (100 * Z.of_nat (length [3; 1; 4; 1; 5]%Z) <= INT_MAX)%Z)
    by (unfold INT_MAX; simpl; lia).
  assert (Hw : 0 < 4) by lia.
  assert (Hi : 4 < length [3; 1; 4; 1; 5]%Z) by (simpl; lia).
  exact (proj1 (prefix_sums_exact 100 [3; 1; 4; 1; 5]%Z 4 Hxs HM Hw 4 Hi)).
Defined.

(** ** The levels of the tree reductions *)

Lemma tree_levels_S (n first count : nat) (m : mem) :
  tree_levels n first (S count) m =
    tree_level n (2 ^ (first + count)) (tree_levels n first count m).
Proof. unfold tree_levels. now rewrite seq_S, fold_left_app. Qed.

Lemma tree_while_levels (n : nat) : forall count first fuel m,
  (forall j, j < count -> 2 ^ (first + j) < n) -> n <= 2 ^ (first + count) -> count <= fuel ->
  tree_while fuel (2 ^ first) n m = tree_levels n first count m.
Proof.
  induction count as [|count IH]; intros first fuel m Hlt Hge Hfuel.
  - rewrite Nat.add_0_r in Hge. destruct fuel as [|fuel]; simpl; auto.
    destruct (Nat.ltb_spec (2 ^ first) n); [lia|reflexivity].
  - destruct fuel as [|fuel]; [lia|]. simpl.
    pose proof (Hlt 0 ltac:(lia)) as H0. rewrite Nat.add_0_r in H0.
    destruct (Nat.ltb_spec (2 ^ first) n); [|lia].
    replace (2 ^ first * 2) with (2 ^ S first) by (simpl; lia).
    rewrite (IH (S first)); [reflexivity| | |lia].
    + intros j Hj. replace (S first + j) with (first + S j) by lia. apply Hlt. lia.
    + now replace (S first + count) with (first + S count) by lia.
Qed.

Lemma level_count_nat (n : nat) :
  1 <= n ->
  let L := Z.to_nat (ceil_log2 (Z.of_nat n)) in
  (forall l, l < L -> 2 ^ l < n) /\ n <= 2 ^ L /\ L <= n.
Proof.
  intros Hn L.
  destruct (ceil_log2_least (Z.of_nat n) ltac:(lia)) as (H0 & _ & Hleast).
  destruct (padded_capacity_nat (Z.of_nat n) ltac:(lia)) as [_ Hcap].
  rewrite Nat2Z.id in Hcap. fold L in Hcap.
  assert (Hlt : forall l, l < L -> 2 ^ l < n).
  { intros l Hl. destruct (Nat.lt_ge_cases (2 ^ l) n) as [|Hge]; auto.
    specialize (Hleast (Z.of_nat l) ltac:(lia)).
    assert (Hpow : (Z.of_nat (2 ^ l) = 2 ^ Z.of_nat l)%Z) by apply (Nat2Z.inj_pow 2 l).
    assert (Z.of_nat n <= 2 ^ Z.of_nat l)%Z by lia.
    unfold L in Hl. lia. }
  split; [exact Hlt|]. split; [exact Hcap|].
  destruct L as [|L']; [lia|].
  pose proof (Hlt L' ltac:(lia)). pose proof (Nat.pow_gt_lin_r 2 L' ltac:(lia)). lia.
Qed.

Lemma barrier_loop_levels (n l : nat) (st : mem * list level_line) :
  fst (for_up l (barrier_level n) st) = tree_levels n 0 l (fst st).
Proof.
  induction l as [|l IH]; [reflexivity|].
  rewrite for_up_S, tree_levels_S. unfold barrier_level at 1. simpl fst.
  rewrite IH, Nat.shiftl_1_l. unfold tree_level. simpl Nat.add. f_equal. lia.
Qed.

Lemma barrier_loop_lines (n l : nat) (st : mem * list level_line) :
  snd (for_up l (barrier_level n) st) =
    snd st ++ map (fun k => {| ll_level := k; ll_stride := 2 ^ k;
                               ll_temp := take (Nat.min n 16)
                                            (m_temp (tree_levels n 0 (S k) (fst st))) |})
                  (seq 0 l).
Proof.
  induction l as [|l IH]; [simpl; now rewrite app_nil_r|].
  rewrite for_up_S. unfold barrier_level at 1. simpl snd.
  rewrite IH, barrier_loop_levels, seq_S, map_app, app_assoc. simpl.
  rewrite tree_levels_S, Nat.shiftl_1_l. unfold tree_level. simpl Nat.add.
  replace (2 ^ l * 2) with (2 * 2 ^ l) by lia. reflexivity.
Qed.

(** X12.  The loop [while (stride < n) ... stride *= 2] of
    [parallel_max_tree_reduction] runs exactly [ceil(log2(n))] levels, with the
    strides [1, 2, 4, ...]: the condition holds before each of them and fails
    after the last.  These are the levels that the counted loop of
    [parallel_max_explicit_barriers] runs, so that the two functions leave the
    same [temp] and return the same value, whatever the elements are. *)
Theorem tree_reduction_runs_all_levels (arr : list Z) (n : nat) :
  (1 <= Z.of_nat n <= 2 ^ 30)%Z -> n <= length arr ->
  let L := Z.to_nat (ceil_log2 (Z.of_nat n)) in
  (forall l, l < L -> 2 ^ l < n) /\ n <= 2 ^ L /\
  tree_while n 1 n (copy_arr arr) = tree_levels n 0 L (copy_arr arr) /\
  fst (for_up (Z.to_nat (barrier_levels (Z.of_nat n))) (barrier_level n) (copy_arr arr, [])) =
    tree_levels n 0 L (copy_arr arr) /\
  br_max (parallel_max_explicit_barriers arr n) = fst (parallel_max_tree_reduction arr n).
Proof.
  intros Hn _ L. destruct (level_count_nat n ltac:(lia)) as (Hlt & Hge & Hfuel). fold L in Hlt, Hge, Hfuel.
  assert (Hw : tree_while n 1 n (copy_arr arr) = tree_levels n 0 L (copy_arr arr)).
  { apply (tree_while_levels n L 0 n); auto. }
  assert (Hb : fst (for_up (Z.to_nat (barrier_levels (Z.of_nat n))) (barrier_level n)
                      (copy_arr arr, [])) = tree_levels n 0 L (copy_arr arr)).
  { rewrite barrier_levels_spec by (unfold INT_MAX; simpl in Hn; lia).
    apply barrier_loop_levels. }
  repeat split; auto.
  unfold parallel_max_explicit_barriers, parallel_max_tree_reduction. simpl.
  now rewrite Hb, Hw.
Qed.

Lemma tree_reduction_runs_all_levels_witness :
  br_max (parallel_max_explicit_barriers [456; 789; 123; 890; 234]%Z 5) =
    fst (parallel_max_tree_reduction [456; 789; 123; 890; 234]%Z 5).
Proof.
  assert (Hn : (1 <= Z.of_nat 5 <= 2 ^ 30)%Z) by lia.
  assert (Hl : 5 <= length [456; 789; 123; 890; 234]%Z) by (simpl; lia).
  exact (proj2 (proj2 (proj2 (proj2
    (tree_reduction_runs_all_levels [456; 789; 123; 890; 234]%Z 5 Hn Hl))))).
Defined.

(** X13.  The lines that [parallel_max_explicit_barriers] prints, for a non-empty
    array of at most [2^30] [int]s: there is one line for each of the
    synchronization steps it announces; line [k] shows level [k], stride [2^k]
    and the first [min(n, 16)] elements of [temp]; in it every element at a
    multiple of [2^(k+1)] is the maximum of the block of [2^(k+1)] elements of
    the array that starts there, cut at the end of the array; and the first
    element of the last line is the maximum the function returns. *)
Theorem explicit_barriers_trace (arr : list Z) :
  (1 <= Z.of_nat (length arr) <= 2 ^ 30)%Z -> Forall int_range arr ->
  let n := length arr in
  let r := parallel_max_explicit_barriers arr n in
  Z.of_nat (length (br_lines r)) = br_steps r /\
  forall k, k < length (br_lines r) ->
    exists t,
      br_lines r !! k = Some {| ll_level := k; ll_stride := 2 ^ k; ll_temp := t |} /\
      length t = Nat.min n 16 /\
      (forall j, j * 2 ^ (k + 1) < Nat.min n 16 ->
         vget t (j * 2 ^ (k + 1)) =
           seg_max arr (j * 2 ^ (k + 1)) (Nat.min (2 ^ (k + 1)) (n - j * 2 ^ (k + 1)))) /\
      (S k = length (br_lines r) -> vget t 0 = br_max r).
Proof.
  intros HN Hr n r.
  assert (Hn : 1 <= n) by (unfold n; lia).
  destruct (level_count_nat n Hn) as (Hlt & Hge & _).
  set (L := Z.to_nat (ceil_log2 (Z.of_nat n))) in *.
  assert (Hsteps : br_steps r = ceil_log2 (Z.of_nat n)).
  { unfold r, parallel_max_explicit_barriers. simpl.
    apply barrier_levels_spec. unfold INT_MAX, n. simpl in HN. lia. }
  assert (Hlines : br_lines r =
            map (fun k => {| ll_level := k; ll_stride := 2 ^ k;
                             ll_temp := take (Nat.min n 16)
                                          (m_temp (tree_levels n 0 (S k) (copy_arr arr))) |})
                (seq 0 L)).
  { unfold r, parallel_max_explicit_barriers. cbn [br_lines].
    rewrite barrier_loop_lines.
    rewrite (barrier_levels_spec (Z.of_nat n))
      by (unfold INT_MAX, n; simpl in HN; lia).
    reflexivity. }
  assert (Hmax : br_max r = seg_max arr 0 n)
    by (apply parallel_max_explicit_barriers_seg; auto).
  assert (Hlen : length (br_lines r) = L) by (rewrite Hlines, length_map, length_seq; reflexivity).
  split.
  { rewrite Hlen, Hsteps. unfold L.
    pose proof (Z.log2_up_nonneg (Z.of_nat n)). unfold ceil_log2. lia. }
  intros k Hk. rewrite Hlen in Hk.
  destruct (barrier_loop_spec arr (S k) Hr) as [[Hl Hinv] _].
  rewrite barrier_loop_levels in Hl, Hinv. simpl fst in Hl, Hinv. fold n in Hl, Hinv.
  set (t := m_temp (tree_levels n 0 (S k) (copy_arr arr))) in *.
  exists (take (Nat.min n 16) t). split; [|split; [|split]].
  - rewrite Hlines, list_lookup_fmap. rewrite (lookup_seq_lt 0 L k Hk). reflexivity.
  - rewrite length_take. lia.
  - replace (k + 1) with (S k) by lia.
    intros j Hj. rewrite vget_take by lia. apply Hinv. unfold n in *. lia.
  - intros HL. rewrite vget_take by lia. rewrite Hmax.
    specialize (Hinv 0 ltac:(lia)). simpl Nat.mul in Hinv. rewrite Hinv.
    f_equal. rewrite Hlen in HL. rewrite HL. lia.
Qed.

Lemma explicit_barriers_trace_witness :
  Z.of_nat (length (br_lines (parallel_max_explicit_barriers [456; 789; 123; 890; 234]%Z 5))) =
    br_steps (parallel_max_explicit_barriers [456; 789; 123; 890; 234]%Z 5).
Proof.
  assert (HN : (1 <= Z.of_nat (length [456; 789; 123; 890; 234]%Z) <= 2 ^ 30)%Z)
    by (simpl; lia).
  assert (Hr : Forall int_range [456; 789; 123; 890; 234]%Z)
    by (repeat constructor; unfold INT_MIN, INT_MAX; lia).
  exact (proj1 (explicit_barriers_trace [456; 789; 123; 890; 234]%Z HN Hr)).
Defined.

(** ** The three phases of the block scan *)

Lemma run_iterations_inv {St : Type} (P : St -> Prop) (body : nat -> St -> St) :
  (forall i s, P s -> P (body i s)) ->
  forall order s, P s -> P (run_iterations order body s).
Proof.
  intros Hbody. unfold run_iterations.
  induction order as [|i order IH]; intros s HP; simpl; auto.
Qed.

Lemma vget_int_range (a : list Z) (i : nat) : Forall int_range a -> int_range (vget a i).
Proof.
  intros Ha. destruct (Nat.lt_ge_cases i (length a)) as [Hi|Hi].
  - now apply Forall_vget.
  - unfold vget. rewrite nth_overflow by lia. unfold int_range, INT_MIN, INT_MAX. lia.
Qed.

Lemma vset_int_range (a : list Z) (i : nat) (x : Z) :
  Forall int_range a -> int_range x -> Forall int_range (vset a i x).
Proof. intros Ha Hx. unfold vset. now apply Forall_insert. Qed.

Lemma replicate_int_range (n : nat) : Forall int_range (replicate n 0%Z).
Proof. apply Forall_replicate. unfold int_range, INT_MIN, INT_MAX. lia. Qed.

Lemma block_scan_thread_range (w : nat) (arr : list Z) (tid : nat) (st : list Z * list Z) :
  Forall int_range arr ->
  Forall int_range (fst st) /\ Forall int_range (snd st) ->
  Forall int_range (fst (block_scan_thread w arr tid st)) /\
  Forall int_range (snd (block_scan_thread w arr tid st)).
Proof.
  intros Harr [H1 H2]. unfold block_scan_thread.
  destruct (chunk_start w (length arr) tid <? chunk_end w (length arr) tid); [|auto].
  match goal with
  | |- context [for_range ?lo ?hi ?b ?s0] =>
      assert (Hinv : Forall int_range (fst (for_range lo hi b s0)) /\
                     int_range (snd (for_range lo hi b s0)))
  end.
  { apply (run_iterations_inv
             (fun s : list Z * Z => Forall int_range (fst s) /\ int_range (snd s))).
    - intros i [result local_sum] [Hr Hs]. simpl. split.
      + apply vset_int_range; auto. apply wrap32_range.
      + apply wrap32_range.
    - simpl. split.
      + apply vset_int_range; auto. now apply vget_int_range.
      + now apply vget_int_range. }
  match goal with
  | |- context [for_range ?lo ?hi ?b ?s0] => destruct (for_range lo hi b s0) as [result local_sum]
  end.
  simpl in *. destruct Hinv as [Hr Hs]. split; auto. now apply vset_int_range.
Qed.

Lemma block_scan_threads_range (w : nat) (arr : list Z) (k : nat) :
  Forall int_range arr ->
  let st := for_up k (block_scan_thread w arr) (replicate (length arr) 0%Z, replicate w 0%Z) in
  Forall int_range (fst st) /\ Forall int_range (snd st).
Proof.
  intros Harr.
  apply (run_iterations_inv
           (fun s : list Z * list Z => Forall int_range (fst s) /\ Forall int_range (snd s))).
  - intros i s Hs. now apply block_scan_thread_range.
  - simpl. split; apply replicate_int_range.
Qed.

Lemma block_prefix_sums_range (w : nat) (block_sums : list Z) :
  Forall int_range (block_prefix_sums w block_sums).
Proof.
  unfold block_prefix_sums.
  apply (run_iterations_inv (Forall int_range)).
  - intros i s Hs. apply vset_int_range; auto. apply wrap32_range.
  - apply vset_int_range; [apply replicate_int_range|].
    unfold int_range, INT_MIN, INT_MAX. lia.
Qed.

(** X14.  The block scan, phase by phase, with
    [num_threads = omp_get_max_threads() >= 1] and teams of [team1] and
    [team3] threads, at most [num_threads], in its two parallel regions.  For
    every chunk [tid] and every index [i] of it: when thread [tid] is in the
    first team, after phase 1 [result[i]] is the [int] sum of the chunk up to
    [i] and [block_sums[tid]] the [int] sum of the whole chunk, and after
    phase 2 [block_prefix[tid]] is the [int] sum of all the elements before the
    chunk; when it is not, [result[i]] and [block_sums[tid]] are still 0.  The
    element returned at [i] is the sum of [result[i]] and [block_prefix[tid]]
    when thread [tid] is in the second team and [result[i]] when it is not;
    it is the [int] sum of the first [i + 1] elements when thread [tid] is in
    both teams. *)
Theorem block_scan_phases (num_threads team1 team3 : nat) (arr : list Z) :
  0 < num_threads -> team1 <= num_threads -> team3 <= num_threads ->
  Forall int_range arr ->
  let n := length arr in
  let st := for_up team1 (block_scan_thread num_threads arr)
              (replicate n 0%Z, replicate num_threads 0%Z) in
  let block_prefix := block_prefix_sums num_threads (snd st) in
  let returned := parallel_prefix_sum_recursive num_threads team1 team3 arr in
  forall tid i, tid < num_threads ->
    chunk_start num_threads n tid <= i < chunk_end num_threads n tid ->
    (tid < team1 ->
       vget (fst st) i =
         int_sum arr (chunk_start num_threads n tid) (i + 1 - chunk_start num_threads n tid) /\
       vget (snd st) tid =
         int_sum arr (chunk_start num_threads n tid)
           (chunk_end num_threads n tid - chunk_start num_threads n tid) /\
       vget block_prefix tid = int_sum arr 0 (chunk_start num_threads n tid)) /\
    (team1 <= tid -> vget (fst st) i = 0%Z /\ vget (snd st) tid = 0%Z) /\
    (tid < team3 -> vget returned i = add32 (vget (fst st) i) (vget block_prefix tid)) /\
    (team3 <= tid -> vget returned i = vget (fst st) i) /\
    (tid < team1 -> tid < team3 -> vget returned i = int_sum arr 0 (i + 1)).
Proof.
  intros Hw Ht1 Ht3 Harr n st block_prefix returned tid i Htid Hi.
  destruct (block_scan_threads_spec num_threads arr team1 Ht1)
    as (Hl1 & Hl2 & Hres & Hsums & Hzero & Hrest).
  destruct (block_scan_threads_range num_threads arr team1 Harr) as [Hr1 Hr2].
  fold n in Hl1, Hl2, Hres, Hsums, Hzero, Hrest, Hr1, Hr2.
  fold st in Hl1, Hl2, Hres, Hsums, Hzero, Hrest, Hr1, Hr2.
  destruct (block_prefix_sums_spec num_threads team1 arr (snd st) Hw Hsums) as (Hlbp & Hbp).
  fold n in Hbp. fold block_prefix in Hlbp, Hbp.
  pose proof (block_prefix_sums_range num_threads (snd st)) as Hr3. fold block_prefix in Hr3.
  assert (Hend : chunk_end num_threads n tid <= n) by (unfold chunk_end; lia).
  destruct (chunk_bounds num_threads n tid) as [Hs He].
  destruct (block_add_threads_spec num_threads n block_prefix (fst st) team3 Hl1)
    as (_ & Hadd & Hkeep).
  assert (Hret : returned = for_up team3 (block_add_thread num_threads n block_prefix) (fst st)).
  { unfold returned, parallel_prefix_sum_recursive. fold n.
    destruct (Nat.eqb_spec n 0) as [H0|Hn]; [lia|].
    fold st. unfold block_prefix. destruct st as [result block_sums]. reflexivity. }
  rewrite !int_sum_wrap. split; [|split; [|split; [|split]]].
  - intros Hin. split; [|split].
    + rewrite <- (Hres tid i Hin Hi). symmetry. apply wrap32_id. now apply vget_int_range.
    + rewrite <- (Hsums tid Hin). symmetry. apply wrap32_id. now apply vget_int_range.
    + specialize (Hbp tid Htid ltac:(lia)). rewrite <- Hs in Hbp.
      replace (Nat.min (chunk_start num_threads n tid) n) with (chunk_start num_threads n tid)
        in Hbp by lia.
      rewrite <- Hbp. symmetry. apply wrap32_id. now apply vget_int_range.
  - intros Hout. split.
    + apply Hrest. split; [|lia].
      pose proof (Nat.mul_le_mono_r _ _ ((n + num_threads - 1) / num_threads) Hout). lia.
    + apply Hzero. lia.
  - intros Hin. rewrite Hret. now apply Hadd.
  - intros Hout. rewrite Hret. apply Hkeep.
    pose proof (Nat.mul_le_mono_r _ _ ((n + num_threads - 1) / num_threads) Hout). lia.
  - intros Hin1 Hin3.
    destruct (parallel_prefix_sum_recursive_team num_threads team1 team3 arr Hw Ht1 Ht3)
      as [_ Hel].
    apply Hel; [fold n; lia|]. fold n.
    assert (Hmin : S tid <= Nat.min team1 team3) by lia.
    pose proof (Nat.mul_le_mono_r _ _ ((n + num_threads - 1) / num_threads) Hmin).
    unfold chunk_end in Hi. simpl in *. lia.
Qed.

Lemma block_scan_phases_witness :
  vget (block_prefix_sums 4
          (snd (for_up 2 (block_scan_thread 4 [1; 2; 3; 4; 5; 6; 7; 8]%Z)
                  (replicate 8 0%Z, replicate 4 0%Z)))) 1 =
    int_sum [1; 2; 3; 4; 5; 6; 7; 8]%Z 0 2 /\
  vget (parallel_prefix_sum_recursive 4 2 2 [1; 2; 3; 4; 5; 6; 7; 8]%Z) 5 = 0%Z.
Proof.
  assert (Hw : 0 < 4) by lia.
  assert (Ht : 2 <= 4) by lia.
  assert (Hr : Forall int_range [1; 2; 3; 4; 5; 6; 7; 8]%Z)
    by (repeat constructor; unfold INT_MIN, INT_MAX; lia).
  assert (Htid1 : 1 < 4) by lia.
  assert (Htid2 : 2 < 4) by lia.
  assert (Hi1 : chunk_start 4 (length [1; 2; 3; 4; 5; 6; 7; 8]%Z) 1 <= 3 <
                chunk_end 4 (length [1; 2; 3; 4; 5; 6; 7; 8]%Z) 1) by (vm_compute; lia).
  assert (Hi2 : chunk_start 4 (length [1; 2; 3; 4; 5; 6; 7; 8]%Z) 2 <= 5 <
                chunk_end 4 (length [1; 2; 3; 4; 5; 6; 7; 8]%Z) 2) by (vm_compute; lia).
  pose proof (block_scan_phases 4 2 2 [1; 2; 3; 4; 5; 6; 7; 8]%Z Hw Ht Ht Hr 1 3 Htid1 Hi1)
    as (H1 & _).
  pose proof (block_scan_phases 4 2 2 [1; 2; 3; 4; 5; 6; 7; 8]%Z Hw Ht Ht Hr 2 5 Htid2 Hi2)
    as (_ & H2 & _ & H3 & _).
  split.
  - apply H1. lia.
  - rewrite H3 by lia. apply H2. lia.
Defined.

(** ** The chunks of the threads *)

(** X15.  The chunks [start .. end - 1] that the threads of a team of
    [num_threads >= 1] compute for [n] elements, in [parallel_max_sections] and
    in both parallel regions of [parallel_prefix_sum_recursive]: no chunk
    reaches beyond [n], every index below [n] is in the chunk of exactly one
    thread, the chunks follow one another without a gap, and
    [start + chunk_size] stays below [n + num_threads]. *)
Theorem chunks_partition (num_threads n : nat) :
  0 < num_threads ->
  (forall tid, chunk_end num_threads n tid <= n) /\
  (forall i, i < n ->
     exists tid, tid < num_threads /\
       chunk_start num_threads n tid <= i < chunk_end num_threads n tid /\
       forall tid', chunk_start num_threads n tid' <= i < chunk_end num_threads n tid' ->
         tid' = tid) /\
  (forall tid, chunk_start num_threads n (S tid) < n ->
     chunk_end num_threads n tid = chunk_start num_threads n (S tid)) /\
  (forall tid, tid < num_threads ->
     chunk_start num_threads n tid + (n + num_threads - 1) / num_threads
       <= n + num_threads - 1).
Proof.
  intros Hw. set (c := (n + num_threads - 1) / num_threads).
  assert (Hcw : num_threads * c <= n + num_threads - 1)
    by (apply Nat.Div0.mul_div_le).
  split; [|split; [|split]].
  - intros tid. unfold chunk_end. lia.
  - intros i Hi. destruct (chunk_of_index num_threads n i Hw Hi) as (tid & Htid & Hch).
    exists tid. split; [exact Htid|]. split; [exact Hch|].
    intros tid' Hch'. unfold chunk_end, chunk_start in *. fold c in Hch, Hch'.
    destruct (Nat.lt_total tid' tid) as [Hlt|[Heq|Hlt]]; auto.
    + pose proof (multiples_apart c tid' tid Hlt). lia.
    + pose proof (multiples_apart c tid tid' Hlt). lia.
  - intros tid Hlt. unfold chunk_end, chunk_start in *. fold c in Hlt |- *.
    simpl in Hlt |- *. lia.
  - intros tid Htid. unfold chunk_start. fold c.
    pose proof (multiples_apart c tid num_threads Htid). lia.
Qed.

Lemma chunks_partition_witness :
  chunk_end 4 10 0 = chunk_start 4 10 1 /\ chunk_end 4 10 3 <= 10.
Proof.
  assert (Hw : 0 < 4) by lia.
  destruct (chunks_partition 4 10 Hw) as (Hend & _ & Hnext & _).
  split.
  - apply Hnext. vm_compute. lia.
  - apply Hend.
Defined.

(** ** The indices of the Blelloch scan *)

Lemma for_loop_below (n step fuel : nat) : forall i0,
  Forall (fun i => i < n) (for_loop fuel i0 n step (fun i done => done ++ [i]) []).
Proof.
  induction fuel as [|fuel IH]; intros i0; simpl; [constructor|].
  destruct (Nat.ltb_spec i0 n); [|constructor].
  rewrite for_loop_collect. simpl. constructor; auto.
Qed.

Lemma for_loop_keeps_length (n step : nat) (body : nat -> list Z -> list Z) :
  (forall i s, length (body i s) = length s) ->
  forall fuel i s, length (for_loop fuel i n step body s) = length s.
Proof.
  intros Hbody. induction fuel as [|fuel IH]; intros i s; simpl; auto.
  destruct (i <? n); auto. now rewrite IH.
Qed.

Lemma iterations_below (n step : nat) : Forall (fun i => i < n) (iterations n step).
Proof. apply for_loop_below. Qed.

(** X16.  The Blelloch scan of a non-empty array of at most [2^30] [int]s stays
    inside its buffer and inside [int]: the buffer of [n = 2^log_n] elements
    holds the array; at every level [d < log_n] the stride [1 << (d + 1)] is at
    most [n]; and every iteration [i] of a level, of the upsweep as of the
    downsweep, reads and writes [temp[i + offset]] and [temp[i + stride - 1]]
    at indices below [n], while [i + stride] is at most [n]. *)
Theorem blelloch_accesses_in_bounds (arr : list Z) :
  (1 <= Z.of_nat (length arr) <= 2 ^ 30)%Z ->
  let log_n := Z.to_nat (ceil_log2 (Z.of_nat (length arr))) in
  let n := Z.to_nat (2 ^ ceil_log2 (Z.of_nat (length arr))) in
  build_padded (Z.of_nat (length arr)) = inr (Z.of_nat n) /\
  length arr <= n /\ (Z.of_nat n <= 2 ^ 30)%Z /\
  forall d, d < log_n ->
    let stride := Nat.shiftl 1 (d + 1) in
    let offset := Nat.shiftl 1 d - 1 in
    1 <= stride <= n /\ offset < stride /\
    (forall temp, length (upsweep_level n d temp) = length temp /\
                  length (downsweep_level n d temp) = length temp) /\
    forall i, In i (iterations n stride) ->
      i + offset < n /\ i + stride - 1 < n /\ i + stride <= n.
Proof.
  intros HN log_n n.
  destruct (ceil_log2_least (Z.of_nat (length arr))) as (H0 & Hup & _); [lia|].
  pose proof (ceil_log2_le _ 30 HN) as H30.
  destruct (padded_capacity_nat (Z.of_nat (length arr)) ltac:(lia)) as [Hpow Hcap].
  rewrite Nat2Z.id in Hcap. fold n in Hpow. fold log_n in Hpow, Hcap.
  assert (Hn30 : (Z.of_nat n <= 2 ^ 30)%Z).
  { unfold n. rewrite Z2Nat.id by (apply Z.pow_nonneg; lia).
    apply Z.pow_le_mono_r; lia. }
  split; [|split; [|split]].
  - rewrite build_padded_small by auto. unfold n.
    rewrite Z2Nat.id by (apply Z.pow_nonneg; lia). reflexivity.
  - lia.
  - exact Hn30.
  - intros d Hd stride offset. subst stride offset. rewrite !Nat.shiftl_1_l.
    pose proof (pow2_pos d) as Hh. pose proof (pow2_S d) as Hs.
    pose proof (levels_divide log_n d Hd) as Hdiv. rewrite <- Hpow in Hdiv.
    pose proof (pow2_pos (log_n - d - 1)) as Hq.
    split; [nia|]. split; [lia|]. split.
    + intros temp. unfold upsweep_level, downsweep_level, omp_for. split.
      * apply for_loop_keeps_length. intros i s. apply upsweep_body_length.
      * apply for_loop_keeps_length. intros i s.
        unfold downsweep_body. now rewrite !vset_length.
    + intros i Hi.
      pose proof (iterations_below n (2 ^ (d + 1))) as Hb.
      pose proof (iterations_multiples n (2 ^ (d + 1))) as Hm.
      rewrite Forall_forall in Hb, Hm.
      apply list_elem_of_In in Hi.
      specialize (Hb i Hi). destruct (Hm i Hi) as [k ->].
      assert (k < 2 ^ (log_n - d - 1)) by nia.
      pose proof (multiples_apart (2 ^ (d + 1)) k (2 ^ (log_n - d - 1)) ltac:(lia)).
      lia.
Qed.

Lemma blelloch_accesses_in_bounds_witness :
  length [3; 1; 4; 1; 5]%Z <= Z.to_nat (2 ^ ceil_log2 (Z.of_nat (length [3; 1; 4; 1; 5]%Z))).
Proof.
  assert (HN : (1 <= Z.of_nat (length [3; 1; 4; 1; 5]%Z) <= 2 ^ 30)%Z) by (simpl; lia).
  exact (proj1 (proj2 (blelloch_accesses_in_bounds [3; 1; 4; 1; 5]%Z HN))).
Defined.

(** ** Arrays put together *)

Lemma seg_sum_shift (a b : list Z) (len : nat) : forall lo lo',
  (forall j, j < len -> vget a (lo + j) = vget b (lo' + j)) ->
  seg_sum a lo len = seg_sum b lo' len.
Proof.
  induction len as [|len IH]; intros lo lo' Hag; simpl; auto.
  pose proof (Hag 0 ltac:(lia)) as H0. rewrite !Nat.add_0_r in H0. rewrite H0.
  f_equal. apply IH. intros j Hj. specialize (Hag (S j) ltac:(lia)).
  now replace (lo + S j) with (S lo + j) in Hag by lia;
    replace (lo' + S j) with (S lo' + j) in Hag by lia.
Qed.

Lemma vget_app_l (a b : list Z) (i : nat) : i < length a -> vget (a ++ b) i = vget a i.
Proof. intros Hi. unfold vget. now apply app_nth1. Qed.

Lemma vget_app_r (a b : list Z) (i : nat) : vget (a ++ b) (length a + i) = vget b i.
Proof. unfold vget. rewrite app_nth2 by lia. f_equal. lia. Qed.

Lemma vget_map (f : Z -> Z) (l : list Z) (i : nat) :
  i < length l -> vget (map f l) i = f (vget l i).
Proof.
  intros Hi. unfold vget.
  rewrite (nth_indep (map f l) 0%Z (f 0%Z)) by now rewrite length_map.
  apply map_nth.
Qed.

(** X17.  The sequential functions on two arrays put one after the other.  The
    scan of [a ++ b] is the scan of [a] followed by the scan of [b] with the
    last element of the scan of [a], the [int] sum of [a], added to each of its
    elements: the decomposition that the block scan computes chunk by chunk.
    The maximum of [a ++ b] is the larger of the two maxima. *)
Theorem sequential_results_of_concatenation (a b : list Z) :
  a <> [] -> Forall int_range a -> Forall int_range b ->
  sequential_prefix_sum (a ++ b) =
    sequential_prefix_sum a ++
    map (add32 (vget (sequential_prefix_sum a) (length a - 1))) (sequential_prefix_sum b) /\
  vget (sequential_prefix_sum a) (length a - 1) = int_sum a 0 (length a) /\
  sequential_max (a ++ b) (length (a ++ b)) =
    Z.max (sequential_max a (length a)) (sequential_max b (length b)).
Proof.
  intros Hne Ha Hb.
  assert (Hla : 0 < length a) by (destruct a; simpl; [congruence|lia]).
  assert (Hab : Forall int_range (a ++ b)) by (apply Forall_app; auto).
  assert (Hlast : vget (sequential_prefix_sum a) (length a - 1) = wrap32 (seg_sum a 0 (length a))).
  { rewrite sequential_prefix_sum_elements by (auto; lia). do 2 f_equal. lia. }
  assert (Hl : forall j, j < length a -> vget (a ++ b) (0 + j) = vget a (0 + j))
    by (intros j Hj; simpl; now apply vget_app_l).
  assert (Hr : forall len j, j < len -> vget (a ++ b) (length a + j) = vget b (0 + j))
    by (intros len j _; simpl; apply vget_app_r).
  split; [|split].
  - apply vec_ext.
    + now rewrite length_app, !sequential_prefix_sum_length, length_map,
        sequential_prefix_sum_length, length_app.
    + intros i Hi. rewrite sequential_prefix_sum_length, length_app in Hi.
      rewrite sequential_prefix_sum_elements by (auto; rewrite length_app; lia).
      destruct (Nat.lt_ge_cases i (length a)) as [Hlt|Hge].
      * rewrite vget_app_l by (rewrite sequential_prefix_sum_length; lia).
        rewrite sequential_prefix_sum_elements by auto. f_equal.
        apply seg_sum_shift. intros j Hj. apply Hl. lia.
      * replace i with (length (sequential_prefix_sum a) + (i - length a))
          at 2 by (rewrite sequential_prefix_sum_length; lia).
        rewrite vget_app_r, vget_map by (rewrite sequential_prefix_sum_length; lia).
        rewrite Hlast, sequential_prefix_sum_elements by (auto; lia).
        rewrite add32_wrap. f_equal.
        replace (i + 1) with (length a + (i - length a + 1)) by lia.
        rewrite seg_sum_app. f_equal.
        -- apply seg_sum_shift. intros j Hj. apply Hl. lia.
        -- apply seg_sum_shift. intros j Hj. simpl. apply (Hr (i - length a + 1)). lia.
  - now rewrite Hlast, int_sum_wrap.
  - rewrite !sequential_max_seg, length_app, seg_max_app. f_equal.
    + apply seg_max_shift. intros j Hj. apply Hl. lia.
    + apply seg_max_shift. intros j Hj. simpl. apply (Hr (length b)). lia.
Qed.

Lemma sequential_results_of_concatenation_witness :
  sequential_prefix_sum ([3; 1; 4] ++ [1; 5])%Z =
    sequential_prefix_sum [3; 1; 4]%Z ++
    map (add32 (vget (sequential_prefix_sum [3; 1; 4]%Z) (length [3; 1; 4]%Z - 1)))
      (sequential_prefix_sum [1; 5]%Z).
Proof.
  assert (Hne : [3; 1; 4]%Z <> []) by discriminate.
  assert (Ha : Forall int_range [3; 1; 4]%Z)
    by (repeat constructor; unfold INT_MIN, INT_MAX; lia).
  assert (Hb : Forall int_range [1; 5]%Z)
    by (repeat constructor; unfold INT_MIN, INT_MAX; lia).
  exact (proj1 (sequential_results_of_concatenation [3; 1; 4]%Z [1; 5]%Z Hne Ha Hb)).
Defined.

(** ** Agreement of the methods when the teams are complete *)

(** X18.  For every non-empty sequence [S] of [int]s, of at most [2^30]
    elements, the Blelloch scan returns the sequence that
    [sequential_prefix_sum] returns, and so does the block scan when the
    chunks of the threads of its two teams reach the end of the sequence, as
    they do when both teams have [omp_get_max_threads()] threads; that
    sequence [R] has the length of [S], [R[0] = S[0]] and
    [R[i] = R[i-1] + S[i]] for [i >= 1], the sum being that of [int]. *)
Theorem scans_agree_with_sequential (xs : list Z) :
  (1 <= Z.of_nat (length xs) <= 2 ^ 30)%Z -> Forall int_range xs ->
  (exists report,
     parallel_prefix_sum_blelloch xs = inr (report, sequential_prefix_sum xs)) /\
  (forall num_threads team1 team3,
     1 <= num_threads -> team1 <= num_threads -> team3 <= num_threads ->
     length xs <= Nat.min team1 team3 * ((length xs + num_threads - 1) / num_threads) ->
     parallel_prefix_sum_recursive num_threads team1 team3 xs = sequential_prefix_sum xs) /\
  (forall num_threads, 1 <= num_threads ->
     parallel_prefix_sum_recursive num_threads num_threads num_threads xs =
       sequential_prefix_sum xs) /\
  is_inclusive_scan (sequential_prefix_sum xs) xs.
Proof.
  intros HN Hr.
  assert (Hteam : forall w t1 t3, 1 <= w -> t1 <= w -> t3 <= w ->
            length xs <= Nat.min t1 t3 * ((length xs + w - 1) / w) ->
            parallel_prefix_sum_recursive w t1 t3 xs = sequential_prefix_sum xs).
  { intros w t1 t3 Hw Ht1 Ht3 Hcov.
    destruct (parallel_prefix_sum_recursive_team w t1 t3 xs Hw Ht1 Ht3) as (Hl & Hel).
    apply vec_ext.
    - now rewrite sequential_prefix_sum_length.
    - intros i Hi. rewrite Hl in Hi. rewrite Hel by lia.
      now rewrite sequential_prefix_sum_elements. }
  split; [|split; [|split]].
  - now apply parallel_prefix_sum_blelloch_correct.
  - exact Hteam.
  - intros w Hw. apply Hteam; auto.
    pose proof (chunks_cover w (length xs) Hw). lia.
  - apply sequential_prefix_sum_scan. destruct xs; simpl in *; [lia|congruence].
Qed.

Lemma scans_agree_with_sequential_witness :
  parallel_prefix_sum_recursive 4 3 3 [12; 34; 21; 45; 23; 18; 36; 29; 50]%Z =
    sequential_prefix_sum [12; 34; 21; 45; 23; 18; 36; 29; 50]%Z.
Proof.
  assert (HN : (1 <= Z.of_nat (length [12; 34; 21; 45; 23; 18; 36; 29; 50]%Z) <= 2 ^ 30)%Z)
    by (simpl; lia).
  assert (Hr : Forall int_range [12; 34; 21; 45; 23; 18; 36; 29; 50]%Z)
    by (repeat constructor; unfold INT_MIN, INT_MAX; lia).
  assert (Hw : 1 <= 4) by lia.
  assert (Ht : 3 <= 4) by lia.
  assert (Hcov : length [12; 34; 21; 45; 23; 18; 36; 29; 50]%Z <=
                 Nat.min 3 3 * ((length [12; 34; 21; 45; 23; 18; 36; 29; 50]%Z + 4 - 1) / 4))
    by (vm_compute; lia).
  exact (proj1 (proj2 (scans_agree_with_sequential _ HN Hr)) 4 3 3 Hw Ht Ht Hcov).
Defined.

(** X19.  For every non-empty sequence [S] of [int]s, of at most [2^30]
    elements, the reductions return what [sequential_max] returns: the
    reduction clause under any schedule of the iterations, the tree reduction,
    the reduction with explicit barriers, and the chunked reduction when its
    team has [omp_get_max_threads()] threads.  That value is the maximum
    element of [S]. *)
Theorem reductions_agree_with_sequential (xs : list Z) :
  (1 <= Z.of_nat (length xs) <= 2 ^ 30)%Z -> Forall int_range xs ->
  (forall sched, schedule_of (length xs) sched ->
     parallel_max_reduction sched xs (length xs) = sequential_max xs (length xs)) /\
  fst (parallel_max_tree_reduction xs (length xs)) = sequential_max xs (length xs) /\
  (forall num_threads, 1 <= num_threads ->
     parallel_max_sections num_threads num_threads xs (length xs) =
       sequential_max xs (length xs)) /\
  br_max (parallel_max_explicit_barriers xs (length xs)) = sequential_max xs (length xs) /\
  is_max_of (sequential_max xs (length xs)) xs.
Proof.
  intros HN Hr.
  assert (Hne : xs <> []) by (destruct xs; simpl in *; [lia|congruence]).
  rewrite sequential_max_seg. split; [|split; [|split; [|split]]].
  - intros sched Hs. now apply parallel_max_reduction_seg.
  - now apply parallel_max_tree_reduction_seg.
  - intros num_threads Hw. apply parallel_max_sections_seg. lia.
  - now apply parallel_max_explicit_barriers_seg.
  - now apply seg_max_is_max.
Qed.

Lemma reductions_agree_with_sequential_witness :
  br_max (parallel_max_explicit_barriers [456; 789; 123; 890; 234]%Z 5) =
    sequential_max [456; 789; 123; 890; 234]%Z 5.
Proof.
  apply (reductions_agree_with_sequential [456; 789; 123; 890; 234]%Z).
  - simpl. lia.
  - repeat constructor; unfold INT_MIN, INT_MAX; lia.
Defined.

(** X20.  What the output does not depend on.  With teams of
    [omp_get_max_threads()] threads the chunk-partitioned engines return the
    same output whatever that number is: for [w1 >= 1] and [w2 >= 1],
    [parallel_max_sections] returns the same value and
    [parallel_prefix_sum_recursive] the same sequence.  The reduction clause
    returns the same value under any two schedules of its iterations, and
    every level of the tree reduction, of the upsweep and of the downsweep
    computes the same buffer in whatever order its iterations are run. *)
Theorem engines_deterministic (arr : list Z) (w1 w2 : nat) :
  1 <= w1 -> 1 <= w2 ->
  parallel_max_sections w1 w1 arr (length arr) =
    parallel_max_sections w2 w2 arr (length arr) /\
  parallel_prefix_sum_recursive w1 w1 w1 arr = parallel_prefix_sum_recursive w2 w2 w2 arr /\
  (forall sched1 sched2,
     schedule_of (length arr) sched1 -> schedule_of (length arr) sched2 ->
     parallel_max_reduction sched1 arr (length arr) =
       parallel_max_reduction sched2 arr (length arr)) /\
  (forall n s order m, 0 < s -> Permutation order (iterations n (2 * s)) ->
     run_iterations order (tree_body n s) m = tree_level n s m) /\
  (forall n d order t, Permutation order (iterations n (Nat.shiftl 1 (d + 1))) ->
     run_iterations order (upsweep_body (Nat.shiftl 1 (d + 1)) (Nat.shiftl 1 d - 1)) t =
       upsweep_level n d t /\
     run_iterations order (downsweep_body (Nat.shiftl 1 (d + 1)) (Nat.shiftl 1 d - 1)) t =
       downsweep_level n d t).
Proof.
  intros Hw1 Hw2. split; [|split; [|split; [|split]]].
  - rewrite !parallel_max_sections_seg by lia. reflexivity.
  - destruct (parallel_prefix_sum_recursive_elements w1 arr ltac:(lia)) as (Hl1 & He1).
    destruct (parallel_prefix_sum_recursive_elements w2 arr ltac:(lia)) as (Hl2 & He2).
    apply vec_ext; [congruence|].
    intros i Hi. rewrite Hl1 in Hi. now rewrite He1, He2.
  - intros sched1 sched2 Hs1 Hs2. rewrite !parallel_max_reduction_seg by auto. reflexivity.
  - intros n s order m. apply tree_level_any_order.
  - intros n d order t Hperm. split.
    + now apply upsweep_level_any_order.
    + now apply downsweep_level_any_order.
Qed.

Lemma engines_deterministic_witness :
  parallel_prefix_sum_recursive 2 2 2 [12; 34; 21; 45; 23]%Z =
    parallel_prefix_sum_recursive 7 7 7 [12; 34; 21; 45; 23]%Z.
Proof.
  apply (engines_deterministic [12; 34; 21; 45; 23]%Z 2 7); lia.
Defined.
